(** * VS1053 MIDI sequencer: scheduling and voice-allocation engine

    Shallow embedding of [src/MIDI_VS1053.h] (class [VS1053_MIDI]): the
    pattern store, the voice pool, the instrument cache and the
    sequencer loop of [update()], together with the properties of the
    engine stated in the specification.

    Conventions of the embedding
    - [uint32_t] and [uint8_t] values are integers in [Z]; every
      [uint32_t] addition or subtraction of the source is followed by
      [u32], the reduction modulo 2^32.
    - The fixed C arrays are lists, read with the total lookup [!!!] and
      written with [<[i:=x]>]; [shape] records their declared sizes.
    - [trackEventCount] ([uint16_t], never above 128) and array indices
      are natural numbers.
    - Methods are computations in the monad [M]: they thread the object
      and append to the log of bytes handed to [sendMIDI], the one place
      where the class writes to the MIDI data interface.
    - [millis()] is the argument [now] of the methods that read it.
    - The [Serial] debugging output is not part of the model. *)

From Stdlib Require Import ZArith List Lia Bool Ascii.
From stdpp Require Import base tactics option numbers list strings.

Local Open Scope Z_scope.

(** ** Configuration ([#define]s of the source) *)

Definition SEQ_MAX_TRACKS : nat := 8.
Definition SEQ_MAX_EVENTS : nat := 128.
Definition SEQ_MAX_VOICES : nat := 32.

#[global] Arguments SEQ_MAX_TRACKS : simpl never.
#[global] Arguments SEQ_MAX_EVENTS : simpl never.
#[global] Arguments SEQ_MAX_VOICES : simpl never.

(** Wrap-around of [uint32_t] arithmetic. *)
Definition u32 (x : Z) : Z := x mod 2 ^ 32.

(** ** Data model *)

Record SeqEvent := mkSeqEvent {
  timeOffsetMs : Z;
  channel : Z;
  inst : Z;
  note : Z;
  velocity : Z;
  durationMs : Z;
  played : bool
}.

Record ActiveVoice := mkActiveVoice {
  active : bool;
  v_channel : Z;
  v_note : Z;
  offTimeMs : Z
}.

Record VS1053_MIDI := mkVS1053_MIDI {
  debug : bool;
  tracks : list (list SeqEvent);
  trackEventCount : list nat;
  trackLoopLengthMs : list Z;
  sequencerRunning : bool;
  sequencerStartMs : Z;
  globalLoopMs : Z;
  voices : list ActiveVoice;
  lastChannelInstrument : list Z
}.

#[global] Instance SeqEvent_inhabited : Inhabited SeqEvent :=
  populate (mkSeqEvent 0 0 0 0 0 0 false).
#[global] Instance ActiveVoice_inhabited : Inhabited ActiveVoice :=
  populate (mkActiveVoice false 0 0 0).

(** Field updates. *)

Definition set_played (b : bool) (e : SeqEvent) : SeqEvent :=
  mkSeqEvent (timeOffsetMs e) (channel e) (inst e) (note e) (velocity e)
             (durationMs e) b.

Definition set_active (b : bool) (v : ActiveVoice) : ActiveVoice :=
  mkActiveVoice b (v_channel v) (v_note v) (offTimeMs v).

Definition set_debug (b : bool) (s : VS1053_MIDI) : VS1053_MIDI :=
  mkVS1053_MIDI b (tracks s) (trackEventCount s) (trackLoopLengthMs s)
    (sequencerRunning s) (sequencerStartMs s) (globalLoopMs s) (voices s)
    (lastChannelInstrument s).

Definition set_tracks (f : list (list SeqEvent) -> list (list SeqEvent))
    (s : VS1053_MIDI) : VS1053_MIDI :=
  mkVS1053_MIDI (debug s) (f (tracks s)) (trackEventCount s)
    (trackLoopLengthMs s) (sequencerRunning s) (sequencerStartMs s)
    (globalLoopMs s) (voices s) (lastChannelInstrument s).

Definition set_trackEventCount (f : list nat -> list nat)
    (s : VS1053_MIDI) : VS1053_MIDI :=
  mkVS1053_MIDI (debug s) (tracks s) (f (trackEventCount s))
    (trackLoopLengthMs s) (sequencerRunning s) (sequencerStartMs s)
    (globalLoopMs s) (voices s) (lastChannelInstrument s).

Definition set_trackLoopLengthMs (f : list Z -> list Z)
    (s : VS1053_MIDI) : VS1053_MIDI :=
  mkVS1053_MIDI (debug s) (tracks s) (trackEventCount s)
    (f (trackLoopLengthMs s)) (sequencerRunning s) (sequencerStartMs s)
    (globalLoopMs s) (voices s) (lastChannelInstrument s).

Definition set_sequencerRunning (b : bool) (s : VS1053_MIDI) : VS1053_MIDI :=
  mkVS1053_MIDI (debug s) (tracks s) (trackEventCount s)
    (trackLoopLengthMs s) b (sequencerStartMs s) (globalLoopMs s) (voices s)
    (lastChannelInstrument s).

Definition set_sequencerStartMs (t : Z) (s : VS1053_MIDI) : VS1053_MIDI :=
  mkVS1053_MIDI (debug s) (tracks s) (trackEventCount s)
    (trackLoopLengthMs s) (sequencerRunning s) t (globalLoopMs s) (voices s)
    (lastChannelInstrument s).

Definition set_globalLoopMs (l : Z) (s : VS1053_MIDI) : VS1053_MIDI :=
  mkVS1053_MIDI (debug s) (tracks s) (trackEventCount s)
    (trackLoopLengthMs s) (sequencerRunning s) (sequencerStartMs s) l
    (voices s) (lastChannelInstrument s).

Definition set_voices (f : list ActiveVoice -> list ActiveVoice)
    (s : VS1053_MIDI) : VS1053_MIDI :=
  mkVS1053_MIDI (debug s) (tracks s) (trackEventCount s)
    (trackLoopLengthMs s) (sequencerRunning s) (sequencerStartMs s)
    (globalLoopMs s) (f (voices s)) (lastChannelInstrument s).

Definition set_lastChannelInstrument (f : list Z -> list Z)
    (s : VS1053_MIDI) : VS1053_MIDI :=
  mkVS1053_MIDI (debug s) (tracks s) (trackEventCount s)
    (trackLoopLengthMs s) (sequencerRunning s) (sequencerStartMs s)
    (globalLoopMs s) (voices s) (f (lastChannelInstrument s)).

(** Array reads. *)

Definition event_at (s : VS1053_MIDI) (t i : nat) : SeqEvent :=
  (tracks s !!! t) !!! i.
Definition count_at (s : VS1053_MIDI) (t : nat) : nat :=
  trackEventCount s !!! t.
Definition voice_at (s : VS1053_MIDI) (v : nat) : ActiveVoice :=
  voices s !!! v.

(** [tracks[t][i] = f(tracks[t][i])] *)
Definition upd_event (t i : nat) (f : SeqEvent -> SeqEvent)
    (T : list (list SeqEvent)) : list (list SeqEvent) :=
  <[t := <[i := f ((T !!! t) !!! i)]> (T !!! t)]> T.

(** ** The monad of methods: object state and bytes sent to the chip *)

Definition M (A : Type) : Type := VS1053_MIDI -> A * VS1053_MIDI * list Z.

Definition result {A} (r : A * VS1053_MIDI * list Z) : A := r.1.1.
Definition state_of {A} (r : A * VS1053_MIDI * list Z) : VS1053_MIDI := r.1.2.
Definition sent {A} (r : A * VS1053_MIDI * list Z) : list Z := r.2.

#[global] Instance M_ret : MRet M := fun A a s => (a, s, []).
#[global] Instance M_bind : MBind M := fun A B k m s =>
  let r1 := m s in
  let r2 := k (result r1) (state_of r1) in
  (result r2, state_of r2, sent r1 ++ sent r2).

Definition gets {A} (f : VS1053_MIDI -> A) : M A := fun s => (f s, s, []).
Definition modify (f : VS1053_MIDI -> VS1053_MIDI) : M unit :=
  fun s => (tt, f s, []).

(** [for (...) body(i)], the variable running through the list [idx]. *)
Fixpoint for_ {I : Type} (idx : list I) (body : I -> M unit) : M unit :=
  match idx with
  | [] => mret tt
  | i :: rest => body i;; for_ rest body
  end.

(** ** Low level helpers *)

(** [sendMIDI(data)]: one byte on the MIDI data interface. *)
Definition sendMIDI (data : Z) : M unit := fun s => (tt, s, [data]).

(** [talkMIDI(cmd, d1, d2)]: Program Change is two bytes only. *)
Definition talkMIDI (cmd d1 d2 : Z) : M unit :=
  sendMIDI cmd;;
  sendMIDI d1;;
  if negb (Z.land cmd 0xF0 =? 0xC0) then sendMIDI d2 else mret tt.

(** [scheduleVoiceOff]: the loop over the voice slots, leaving at the
    first free one; the empty list is the fall-through past the loop. *)
Fixpoint scheduleVoiceOff_loop (idx : list nat) (ch nt off : Z) : M unit :=
  match idx with
  | [] => mret tt
  | v :: rest =>
      vo ← gets (fun s => voice_at s v);
      if negb (active vo)
      then modify (set_voices <[v := mkActiveVoice true ch nt off]>)
      else scheduleVoiceOff_loop rest ch nt off
  end.

Definition scheduleVoiceOff (ch nt off : Z) : M unit :=
  scheduleVoiceOff_loop (seq 0 SEQ_MAX_VOICES) ch nt off.

(** ** Immediate MIDI helpers *)

Definition setInstrument (chan instr : Z) : M unit :=
  let ch := Z.land chan 0x0F in
  let instVal := instr in
  last ← gets (fun s => lastChannelInstrument s !!! Z.to_nat ch);
  if negb (last =? instVal) then
    talkMIDI (Z.lor 0xC0 ch) instVal 0;;
    modify (set_lastChannelInstrument <[Z.to_nat ch := instVal]>)
  else mret tt.

Definition noteOn (chan nt vel : Z) : M unit :=
  talkMIDI (Z.lor 0x90 (Z.land chan 0x0F)) nt vel.

Definition noteOff (chan nt vel : Z) : M unit :=
  talkMIDI (Z.lor 0x80 (Z.land chan 0x0F)) nt vel.

(** Default velocity of [noteOff]. *)
Definition noteOff_vel : Z := 64.

Definition playNoteAsync (now chan instr nt dur vel : Z) : M unit :=
  setInstrument chan instr;;
  noteOn chan nt vel;;
  scheduleVoiceOff chan nt (u32 (now + dur)).

(** The overload without an instrument. *)
Definition playNoteAsync_note (now chan nt dur vel : Z) : M unit :=
  noteOn chan nt vel;;
  scheduleVoiceOff chan nt (u32 (now + dur)).

(** ** Sequencer API *)

Definition clearTrack (track : nat) : M unit :=
  if (SEQ_MAX_TRACKS <=? track)%nat then mret tt
  else
    modify (set_trackEventCount <[track := 0%nat]>);;
    modify (set_trackLoopLengthMs <[track := 0]>).

Definition addEvent (track : nat) (offset chan instr nt vel dur : Z)
    : M bool :=
  if (SEQ_MAX_TRACKS <=? track)%nat then mret false
  else
    cnt ← gets (fun s => count_at s track);
    if (SEQ_MAX_EVENTS <=? cnt)%nat then mret false
    else
      modify (set_trackEventCount <[track := S cnt]>);;
      modify (set_tracks (upd_event track cnt (fun _ =>
                mkSeqEvent offset chan instr nt vel dur false)));;
      len ← gets (fun s => trackLoopLengthMs s !!! track);
      (if len <? u32 (offset + dur)
       then modify (set_trackLoopLengthMs <[track := u32 (offset + dur)]>)
       else mret tt);;
      mret true.

Definition startSequencer (now loopMs : Z) : M unit :=
  modify (set_sequencerStartMs now);;
  modify (set_sequencerRunning true);;
  modify (set_globalLoopMs loopMs);;
  for_ (seq 0 SEQ_MAX_TRACKS) (fun t =>
    cnt ← gets (fun s => count_at s t);
    for_ (seq 0 cnt) (fun i =>
      modify (set_tracks (upd_event t i (set_played false))))).

Definition stopSequencer : M unit := modify (set_sequencerRunning false).

(** *** [update()] *)

(** Body of the voice loop. *)
Definition update_voice (now : Z) (v : nat) : M unit :=
  vo ← gets (fun s => voice_at s v);
  if active vo && (offTimeMs vo <=? now) then
    noteOff (v_channel vo) (v_note vo) noteOff_vel;;
    modify (set_voices <[v := set_active false vo]>)
  else mret tt.

(** The pattern length: [globalLoopMs] or the longest track. *)
Definition longest_track (s : VS1053_MIDI) : Z :=
  foldl (fun pl t =>
           if pl <? trackLoopLengthMs s !!! t
           then trackLoopLengthMs s !!! t else pl)
        0 (seq 0 SEQ_MAX_TRACKS).

Definition patternLength (s : VS1053_MIDI) : Z :=
  if 0 <? globalLoopMs s then globalLoopMs s
  else
    let pl := longest_track s in
    if pl =? 0 then 1 else pl.

Definition posInPattern (now : Z) (s : VS1053_MIDI) : Z :=
  u32 (now - sequencerStartMs s) mod patternLength s.

(** The two guards of the event loop. *)
Definition fires (pos : Z) (ev : SeqEvent) : bool :=
  negb (played ev) && (timeOffsetMs ev <=? pos).
Definition rearms (pos : Z) (ev : SeqEvent) : bool :=
  played ev && (pos <? timeOffsetMs ev).

(** What the loop does for an event that fires, before marking it. *)
Definition fireEvent (now : Z) (ev : SeqEvent) : M unit :=
  setInstrument (channel ev) (inst ev);;
  noteOn (channel ev) (note ev) (velocity ev);;
  scheduleVoiceOff (channel ev) (note ev) (u32 (now + durationMs ev)).

(** Body of the event loop. *)
Definition update_event (now pos : Z) (t eidx : nat) : M unit :=
  ev ← gets (fun s => event_at s t eidx);
  if fires pos ev then
    fireEvent now ev;;
    modify (set_tracks (upd_event t eidx (set_played true)))
  else if rearms pos ev then
    modify (set_tracks (upd_event t eidx (set_played false)))
  else mret tt.

Definition update_tracks (now pos : Z) : M unit :=
  for_ (seq 0 SEQ_MAX_TRACKS) (fun t =>
    cnt ← gets (fun s => count_at s t);
    for_ (seq 0 cnt) (update_event now pos t)).

Definition update_voices (now : Z) : M unit :=
  for_ (seq 0 SEQ_MAX_VOICES) (update_voice now).

Definition update (now : Z) : M unit :=
  update_voices now;;
  running ← gets sequencerRunning;
  if negb running then mret tt
  else
    pos ← gets (posInPattern now);
    update_tracks now pos.

(** ** Construction *)

(** The declared sizes of the member arrays. *)
Record shape (s : VS1053_MIDI) : Prop := mkShape {
  shape_tracks : length (tracks s) = SEQ_MAX_TRACKS;
  shape_events : ∀ t, (t < SEQ_MAX_TRACKS)%nat →
                      length (tracks s !!! t) = SEQ_MAX_EVENTS;
  shape_count : length (trackEventCount s) = SEQ_MAX_TRACKS;
  shape_loop : length (trackLoopLengthMs s) = SEQ_MAX_TRACKS;
  shape_voices : length (voices s) = SEQ_MAX_VOICES;
  shape_cache : length (lastChannelInstrument s) = 16%nat
}.

(** Well-formed objects: the arrays have their sizes and no track
    counts more events than it can hold. *)
Record wf (s : VS1053_MIDI) : Prop := mkWf {
  wf_shape : shape s;
  wf_count : ∀ t, (t < SEQ_MAX_TRACKS)%nat →
                  (count_at s t ≤ SEQ_MAX_EVENTS)%nat
}.

(** The constructor, run on the memory [mem] the object is built in:
    the members it does not assign keep what the memory held. *)
Definition VS1053_MIDI_ctor : M unit :=
  for_ (seq 0 SEQ_MAX_TRACKS) (fun t =>
    modify (set_trackEventCount <[t := 0%nat]>);;
    modify (set_trackLoopLengthMs <[t := 0]>));;
  for_ (seq 0 SEQ_MAX_VOICES) (fun v =>
    vo ← gets (fun s => voice_at s v);
    modify (set_voices <[v := set_active false vo]>));;
  for_ (seq 0 16) (fun c =>
    modify (set_lastChannelInstrument <[c := 255]>));;
  modify (set_sequencerRunning false);;
  modify (set_globalLoopMs 0);;
  modify (set_debug false).

(** A zero-filled memory of the right shape, and the object built in it. *)
Definition zero_mem : VS1053_MIDI :=
  mkVS1053_MIDI false
    (replicate SEQ_MAX_TRACKS (replicate SEQ_MAX_EVENTS inhabitant))
    (replicate SEQ_MAX_TRACKS 0%nat)
    (replicate SEQ_MAX_TRACKS 0)
    false 0 0
    (replicate SEQ_MAX_VOICES inhabitant)
    (replicate 16 0).

Definition fresh : VS1053_MIDI := Eval vm_compute in
  state_of (VS1053_MIDI_ctor zero_mem).

(** ** The other methods, and histories of calls *)

(** The remaining methods that talk to the MIDI interface.  [begin()] and
    [setBassBoost()] write control registers of the chip only and leave
    the object alone; they are not part of the model. *)
Definition setDebug (en : bool) : M unit := modify (set_debug en).

Definition clamp127 (x : Z) : Z := if 127 <? x then 127 else x.

Definition setPan (chan pan : Z) : M unit :=
  talkMIDI (Z.lor 0xB0 (Z.land chan 0x0F)) 10 (clamp127 pan).
Definition setReverb (reverb : Z) : M unit :=
  talkMIDI 0xB0 91 (clamp127 reverb).
Definition setMasterVolume (volume : Z) : M unit :=
  talkMIDI 0xB0 7 (clamp127 volume).
Definition setChannelVolume (chan volume : Z) : M unit :=
  talkMIDI (Z.lor 0xB0 (Z.land chan 0x0F)) 7 (clamp127 volume).

(** A call of a public method, with [millis()] at the time of the call
    where the method reads it. *)
Inductive Call : Type :=
  | CallSetDebug (en : bool)
  | CallSetInstrument (chan instr : Z)
  | CallNoteOn (chan nt vel : Z)
  | CallNoteOff (chan nt vel : Z)
  | CallPlayNoteAsync (now chan instr nt dur vel : Z)
  | CallPlayNoteAsync_note (now chan nt dur vel : Z)
  | CallClearTrack (track : nat)
  | CallAddEvent (track : nat) (offset chan instr nt vel dur : Z)
  | CallSetPan (chan pan : Z)
  | CallSetReverb (reverb : Z)
  | CallSetMasterVolume (volume : Z)
  | CallSetChannelVolume (chan volume : Z)
  | CallStartSequencer (now loopMs : Z)
  | CallStopSequencer
  | CallUpdate (now : Z).

Definition call (c : Call) : M unit :=
  match c with
  | CallSetDebug en => setDebug en
  | CallSetInstrument chan instr => setInstrument chan instr
  | CallNoteOn chan nt vel => noteOn chan nt vel
  | CallNoteOff chan nt vel => noteOff chan nt vel
  | CallPlayNoteAsync now chan instr nt dur vel =>
      playNoteAsync now chan instr nt dur vel
  | CallPlayNoteAsync_note now chan nt dur vel =>
      playNoteAsync_note now chan nt dur vel
  | CallClearTrack track => clearTrack track
  | CallAddEvent track offset chan instr nt vel dur =>
      addEvent track offset chan instr nt vel dur ≫= λ _, mret tt
  | CallSetPan chan pan => setPan chan pan
  | CallSetReverb reverb => setReverb reverb
  | CallSetMasterVolume volume => setMasterVolume volume
  | CallSetChannelVolume chan volume => setChannelVolume chan volume
  | CallStartSequencer now loopMs => startSequencer now loopMs
  | CallStopSequencer => stopSequencer
  | CallUpdate now => update now
  end.

(** The object after the constructor and a history of calls. *)
Definition after (mem : VS1053_MIDI) (cs : list Call) : VS1053_MIDI :=
  state_of (for_ cs call (state_of (VS1053_MIDI_ctor mem))).

(** ** [Song]

    [Song::play(loop)] starts the sequencer with loop length 0, the
    automatic one, when [loop] is set, and with loop length 1 otherwise. *)

Definition Song_play (loop : bool) (now : Z) : M unit :=
  startSequencer now (if loop then 0 else 1).

(** ** [TrackComposer]: note names

    A [const char*] argument is a string: its characters up to the first
    NUL, which ends it.  Reading the terminator is allowed, reading past
    it is undefined; such a read makes the result [None]. *)

Definition NUL : ascii := "000"%char.

Fixpoint c_str (s : string) : string :=
  match s with
  | EmptyString => EmptyString
  | String c r => if (c =? NUL)%char then EmptyString else String c (c_str r)
  end.

(** [s[i]] *)
Definition char_at (s : string) (i : nat) : option ascii :=
  match String.get i (c_str s) with
  | Some c => Some c
  | None => if (i =? String.length (c_str s))%nat then Some NUL else None
  end.

(** [s + k], for [k] at most the length of the string. *)
Fixpoint string_drop (k : nat) (s : string) : string :=
  match k, s with
  | O, _ => s
  | S k, String _ r => string_drop k r
  | S _, EmptyString => EmptyString
  end.

(** The C library's [atoi], after the C standard: white space is skipped,
    an optional sign is read, then decimal digits up to the first other
    character; no digits give 0.  A value that does not fit an [int] is
    undefined. *)
Definition isspace (c : ascii) : bool :=
  let n := nat_of_ascii c in
  (n =? 32)%nat || ((9 <=? n)%nat && (n <=? 13)%nat).

Definition digit_value (c : ascii) : option Z :=
  let n := Z.of_nat (nat_of_ascii c) in
  if (48 <=? n) && (n <=? 57) then Some (n - 48) else None.

Fixpoint atoi_digits (acc : Z) (s : string) : Z :=
  match s with
  | EmptyString => acc
  | String c r =>
      match digit_value c with
      | Some d => atoi_digits (10 * acc + d) r
      | None => acc
      end
  end.

Fixpoint atoi_value (s : string) : Z :=
  match s with
  | EmptyString => 0
  | String c r =>
      if isspace c then atoi_value r
      else if (c =? "-")%char then - atoi_digits 0 r
      else if (c =? "+")%char then atoi_digits 0 r
      else atoi_digits 0 s
  end.

Definition in_int (x : Z) : bool := (- 2 ^ 31 <=? x) && (x <? 2 ^ 31).

Definition atoi (s : string) : option Z :=
  if in_int (atoi_value s) then Some (atoi_value s) else None.

(** The [switch] of [parseNote]. *)
Definition note_semitone (c : ascii) : Z :=
  if (c =? "C")%char then 0
  else if (c =? "D")%char then 2
  else if (c =? "E")%char then 4
  else if (c =? "F")%char then 5
  else if (c =? "G")%char then 7
  else if (c =? "A")%char then 9
  else if (c =? "B")%char then 11
  else if (c =? "H")%char then 11
  else 0.

(** [parseNote(s)]: the note, as the byte the cast to [Note] gives. *)
Definition parseNote (s : string) : option Z :=
  match char_at s 0, char_at s 1 with
  | Some nt, Some c1 =>
      let acc := if (c1 =? "#")%char || (c1 =? "b")%char then c1 else NUL in
      match atoi (string_drop (if (acc =? NUL)%char then 1 else 2) (c_str s))
      with
      | Some octave =>
          let semitone := note_semitone nt in
          let semitone :=
            if (acc =? "#")%char then semitone + 1 else semitone in
          let semitone :=
            if (acc =? "b")%char then semitone - 1 else semitone in
          let midiNote := 12 + octave * 12 + semitone in
          if in_int (octave * 12) && in_int midiNote
          then Some (midiNote mod 256) else None
      | None => None
      end
  | _, _ => None
  end.

(** The enumerators of [enum class Note], in the order of their
    declaration; the first has the value 12 and each next one more. *)
Definition Note_names : list string :=
  [
   "C0"; "Cs0"; "D0"; "Ds0"; "E0"; "F0"; "Fs0"; "G0"; "Gs0"; "A0"; "As0"; "H0";
   "C1"; "Cs1"; "D1"; "Ds1"; "E1"; "F1"; "Fs1"; "G1"; "Gs1"; "A1"; "As1"; "H1";
   "C2"; "Cs2"; "D2"; "Ds2"; "E2"; "F2"; "Fs2"; "G2"; "Gs2"; "A2"; "As2"; "H2";
   "C3"; "Cs3"; "D3"; "Ds3"; "E3"; "F3"; "Fs3"; "G3"; "Gs3"; "A3"; "As3"; "H3";
   "C4"; "Cs4"; "D4"; "Ds4"; "E4"; "F4"; "Fs4"; "G4"; "Gs4"; "A4"; "As4"; "H4";
   "C5"; "Cs5"; "D5"; "Ds5"; "E5"; "F5"; "Fs5"; "G5"; "Gs5"; "A5"; "As5"; "H5";
   "C6"; "Cs6"; "D6"; "Ds6"; "E6"; "F6"; "Fs6"; "G6"; "Gs6"; "A6"; "As6"; "H6";
   "C7"; "Cs7"; "D7"; "Ds7"; "E7"; "F7"; "Fs7"; "G7"; "Gs7"; "A7"; "As7"; "H7";
   "C8"]%string.

Definition Note_value (p : nat) : Z := 12 + Z.of_nat p.

(** The way a note name is written in a string: [s] for sharp is [#],
    and [H] may be written [B]. *)
Definition spell_char (c : ascii) : ascii :=
  if (c =? "s")%char then "#"%char else c.
Definition spell_B (c : ascii) : ascii :=
  if (c =? "H")%char then "B"%char else c.
Fixpoint string_map (f : ascii → ascii) (s : string) : string :=
  match s with
  | EmptyString => EmptyString
  | String c r => String (f c) (string_map f r)
  end.

(** ** [TrackComposer] and [Song::track]

    The composer holds its track, its cursor and its default instrument;
    its methods also act on the sequencer they refer to.  They are
    undefined, [None], when a note name cannot be read. *)

Record TrackComposer := mkTrackComposer {
  tc_track : nat;
  tc_cursor : Z;
  tc_defaultInstrument : Z
}.

Definition MU (A : Type) : Type :=
  VS1053_MIDI → option (A * VS1053_MIDI * list Z).

Definition MU_ret {A} (a : A) : MU A := λ s, Some (a, s, []).
Definition MU_bind {A B} (m : MU A) (k : A → MU B) : MU B := λ s,
  match m s with
  | None => None
  | Some r1 =>
      match k (result r1) (state_of r1) with
      | None => None
      | Some r2 => Some (result r2, state_of r2, sent r1 ++ sent r2)
      end
  end.
Definition MU_lift {A} (m : M A) : MU A := λ s, Some (m s).
Definition MU_parseNote (name : string) : MU Z := λ s,
  match parseNote name with
  | Some n => Some (n, s, [])
  | None => None
  end.

(** The constructor clears the track; [Instrument::AcousticGrandPiano]
    is 0. *)
Definition TrackComposer_ctor (t : nat) : M TrackComposer :=
  clearTrack t ≫= λ _, mret (mkTrackComposer t 0 0).

Definition Song_track (t : nat) : M TrackComposer := TrackComposer_ctor t.

Definition tc_instrument (i : Z) (tc : TrackComposer) : TrackComposer :=
  mkTrackComposer (tc_track tc) (tc_cursor tc) i.

(** [cursor += ms] *)
Definition tc_advance (ms : Z) (tc : TrackComposer) : TrackComposer :=
  mkTrackComposer (tc_track tc) (u32 (tc_cursor tc + ms))
    (tc_defaultInstrument tc).

Definition tc_rest (ms : Z) (tc : TrackComposer) : TrackComposer :=
  tc_advance ms tc.

(** [midi.addEvent(track, cursor, 0, defaultInstrument, n, vel, dur)],
    the result of which the composer ignores. *)
Definition tc_addEvent (tc : TrackComposer) (n vel dur : Z) : M unit :=
  addEvent (tc_track tc) (tc_cursor tc) 0 (tc_defaultInstrument tc) n vel dur
    ≫= λ _, mret tt.

Definition tc_note (name : string) (dur vel : Z) (tc : TrackComposer)
    : MU TrackComposer :=
  MU_bind (MU_parseNote name) (λ n,
  MU_bind (MU_lift (tc_addEvent tc n vel dur)) (λ _,
  MU_ret (tc_advance dur tc))).

Fixpoint tc_chord_loop (names : list string) (dur vel : Z)
    (tc : TrackComposer) : MU unit :=
  match names with
  | [] => MU_ret tt
  | name :: rest =>
      MU_bind (MU_parseNote name) (λ n,
      MU_bind (MU_lift (tc_addEvent tc n vel dur)) (λ _,
      tc_chord_loop rest dur vel tc))
  end.

Definition tc_chord (names : list string) (dur vel : Z) (tc : TrackComposer)
    : MU TrackComposer :=
  MU_bind (tc_chord_loop names dur vel tc) (λ _, MU_ret (tc_advance dur tc)).

Fixpoint tc_arp (names : list string) (step vel : Z) (tc : TrackComposer)
    : MU TrackComposer :=
  match names with
  | [] => MU_ret tc
  | name :: rest =>
      MU_bind (MU_parseNote name) (λ n,
      MU_bind (MU_lift (tc_addEvent tc n vel step)) (λ _,
      tc_arp rest step vel (tc_advance step tc)))
  end.

Definition tc_length (tc : TrackComposer) : Z := tc_cursor tc.

(** A chain of composer calls. *)
Inductive ComposerCall : Type :=
  | TcInstrument (i : Z)
  | TcRest (ms : Z)
  | TcNote (name : string) (dur vel : Z)
  | TcChord (names : list string) (dur vel : Z)
  | TcArp (names : list string) (step vel : Z).

Definition compose_call (c : ComposerCall) (tc : TrackComposer)
    : MU TrackComposer :=
  match c with
  | TcInstrument i => MU_ret (tc_instrument i tc)
  | TcRest ms => MU_ret (tc_rest ms tc)
  | TcNote name dur vel => tc_note name dur vel tc
  | TcChord names dur vel => tc_chord names dur vel tc
  | TcArp names step vel => tc_arp names step vel tc
  end.

Fixpoint compose (cs : list ComposerCall) (tc : TrackComposer)
    : MU TrackComposer :=
  match cs with
  | [] => MU_ret tc
  | c :: rest => MU_bind (compose_call c tc) (compose rest)
  end.

(** The time a call moves the cursor by, and the calls whose note names
    can be read and whose times are not negative. *)
Definition call_time (c : ComposerCall) : Z :=
  match c with
  | TcInstrument _ => 0
  | TcRest ms => ms
  | TcNote _ dur _ => dur
  | TcChord _ dur _ => dur
  | TcArp names step _ => Z.of_nat (length names) * step
  end.

Definition total_time (cs : list ComposerCall) : Z :=
  foldr (λ c acc, call_time c + acc) 0 cs.

Definition names_parse (names : list string) : Prop :=
  Forall (λ name, is_Some (parseNote name)) names.

Definition call_ok (c : ComposerCall) : Prop :=
  match c with
  | TcInstrument _ => True
  | TcRest ms => 0 ≤ ms
  | TcNote name dur _ => is_Some (parseNote name) ∧ 0 ≤ dur
  | TcChord names dur _ => names_parse names ∧ 0 ≤ dur
  | TcArp names step _ => names_parse names ∧ 0 ≤ step
  end.

(** ** Control registers: [writeRegister], [loadPlugin], [setBassBoost]

    These methods write to the control interface of the chip and leave
    the object alone.  A write is recorded by the three bytes that
    [writeRegister] transfers after the write opcode. *)

Definition u8 (x : Z) : Z := x mod 2 ^ 8.
Definition u16 (x : Z) : Z := x mod 2 ^ 16.

Record SciWrite := mkSciWrite { sci_addr : Z; sci_high : Z; sci_low : Z }.

(** [writeRegister(addr, high, low)], its arguments converted to
    [uint8_t]. *)
Definition writeRegister (addr high low : Z) : SciWrite :=
  mkSciWrite (u8 addr) (u8 high) (u8 low).

(** The bytes of the transfer. *)
Definition writeRegister_bytes (w : SciWrite) : list Z :=
  [0x02; sci_addr w; sci_high w; sci_low w].

Definition vs1053_plugin : list Z :=
  [
   0x0007; 0x0001; 0x8050; 0x0006; 0x0014; 0x0030; 0x0715; 0xb080;
   0x3400; 0x0007; 0x9255; 0x3d00; 0x0024; 0x0030; 0x0295; 0x6890;
   0x3400; 0x0030; 0x0495; 0x3d00; 0x0024; 0x2908; 0x4d40; 0x0030;
   0x0200; 0x000a; 0x0001; 0x0050].

(** [pgm_read_word(&table[i])]: a word of the table; there is none past
    its end. *)
Definition pgm_read_word (table : list Z) (i : nat) : option Z :=
  u16 <$> table !! i.

(** How a run of [loadPlugin] ends: with the writes it made, by reading
    past the end of the table, or, in the model only, by using up the
    steps it was given. *)
Inductive outcome (A : Type) : Type :=
  | Done (a : A)
  | OutOfBounds
  | OutOfFuel.
Arguments Done {A} a.
Arguments OutOfBounds {A}.
Arguments OutOfFuel {A}.

(** [while (n--) { val = table[i++]; writeRegister(addr, val >> 8, val & 0xFF); }],
    giving the writes and the index after the loop. *)
Fixpoint plugin_block (table : list Z) (addr : Z) (n : nat) (i : nat)
    : option (list SciWrite * nat) :=
  match n with
  | O => Some ([], i)
  | S n' =>
      match pgm_read_word table i with
      | Some val =>
          match plugin_block table addr n' (S i) with
          | Some (ws, j) =>
              Some (writeRegister addr (Z.shiftr val 8) (Z.land val 0xFF) :: ws,
                    j)
          | None => None
          end
      | None => None
      end
  end.

(** [for (int i = 0; i < bound; ) { addr = table[i++]; n = table[i++]; ... }];
    the index is a natural number here, which is what the [int] of the
    source holds for a table of fewer than 2^31 words. *)
Fixpoint loadPlugin_loop (fuel : nat) (table : list Z) (bound i : nat)
    : outcome (list SciWrite) :=
  if (bound <=? i)%nat then Done []
  else
    match fuel with
    | O => OutOfFuel
    | S fuel' =>
        match pgm_read_word table i, pgm_read_word table (S i) with
        | Some addr, Some n =>
            match plugin_block table addr (Z.to_nat n) (S (S i)) with
            | Some (ws, j) =>
                match loadPlugin_loop fuel' table bound j with
                | Done rest => Done (ws ++ rest)
                | OutOfBounds => OutOfBounds
                | OutOfFuel => OutOfFuel
                end
            | None => OutOfBounds
            end
        | _, _ => OutOfBounds
        end
    end.

(** Every turn of the outer loop moves the index on, so [bound] steps
    are enough. *)
Definition loadPlugin_on (table : list Z) (bound : nat)
    : outcome (list SciWrite) :=
  loadPlugin_loop bound table bound 0.

Definition loadPlugin : outcome (list SciWrite) :=
  loadPlugin_on vs1053_plugin 28.

Definition setBassBoost (bass : Z) : SciWrite :=
  let bass := if 15 <? bass then 15 else bass in
  writeRegister 0x02 (Z.shiftl (Z.land bass 0x0F) 4) 0x00.

(** A table made of records: an address, the number of values, the
    values; and the writes the records stand for. *)
Definition plugin_encode (recs : list (Z * list Z)) : list Z :=
  flat_map (λ r, r.1 :: Z.of_nat (length r.2) :: r.2) recs.

Definition plugin_writes (recs : list (Z * list Z)) : list SciWrite :=
  flat_map (λ r, map (λ v, mkSciWrite (r.1 mod 256) (v / 256) (v mod 256)) r.2)
    recs.

Definition record_ok (r : Z * list Z) : Prop :=
  0 ≤ r.1 < 2 ^ 16 ∧ Z.of_nat (length r.2) < 2 ^ 16 ∧
  Forall (λ v, 0 ≤ v < 2 ^ 16) r.2.

(** The records of [vs1053_plugin]. *)
Definition plugin_records : list (Z * list Z) :=
  [(0x0007, [0x8050]);
   (0x0006, [0x0030; 0x0715; 0xb080; 0x3400; 0x0007; 0x9255; 0x3d00; 0x0024;
             0x0030; 0x0295; 0x6890; 0x3400; 0x0030; 0x0495; 0x3d00; 0x0024;
             0x2908; 0x4d40; 0x0030; 0x0200]);
   (0x000a, [0x0050])].

(** ** Notions used in the statements and proofs *)

Definition programChange_bytes (chan instr : Z) : list Z :=
  [Z.lor 0xC0 (Z.land chan 0x0F); instr].
Definition noteOn_bytes (chan nt vel : Z) : list Z :=
  [Z.lor 0x90 (Z.land chan 0x0F); nt; vel].
Definition noteOff_bytes (chan nt : Z) : list Z :=
  [Z.lor 0x80 (Z.land chan 0x0F); nt; noteOff_vel].

(** The effect of the reservation loop on the [voices] array. *)
Fixpoint reserve_loop (idx : list nat) (ch nt off : Z)
    (vs : list ActiveVoice) : list ActiveVoice :=
  match idx with
  | [] => vs
  | v :: rest =>
      if negb (active (vs !!! v))
      then <[v := mkActiveVoice true ch nt off]> vs
      else reserve_loop rest ch nt off vs
  end.

(** Expiry of the reservations that are due. *)
Definition due (now : Z) (v : ActiveVoice) : bool :=
  active v && (offTimeMs v <=? now).
Definition expire (now : Z) (v : ActiveVoice) : ActiveVoice :=
  if due now v then set_active false v else v.
Definition expiry_bytes (now : Z) (v : ActiveVoice) : list Z :=
  if due now v then noteOff_bytes (v_channel v) (v_note v) else [].

(** The object after the voice loop. *)
Definition expired (now : Z) (s : VS1053_MIDI) : VS1053_MIDI :=
  set_voices (map (expire now)) s.

(** What one pass of the loop body does to the flag of an event. *)
Definition flag_step (pos : Z) (ev : SeqEvent) : SeqEvent :=
  if fires pos ev then set_played true ev
  else if rearms pos ev then set_played false ev
  else ev.

(** [tracks[t][i] = f(tracks[t][i])] for the listed places, in turn. *)
Definition upd_all (f : SeqEvent → SeqEvent) (l : list (nat * nat))
    (T : list (list SeqEvent)) : list (list SeqEvent) :=
  foldl (λ T p, upd_event p.1 p.2 f T) T l.

(** The places in use, in the order of the two nested loops: track by
    track, and within a track in the order of the appends. *)
Definition places (s : VS1053_MIDI) (ts : list nat) : list (nat * nat) :=
  flat_map (λ t, map (pair t) (seq 0 (count_at s t))) ts.
Definition stored_places (s : VS1053_MIDI) : list (nat * nat) :=
  places s (seq 0 SEQ_MAX_TRACKS).

Definition in_store (T : list (list SeqEvent)) (p : nat * nat) : Prop :=
  (p.1 < length T)%nat ∧ (p.2 < length (T !!! p.1))%nat.

(** The places among [l] whose event fires, and those events, read in
    the state [s]. *)
Definition fired_places (pos : Z) (s : VS1053_MIDI) (l : list (nat * nat))
    : list (nat * nat) :=
  List.filter (λ p, fires pos (event_at s p.1 p.2)) l.
Definition firing (pos : Z) (s : VS1053_MIDI) (l : list (nat * nat))
    : list SeqEvent :=
  map (λ p, event_at s p.1 p.2) (fired_places pos s l).

(** [s'] differs from [s] at most in the voice pool and the instrument
    cache, whose sizes are the same. *)
Record device_step (s s' : VS1053_MIDI) : Prop := mkDeviceStep {
  ds_debug : debug s' = debug s;
  ds_tracks : tracks s' = tracks s;
  ds_count : trackEventCount s' = trackEventCount s;
  ds_loop : trackLoopLengthMs s' = trackLoopLengthMs s;
  ds_running : sequencerRunning s' = sequencerRunning s;
  ds_start : sequencerStartMs s' = sequencerStartMs s;
  ds_global : globalLoopMs s' = globalLoopMs s;
  ds_voices : length (voices s') = length (voices s);
  ds_cache : length (lastChannelInstrument s') =
             length (lastChannelInstrument s)
}.

(** A computation that neither reads nor writes the pattern store. *)
Definition ignores_tracks (m : M unit) : Prop :=
  ∀ f s, m (set_tracks f s) = (tt, set_tracks f (state_of (m s)), sent (m s)).

(** The events a track holds, in append order, the end time of an event
    as the source computes it, and the greatest value of [f] on a list. *)
Definition track_events (s : VS1053_MIDI) (t : nat) : list SeqEvent :=
  map (event_at s t) (seq 0 (count_at s t)).
Definition end_time (ev : SeqEvent) : Z :=
  u32 (timeOffsetMs ev + durationMs ev).
Definition max_of {A} (f : A → Z) (l : list A) : Z :=
  foldr (λ x m, Z.max (f x) m) 0 l.

Definition loop_lengths_derived (s : VS1053_MIDI) : Prop :=
  ∀ t, (t < SEQ_MAX_TRACKS)%nat →
    trackLoopLengthMs s !!! t = max_of end_time (track_events s t).

(** [s'] holds the events of [s], up to their flags. *)
Record flags_step (s s' : VS1053_MIDI) : Prop := mkFlagsStep {
  fs_count : trackEventCount s' = trackEventCount s;
  fs_loop : trackLoopLengthMs s' = trackLoopLengthMs s;
  fs_events : ∀ t i, end_time (event_at s' t i) = end_time (event_at s t i)
}.

(** [s'] has the pattern store of [s] and arrays of the same sizes. *)
Record store_kept (s s' : VS1053_MIDI) : Prop := mkStoreKept {
  sk_tracks : tracks s' = tracks s;
  sk_count : trackEventCount s' = trackEventCount s;
  sk_loop : trackLoopLengthMs s' = trackLoopLengthMs s;
  sk_voices : length (voices s') = length (voices s);
  sk_cache : length (lastChannelInstrument s') =
             length (lastChannelInstrument s)
}.

(** The invariant of the pattern store. *)
Definition store_inv (s : VS1053_MIDI) : Prop :=
  wf s ∧ loop_lengths_derived s.

(** [wf], as a test that computes. *)
Definition wfb (s : VS1053_MIDI) : bool :=
  (length (tracks s) =? SEQ_MAX_TRACKS)%nat &&
  forallb (λ trk, (length trk =? SEQ_MAX_EVENTS)%nat) (tracks s) &&
  (length (trackEventCount s) =? SEQ_MAX_TRACKS)%nat &&
  forallb (λ c, (c <=? SEQ_MAX_EVENTS)%nat) (trackEventCount s) &&
  (length (trackLoopLengthMs s) =? SEQ_MAX_TRACKS)%nat &&
  (length (voices s) =? SEQ_MAX_VOICES)%nat &&
  (length (lastChannelInstrument s) =? 16)%nat.

(** ** The scenario of the specification

    Track 0 holds note 60 at offset 0 for 500 ms and note 64 at offset
    250 for 250 ms; the sequencer is started at time 1000 with the
    automatic loop length, and [update()] is called at 1000 and 1250. *)

Definition song : VS1053_MIDI := Eval vm_compute in
  state_of (addEvent 0 250 0 0 64 100 250
    (state_of (addEvent 0 0 0 0 60 100 500 fresh))).
Definition song_started : VS1053_MIDI := Eval vm_compute in
  state_of (startSequencer 1000 0 song).
Definition song_at_0 : VS1053_MIDI := Eval vm_compute in
  state_of (update 1000 song_started).
Definition song_at_250 : VS1053_MIDI := Eval vm_compute in
  state_of (update 1250 song_at_0).

(** Note 64, at offset 250, under an explicit loop length of 200. *)
Definition song_short_loop : VS1053_MIDI := Eval vm_compute in
  state_of (startSequencer 1000 200 song).

(** One track with one event at offset 0 lasting 100 ms, started at time
    1000 with a loop length of 200. *)
Definition single : VS1053_MIDI := Eval vm_compute in
  state_of (addEvent 0 0 0 0 60 100 100 fresh).
Definition single_started : VS1053_MIDI := Eval vm_compute in
  state_of (startSequencer 1000 200 single).

(** A pool with every slot reserved for time 2000. *)
Definition full_pool : VS1053_MIDI := Eval vm_compute in
  set_voices (λ _, replicate SEQ_MAX_VOICES (mkActiveVoice true 0 60 2000))
    fresh.

(** A full track 0: 128 notes of 10 ms. *)
Definition full_track : VS1053_MIDI := Eval vm_compute in
  state_of (for_ (seq 0 SEQ_MAX_EVENTS)
              (λ i, addEvent 0 (10 * Z.of_nat i) 0 0 60 100 10 ≫= λ _, mret tt)
              fresh).

(** The same scenario as a history of calls. *)
Definition song_calls : list Call :=
  [CallAddEvent 0 0 0 0 60 100 500; CallAddEvent 0 250 0 0 64 100 250;
   CallStartSequencer 1000 0; CallUpdate 1000; CallUpdate 1250].

(** * Proofs *)

(** ** Reasoning about computations *)

Ltac munfold :=
  unfold mbind, M_bind, mret, M_ret, gets, modify, sendMIDI,
    result, state_of, sent in *.

Lemma bind_run {A B} (m : M A) (k : A → M B) s :
  (m ≫= k) s =
    (result (k (result (m s)) (state_of (m s))),
     state_of (k (result (m s)) (state_of (m s))),
     sent (m s) ++ sent (k (result (m s)) (state_of (m s)))).
Proof. reflexivity. Qed.

Lemma mret_run {A} (a : A) s : (mret a : M A) s = (a, s, []).
Proof. reflexivity. Qed.
Lemma gets_run {A} (f : VS1053_MIDI → A) s : gets f s = (f s, s, []).
Proof. reflexivity. Qed.
Lemma modify_run f s : modify f s = (tt, f s, []).
Proof. reflexivity. Qed.

Lemma result_run {A} (a : A) s o : result (a, s, o) = a.
Proof. reflexivity. Qed.
Lemma state_of_run {A} (a : A) s o : state_of (a, s, o) = s.
Proof. reflexivity. Qed.
Lemma sent_run {A} (a : A) s o : sent (a, s, o) = o.
Proof. reflexivity. Qed.

(** Symbolic execution of a computation, one step at a time. *)
Ltac mrun :=
  repeat match goal with
    | |- context [@mbind M _ ?A ?B ?k ?m ?s] => rewrite (@bind_run A B m k s)
    | |- context [@gets ?A ?f ?s] => rewrite (@gets_run A f s)
    | |- context [modify ?f ?s] => rewrite (modify_run f s)
    | |- context [@mret M _ ?A ?a ?s] => rewrite (@mret_run A a s)
    | |- context [@result ?A (?a, ?s, ?o)] => rewrite (@result_run A a s o)
    | |- context [@state_of ?A (?a, ?s, ?o)] => rewrite (@state_of_run A a s o)
    | |- context [@sent ?A (?a, ?s, ?o)] => rewrite (@sent_run A a s o)
    | |- context [[] ++ ?l] => rewrite (app_nil_l l)
    end.

Lemma result_tt (r : unit * VS1053_MIDI * list Z) : result r = tt.
Proof. by destruct r as [[[] ?] ?]. Qed.

Lemma run_eta {A} (r : A * VS1053_MIDI * list Z) :
  r = (result r, state_of r, sent r).
Proof. by destruct r as [[??]?]. Qed.

Lemma for__nil {I} (body : I → M unit) s : for_ [] body s = (tt, s, []).
Proof. reflexivity. Qed.

Lemma for__cons {I} (i : I) idx (body : I → M unit) s :
  for_ (i :: idx) body s =
    (tt, state_of (for_ idx body (state_of (body i s))),
     sent (body i s) ++ sent (for_ idx body (state_of (body i s)))).
Proof.
  simpl. rewrite bind_run. f_equal. f_equal.
  by destruct (result (for_ idx body (state_of (body i s)))).
Qed.

Lemma for__app {I} (l1 l2 : list I) (body : I → M unit) s :
  for_ (l1 ++ l2) body s =
    (tt, state_of (for_ l2 body (state_of (for_ l1 body s))),
     sent (for_ l1 body s) ++ sent (for_ l2 body (state_of (for_ l1 body s)))).
Proof.
  revert s. induction l1 as [|i l1 IH]; intros s.
  - change (for_ l2 body s =
              (tt, state_of (for_ l2 body s), sent (for_ l2 body s))).
    rewrite (run_eta (for_ l2 body s)) at 1.
    by destruct (result (for_ l2 body s)).
  - rewrite <- app_comm_cons, !for__cons, IH. unfold state_of, sent. simpl.
    by rewrite app_assoc.
Qed.

(** Record eta for the object. *)
Lemma set_voices_id s : set_voices (λ vs, vs) s = s.
Proof. by destruct s. Qed.
Lemma set_tracks_id s : set_tracks (λ T, T) s = s.
Proof. by destruct s. Qed.

(** *** Status bytes *)

Lemma low_nibble c : 0 ≤ Z.land c 0x0F < 16.
Proof.
  change 0x0F with (Z.ones 4). rewrite Z.land_ones by lia.
  apply Z.mod_pos_bound. lia.
Qed.

Lemma low_nibble_id c : 0 ≤ c < 16 → Z.land c 0x0F = c.
Proof.
  intros H. change 0x0F with (Z.ones 4). rewrite Z.land_ones by lia.
  apply Z.mod_small. lia.
Qed.

Lemma status_class hi c :
  hi ∈ [0x80; 0x90; 0xC0] → 0 ≤ c < 16 → Z.land (Z.lor hi c) 0xF0 = hi.
Proof.
  intros Hhi Hc.
  assert (Hcs : c ∈ [0;1;2;3;4;5;6;7;8;9;10;11;12;13;14;15]).
  { rewrite !elem_of_cons. lia. }
  rewrite !elem_of_cons, elem_of_nil in Hhi.
  repeat (apply elem_of_cons in Hcs as [->|Hcs]);
    [destruct Hhi as [->|[->|[->|[]]]]; reflexivity ..|].
  by apply elem_of_nil in Hcs.
Qed.

(** *** The messages, as byte sequences *)

Lemma noteOn_run chan nt vel s :
  noteOn chan nt vel s = (tt, s, noteOn_bytes chan nt vel).
Proof.
  unfold noteOn, talkMIDI, noteOn_bytes.
  rewrite (status_class 0x90) by (rewrite ?elem_of_cons; auto using low_nibble).
  reflexivity.
Qed.

Lemma noteOff_run chan nt s :
  noteOff chan nt noteOff_vel s = (tt, s, noteOff_bytes chan nt).
Proof.
  unfold noteOff, talkMIDI, noteOff_bytes.
  rewrite (status_class 0x80) by (rewrite ?elem_of_cons; auto using low_nibble).
  reflexivity.
Qed.

Lemma setInstrument_run chan instr s :
  setInstrument chan instr s =
    if lastChannelInstrument s !!! Z.to_nat (Z.land chan 0x0F) =? instr
    then (tt, s, [])
    else (tt, set_lastChannelInstrument
                <[Z.to_nat (Z.land chan 0x0F) := instr]> s,
          programChange_bytes chan instr).
Proof.
  unfold setInstrument, talkMIDI, programChange_bytes.
  rewrite (status_class 0xC0) by (rewrite ?elem_of_cons; auto using low_nibble).
  munfold. simpl.
  by destruct (_ =? instr).
Qed.

(** Changing one member array by a function that fixes it changes nothing;
    two functions that agree on the array give the same object. *)
Lemma set_voices_ext f g s :
  f (voices s) = g (voices s) → set_voices f s = set_voices g s.
Proof. unfold set_voices. by intros ->. Qed.

Lemma set_voices_same f s : f (voices s) = voices s → set_voices f s = s.
Proof. intros H. rewrite <- (set_voices_id s) at 2. by apply set_voices_ext. Qed.

Lemma set_tracks_ext f g s :
  f (tracks s) = g (tracks s) → set_tracks f s = set_tracks g s.
Proof. unfold set_tracks. by intros ->. Qed.

Lemma set_tracks_same f s : f (tracks s) = tracks s → set_tracks f s = s.
Proof. intros H. rewrite <- (set_tracks_id s) at 2. by apply set_tracks_ext. Qed.

(** ** The voice pool *)

Lemma scheduleVoiceOff_loop_run idx ch nt off s :
  scheduleVoiceOff_loop idx ch nt off s =
    (tt, set_voices (reserve_loop idx ch nt off) s, []).
Proof.
  induction idx as [|v idx IH]; simpl.
  - munfold. by rewrite set_voices_same.
  - rewrite bind_run. munfold. simpl. unfold voice_at.
    destruct (active (voices s !!! v)) eqn:Hact; simpl.
    + rewrite IH. simpl. apply f_equal2; [|done]. f_equal.
      apply set_voices_ext. by rewrite Hact.
    + apply f_equal2; [|done]. f_equal.
      apply set_voices_ext. by rewrite Hact.
Qed.

Lemma scheduleVoiceOff_run ch nt off s :
  scheduleVoiceOff ch nt off s =
    (tt, set_voices (reserve_loop (seq 0 SEQ_MAX_VOICES) ch nt off) s, []).
Proof. apply scheduleVoiceOff_loop_run. Qed.

(** First fit: the loop stops at the first free slot of its range. *)
Lemma reserve_loop_first a n v ch nt off (vs : list ActiveVoice) :
  (a ≤ v < a + n)%nat →
  active (vs !!! v) = false →
  (∀ u, (a ≤ u < v)%nat → active (vs !!! u) = true) →
  reserve_loop (seq a n) ch nt off vs = <[v := mkActiveVoice true ch nt off]> vs.
Proof.
  revert a. induction n as [|n IH]; intros a Hv Hfree Hbusy; [lia|].
  simpl. destruct (decide (a = v)) as [->|Hne].
  - by rewrite Hfree.
  - rewrite Hbusy by lia. simpl. apply IH; [lia|done|].
    intros u Hu. apply Hbusy. lia.
Qed.

Lemma reserve_loop_full a n ch nt off (vs : list ActiveVoice) :
  (∀ u, (a ≤ u < a + n)%nat → active (vs !!! u) = true) →
  reserve_loop (seq a n) ch nt off vs = vs.
Proof.
  revert a. induction n as [|n IH]; intros a Hbusy; [done|].
  simpl. rewrite Hbusy by lia. simpl. apply IH.
  intros u Hu. apply Hbusy. lia.
Qed.

Lemma update_voice_run now v s :
  (v < length (voices s))%nat →
  update_voice now v s =
    (tt, set_voices <[v := expire now (voice_at s v)]> s,
     expiry_bytes now (voice_at s v)).
Proof.
  intros Hv. unfold update_voice, expire, expiry_bytes, due. mrun.
  destruct (active (voice_at s v) && (offTimeMs (voice_at s v) <=? now)).
  - mrun. rewrite noteOff_run. mrun. by rewrite app_nil_r.
  - mrun. rewrite set_voices_same; [done|].
    apply list_insert_id. by apply list_lookup_lookup_total_lt.
Qed.

Lemma update_voices_from now n a s :
  length (voices s) = (a + n)%nat →
  for_ (seq a n) (update_voice now) s =
    (tt, set_voices (λ vs, take a vs ++ map (expire now) (drop a vs)) s,
     flat_map (expiry_bytes now) (drop a (voices s))).
Proof.
  revert a s. induction n as [|n IH]; intros a s Hlen.
  - simpl. munfold. rewrite set_voices_same; rewrite drop_ge by lia; [done|].
    simpl. by rewrite app_nil_r, take_ge by lia.
  - assert (Ha : voices s !! a = Some (voice_at s a)).
    { apply list_lookup_lookup_total_lt. lia. }
    cbn [seq]. rewrite for__cons, update_voice_run by lia.
    unfold state_of, sent. cbn [fst snd].
    rewrite IH by (cbn; rewrite length_insert; lia).
    cbn [fst snd voices set_voices].
    rewrite drop_insert_lt by lia. rewrite (drop_S _ _ _ Ha). cbn [flat_map].
    apply f_equal2; [|done]. f_equal.
    unfold set_voices. cbn. f_equal.
    rewrite drop_insert_lt by lia. rewrite (drop_S _ _ _ Ha). cbn [map].
    erewrite take_S_r; [|apply list_lookup_insert_eq; lia].
    rewrite take_insert_ge by lia. by rewrite <- app_assoc.
Qed.

Lemma update_voices_run now s :
  length (voices s) = SEQ_MAX_VOICES →
  update_voices now s =
    (tt, set_voices (map (expire now)) s,
     flat_map (expiry_bytes now) (voices s)).
Proof.
  intros Hlen. unfold update_voices. by rewrite update_voices_from.
Qed.

(** ** Firing an event *)

Lemma device_step_refl s : device_step s s.
Proof. by split. Qed.

Lemma device_step_trans s1 s2 s3 :
  device_step s1 s2 → device_step s2 s3 → device_step s1 s3.
Proof. intros [] []. split; congruence. Qed.

Lemma length_reserve_loop idx ch nt off (vs : list ActiveVoice) :
  length (reserve_loop idx ch nt off vs) = length vs.
Proof.
  induction idx as [|v idx IH]; simpl; [done|].
  destruct (negb _); [apply length_insert | done].
Qed.

Lemma fireEvent_run now ev s :
  fireEvent now ev s =
    (tt,
     set_voices (reserve_loop (seq 0 SEQ_MAX_VOICES) (channel ev) (note ev)
                   (u32 (now + durationMs ev)))
       (state_of (setInstrument (channel ev) (inst ev) s)),
     sent (setInstrument (channel ev) (inst ev) s) ++
     noteOn_bytes (channel ev) (note ev) (velocity ev)).
Proof.
  unfold fireEvent. mrun. rewrite noteOn_run. mrun.
  rewrite scheduleVoiceOff_run. mrun. by rewrite app_nil_r.
Qed.

Lemma fireEvent_device_step now ev s :
  device_step s (state_of (fireEvent now ev s)).
Proof.
  rewrite fireEvent_run, setInstrument_run.
  destruct (lastChannelInstrument s !!! _ =? _); split; cbn; try done.
  all: rewrite ?length_reserve_loop, ?length_insert.
  all: done.
Qed.

Lemma fireEvent_ignores_tracks now ev : ignores_tracks (fireEvent now ev).
Proof.
  intros f s. rewrite !fireEvent_run, !setInstrument_run. cbn.
  by destruct (lastChannelInstrument s !!! _ =? _).
Qed.

Lemma for__device_step {I} (l : list I) (body : I → M unit) s :
  (∀ i s, device_step s (state_of (body i s))) →
  device_step s (state_of (for_ l body s)).
Proof.
  intros Hbody. revert s. induction l as [|i l IH]; intros s.
  - apply device_step_refl.
  - rewrite for__cons. cbn. eapply device_step_trans; [apply Hbody | apply IH].
Qed.

Lemma for__ignores_tracks {I} (l : list I) (body : I → M unit) :
  (∀ i, ignores_tracks (body i)) → ignores_tracks (for_ l body).
Proof.
  intros Hbody. induction l as [|i l IH]; intros f s.
  - done.
  - rewrite !for__cons, Hbody. cbn. rewrite IH. done.
Qed.

Lemma fire_all_set_tracks now (l : list SeqEvent) f s :
  for_ l (fireEvent now) (set_tracks f s) =
    (tt, set_tracks f (state_of (for_ l (fireEvent now) s)),
     sent (for_ l (fireEvent now) s)).
Proof.
  apply (for__ignores_tracks l (fireEvent now)), fireEvent_ignores_tracks.
Qed.

Lemma fire_all_device_step now (l : list SeqEvent) s :
  device_step s (state_of (for_ l (fireEvent now) s)).
Proof. apply for__device_step, fireEvent_device_step. Qed.

(** ** The event loop of [update()] *)

Lemma upd_event_lookup t i f (T : list (list SeqEvent)) t' i' :
  in_store T (t, i) →
  (upd_event t i f T !!! t') !!! i' =
    if decide ((t, i) = (t', i')) then f ((T !!! t) !!! i)
    else (T !!! t') !!! i'.
Proof.
  intros [Ht Hi]. cbn in Ht, Hi. unfold upd_event.
  destruct (decide (t = t')) as [<-|Hne].
  - rewrite list_lookup_total_insert_eq by done.
    destruct (decide (i = i')) as [<-|Hne].
    + rewrite list_lookup_total_insert_eq by done. by rewrite decide_True.
    + rewrite list_lookup_total_insert_ne by done.
      rewrite decide_False; [done | congruence].
  - rewrite list_lookup_total_insert_ne by done.
    rewrite decide_False; [done | congruence].
Qed.

Lemma upd_event_lengths t i f (T : list (list SeqEvent)) :
  length (upd_event t i f T) = length T ∧
  ∀ t', length (upd_event t i f T !!! t') = length (T !!! t').
Proof.
  unfold upd_event. split; [apply length_insert|].
  intros t'. destruct (decide (t = t')) as [<-|Hne].
  - destruct (decide (t < length T)%nat).
    + rewrite list_lookup_total_insert_eq by done. apply length_insert.
    + by rewrite list_insert_ge by lia.
  - by rewrite list_lookup_total_insert_ne.
Qed.

Lemma upd_event_same t i f (T : list (list SeqEvent)) :
  in_store T (t, i) → f ((T !!! t) !!! i) = (T !!! t) !!! i →
  upd_event t i f T = T.
Proof.
  intros [Ht Hi] Hf. cbn in Ht, Hi. unfold upd_event. rewrite Hf.
  apply list_insert_id. rewrite list_insert_id.
  - by apply list_lookup_lookup_total_lt.
  - by apply list_lookup_lookup_total_lt.
Qed.

Lemma in_store_upd_event t i f T p :
  in_store (upd_event t i f T) p ↔ in_store T p.
Proof.
  unfold in_store. destruct (upd_event_lengths t i f T) as [-> H].
  by rewrite H.
Qed.

Lemma upd_all_cons f p l (T : list (list SeqEvent)) :
  upd_all f (p :: l) T = upd_all f l (upd_event p.1 p.2 f T).
Proof. reflexivity. Qed.

Lemma upd_all_lengths f l (T : list (list SeqEvent)) :
  length (upd_all f l T) = length T ∧
  ∀ t', length (upd_all f l T !!! t') = length (T !!! t').
Proof.
  revert T. induction l as [|p l IH]; intros T; [done|].
  rewrite upd_all_cons. destruct (IH (upd_event p.1 p.2 f T)) as [-> H].
  destruct (upd_event_lengths p.1 p.2 f T) as [-> H'].
  split; [done|]. intros t'. by rewrite H, H'.
Qed.

Lemma upd_all_lookup_notin f l (T : list (list SeqEvent)) t i :
  Forall (in_store T) l → (t, i) ∉ l →
  (upd_all f l T !!! t) !!! i = (T !!! t) !!! i.
Proof.
  revert T. induction l as [|[t0 i0] l IH]; intros T Hin Hp; [done|].
  apply Forall_cons_1 in Hin as [Hp0 Hin].
  apply not_elem_of_cons in Hp as [Hne Hp].
  rewrite upd_all_cons. cbn [fst snd]. rewrite IH; [| |done].
  - rewrite upd_event_lookup by done. by rewrite decide_False.
  - eapply Forall_impl; [exact Hin|]. intros p. by rewrite in_store_upd_event.
Qed.

Lemma upd_all_lookup_in f l (T : list (list SeqEvent)) t i :
  Forall (in_store T) l → NoDup l → (t, i) ∈ l →
  (upd_all f l T !!! t) !!! i = f ((T !!! t) !!! i).
Proof.
  revert T. induction l as [|[t0 i0] l IH]; intros T Hin Hnd Hp.
  { by apply elem_of_nil in Hp. }
  apply Forall_cons_1 in Hin as [Hp0 Hin].
  pose proof (NoDup_cons_1_1 _ _ Hnd) as Hnotin.
  apply NoDup_cons_1_2 in Hnd.
  assert (Hin' : Forall (in_store (upd_event t0 i0 f T)) l).
  { eapply Forall_impl; [exact Hin|]. intros p. by rewrite in_store_upd_event. }
  rewrite upd_all_cons. cbn [fst snd]. apply elem_of_cons in Hp as [Heq|Hp].
  - inversion Heq; subst. rewrite upd_all_lookup_notin by done.
    rewrite upd_event_lookup by done. by rewrite decide_True.
  - rewrite IH by done. rewrite upd_event_lookup by done.
    rewrite decide_False; [done|]. intros Heq. by rewrite Heq in Hnotin.
Qed.

Lemma update_event_run now pos t i s :
  in_store (tracks s) (t, i) →
  update_event now pos t i s =
    (tt,
     set_tracks (upd_event t i (flag_step pos))
       (state_of (if fires pos (event_at s t i)
                  then fireEvent now (event_at s t i) s else (tt, s, []))),
     sent (if fires pos (event_at s t i)
           then fireEvent now (event_at s t i) s else (tt, s, []))).
Proof.
  intros Hin. unfold update_event. mrun.
  destruct (fires pos (event_at s t i)) eqn:Hf.
  - mrun. rewrite app_nil_r. apply f_equal2; [|done]. f_equal.
    apply set_tracks_ext. unfold upd_event, flag_step.
    rewrite (ds_tracks _ _ (fireEvent_device_step now (event_at s t i) s)).
    fold (event_at s t i). by rewrite Hf.
  - destruct (rearms pos (event_at s t i)) eqn:Hr; mrun.
    + apply f_equal2; [|done]. f_equal. apply set_tracks_ext.
      unfold upd_event, flag_step. fold (event_at s t i). by rewrite Hf, Hr.
    + rewrite set_tracks_same; [done|]. apply upd_event_same; [done|].
      fold (event_at s t i). unfold flag_step. by rewrite Hf, Hr.
Qed.

Lemma update_event_count now pos t i s :
  trackEventCount (state_of (update_event now pos t i s)) = trackEventCount s.
Proof.
  unfold update_event. mrun.
  destruct (fires pos (event_at s t i)).
  - mrun. cbn.
    apply (ds_count _ _ (fireEvent_device_step now (event_at s t i) s)).
  - by destruct (rearms pos (event_at s t i)).
Qed.

Lemma firing_cons pos s p l :
  firing pos s (p :: l) =
    if fires pos (event_at s p.1 p.2)
    then event_at s p.1 p.2 :: firing pos s l else firing pos s l.
Proof.
  unfold firing, fired_places. cbn [List.filter].
  by destruct (fires pos (event_at s p.1 p.2)).
Qed.

Lemma fired_places_ext pos s s' (l : list (nat * nat)) :
  (∀ p, p ∈ l → event_at s' p.1 p.2 = event_at s p.1 p.2) →
  fired_places pos s' l = fired_places pos s l.
Proof.
  intros H. unfold fired_places. induction l as [|p l IH]; [done|].
  cbn [List.filter]. rewrite H by (apply elem_of_cons; by left).
  rewrite IH; [done|]. intros q Hq. apply H. apply elem_of_cons. by right.
Qed.

Lemma fired_places_sub pos s l p :
  p ∈ fired_places pos s l ↔ p ∈ l ∧ fires pos (event_at s p.1 p.2) = true.
Proof.
  unfold fired_places. rewrite !list_elem_of_In. apply filter_In.
Qed.

Lemma map_event_at_ext s s' (l : list (nat * nat)) :
  (∀ p, p ∈ l → event_at s' p.1 p.2 = event_at s p.1 p.2) →
  map (λ p, event_at s' p.1 p.2) l = map (λ p, event_at s p.1 p.2) l.
Proof.
  intros H. apply map_ext_in. intros p Hp. apply H. by apply list_elem_of_In.
Qed.

(** The loop body run over distinct places: the events that fire are
    decided by the flags before the loop, and every place gets its
    [flag_step]. *)
Lemma update_events_run now pos l s :
  NoDup l → Forall (in_store (tracks s)) l →
  for_ l (λ p, update_event now pos p.1 p.2) s =
    (tt,
     set_tracks (upd_all (flag_step pos) l)
       (state_of (for_ (firing pos s l) (fireEvent now) s)),
     sent (for_ (firing pos s l) (fireEvent now) s)).
Proof.
  revert s. induction l as [|[t i] l IH]; intros s Hnd Hin.
  - cbn. by rewrite set_tracks_same.
  - pose proof (NoDup_cons_1_1 _ _ Hnd) as Hnotin.
    apply NoDup_cons_1_2 in Hnd. apply Forall_cons_1 in Hin as [Hp Hin].
    rewrite for__cons. cbn [fst snd]. rewrite update_event_run by done.
    cbn [state_of sent fst snd].
    set (r0 := if fires pos (event_at s t i)
               then fireEvent now (event_at s t i) s else (tt, s, [])).
    assert (Hr0 : device_step s (state_of r0)).
    { subst r0. destruct (fires pos (event_at s t i));
        [apply fireEvent_device_step | apply device_step_refl]. }
    set (s1 := set_tracks (upd_event t i (flag_step pos)) (state_of r0)).
    assert (Hin1 : Forall (in_store (tracks s1)) l).
    { eapply Forall_impl; [exact Hin|]. intros p Hq. subst s1. cbn.
      rewrite in_store_upd_event. by rewrite (ds_tracks _ _ Hr0). }
    rewrite (IH s1 Hnd Hin1).
    assert (Hfl : firing pos s1 l = firing pos s l).
    { assert (Hev : ∀ p, p ∈ l → event_at s1 p.1 p.2 = event_at s p.1 p.2).
      { intros [t' i'] Hq. subst s1. unfold event_at. cbn.
        rewrite (ds_tracks _ _ Hr0), upd_event_lookup by done.
        rewrite decide_False; [done|]. intros Heq. by rewrite Heq in Hnotin. }
      unfold firing. rewrite (fired_places_ext _ _ _ _ Hev).
      apply map_event_at_ext. intros p Hq. apply Hev.
      by apply fired_places_sub in Hq as [Hq _]. }
    rewrite Hfl. subst s1.
    rewrite fire_all_set_tracks.
    cbn [state_of sent fst snd].
    rewrite firing_cons. cbn [fst snd]. subst r0.
    destruct (fires pos (event_at s t i)).
    + by rewrite for__cons.
    + done.
Qed.

Lemma for__map {I J} (g : I → J) (l : list I) (body : J → M unit) s :
  for_ (map g l) body s = for_ l (λ i, body (g i)) s.
Proof.
  revert s. induction l as [|i l IH]; intros s; [done|].
  cbn [map]. by rewrite !for__cons, IH.
Qed.

Lemma for__ext_in {I} (l : list I) (b1 b2 : I → M unit) s :
  (∀ i s, i ∈ l → b1 i s = b2 i s) → for_ l b1 s = for_ l b2 s.
Proof.
  revert s. induction l as [|i l IH]; intros s H; [done|].
  rewrite !for__cons, H by (apply elem_of_cons; by left).
  rewrite IH; [done|]. intros j s' Hj. apply H. apply elem_of_cons. by right.
Qed.

Lemma places_cons s t ts :
  places s (t :: ts) = map (pair t) (seq 0 (count_at s t)) ++ places s ts.
Proof. reflexivity. Qed.

Lemma places_count_ext s s' ts :
  trackEventCount s' = trackEventCount s → places s' ts = places s ts.
Proof. unfold places, count_at. by intros ->. Qed.

Lemma elem_of_places s ts t i :
  (t, i) ∈ places s ts ↔ t ∈ ts ∧ (i < count_at s t)%nat.
Proof.
  induction ts as [|t0 ts IH].
  - cbn. rewrite !elem_of_nil. tauto.
  - rewrite places_cons, elem_of_app, IH, elem_of_cons.
    rewrite list_elem_of_fmap. split.
    + intros [(j & Heq & Hj)|[? ?]]; [|tauto].
      inversion Heq; subst. apply elem_of_seq in Hj. split; [by left | lia].
    + intros [[->|Ht] Hi]; [left | tauto].
      exists i. split; [done|]. apply elem_of_seq. lia.
Qed.

Lemma NoDup_places s ts : NoDup ts → NoDup (places s ts).
Proof.
  induction ts as [|t0 ts IH]; intros Hnd; [constructor|].
  rewrite places_cons. apply NoDup_app. split; [|split].
  - apply (NoDup_fmap_2 (pair t0)), NoDup_seq.
  - intros [t i] (j & Heq & _)%list_elem_of_fmap Hin.
    inversion Heq; subst. apply elem_of_places in Hin as [Hin _].
    by apply NoDup_cons_1_1 in Hnd.
  - apply IH. by apply NoDup_cons_1_2 in Hnd.
Qed.

(** Two nested loops, the inner one bounded by [trackEventCount[t]],
    visit the places in use, provided the body leaves the counts alone. *)
Lemma nested_for_places (B : nat → nat → M unit) ts s :
  (∀ t i s, trackEventCount (state_of (B t i s)) = trackEventCount s) →
  for_ ts (λ t, cnt ← gets (λ s, count_at s t); for_ (seq 0 cnt) (B t)) s =
  for_ (places s ts) (λ p, B p.1 p.2) s.
Proof.
  intros HB.
  assert (Hfor : ∀ t l s,
    trackEventCount (state_of (for_ l (B t) s)) = trackEventCount s).
  { intros t l. induction l as [|i l IH]; intros s'; [done|].
    rewrite for__cons. cbn. by rewrite IH, HB. }
  revert s. induction ts as [|t ts IH]; intros s; [done|].
  rewrite places_cons, for__app, for__cons, for__map. mrun.
  rewrite IH. by rewrite (places_count_ext _ _ _ (Hfor _ _ _)).
Qed.

(** ** Well-formedness *)

Lemma wf_in_store s t i :
  wf s → (t < SEQ_MAX_TRACKS)%nat → (i < count_at s t)%nat →
  in_store (tracks s) (t, i).
Proof.
  intros [Hsh Hc] Ht Hi. split; cbn.
  - by rewrite (shape_tracks _ Hsh).
  - rewrite (shape_events _ Hsh) by done. specialize (Hc t Ht). lia.
Qed.

Lemma elem_of_stored_places s t i :
  (t, i) ∈ stored_places s ↔ (t < SEQ_MAX_TRACKS)%nat ∧ (i < count_at s t)%nat.
Proof. unfold stored_places. rewrite elem_of_places, elem_of_seq. lia. Qed.

Lemma NoDup_stored_places s : NoDup (stored_places s).
Proof. apply NoDup_places, NoDup_seq. Qed.

Lemma wf_stored_places s : wf s → Forall (in_store (tracks s)) (stored_places s).
Proof.
  intros Hwf. apply Forall_forall. intros [t i] [Ht Hi]%elem_of_stored_places.
  by apply wf_in_store.
Qed.

Lemma wf_device_step s s' : device_step s s' → wf s → wf s'.
Proof.
  intros Hds [[] Hc]. destruct Hds. split; [split|]; try congruence.
  - intros t Ht. rewrite ds_tracks0. auto.
  - intros t Ht. unfold count_at. rewrite ds_count0. by apply Hc.
Qed.

Lemma wf_set_voices f s :
  length (f (voices s)) = length (voices s) → wf s → wf (set_voices f s).
Proof. intros Hlen [[] Hc]. split; [split|]; cbn; try done. congruence. Qed.

Lemma wf_set_tracks_upd_all f l s : wf s → wf (set_tracks (upd_all f l) s).
Proof.
  intros [[] Hc]. destruct (upd_all_lengths f l (tracks s)) as [H1 H2].
  split; [split|]; cbn; try done; [congruence|].
  intros t Ht. rewrite H2. auto.
Qed.

(** ** [update()] in closed form *)

Lemma update_tracks_run now pos s :
  wf s →
  update_tracks now pos s =
    (tt,
     set_tracks (upd_all (flag_step pos) (stored_places s))
       (state_of (for_ (firing pos s (stored_places s)) (fireEvent now) s)),
     sent (for_ (firing pos s (stored_places s)) (fireEvent now) s)).
Proof.
  intros Hwf. unfold update_tracks.
  rewrite (nested_for_places (update_event now pos))
    by (intros; apply update_event_count).
  apply update_events_run; [apply NoDup_stored_places | by apply wf_stored_places].
Qed.

Lemma wf_expired now s : wf s → wf (expired now s).
Proof. apply wf_set_voices. by rewrite length_map. Qed.

Lemma posInPattern_set_voices now f s :
  posInPattern now (set_voices f s) = posInPattern now s.
Proof. reflexivity. Qed.

Lemma sequencerRunning_set_voices f s :
  sequencerRunning (set_voices f s) = sequencerRunning s.
Proof. reflexivity. Qed.

Lemma update_run now s :
  wf s →
  update now s =
    if sequencerRunning s
    then (tt,
          state_of (update_tracks now (posInPattern now s) (expired now s)),
          flat_map (expiry_bytes now) (voices s) ++
          sent (update_tracks now (posInPattern now s) (expired now s)))
    else (tt, expired now s, flat_map (expiry_bytes now) (voices s)).
Proof.
  intros Hwf. unfold update, expired. rewrite bind_run.
  rewrite update_voices_run by apply Hwf.
  rewrite !state_of_run, !sent_run.
  rewrite bind_run, gets_run.
  rewrite !result_run, !state_of_run, !sent_run.
  rewrite sequencerRunning_set_voices.
  destruct (sequencerRunning s); cbn [negb].
  - rewrite bind_run, gets_run.
    rewrite !result_run, !state_of_run, !sent_run.
    by rewrite posInPattern_set_voices, result_tt.
  - rewrite mret_run.
    rewrite !state_of_run, !sent_run.
    by rewrite app_nil_r.
Qed.

Lemma stored_places_expired now s :
  stored_places (expired now s) = stored_places s.
Proof. reflexivity. Qed.

Lemma firing_expired now pos s l : firing pos (expired now s) l = firing pos s l.
Proof. reflexivity. Qed.

(** One call of [update()] while the sequencer runs: the due voices are
    released, then the events that fire are played in scan order, and
    every stored event gets its [flag_step]. *)
Lemma update_running now s :
  wf s → sequencerRunning s = true →
  update now s =
    (tt,
     set_tracks (upd_all (flag_step (posInPattern now s)) (stored_places s))
       (state_of (for_ (firing (posInPattern now s) s (stored_places s))
                    (fireEvent now) (expired now s))),
     flat_map (expiry_bytes now) (voices s) ++
     sent (for_ (firing (posInPattern now s) s (stored_places s))
             (fireEvent now) (expired now s))).
Proof.
  intros Hwf Hrun. rewrite update_run, Hrun by done.
  rewrite update_tracks_run by by apply wf_expired.
  rewrite stored_places_expired, firing_expired. by mrun.
Qed.

Lemma update_stopped now s :
  wf s → sequencerRunning s = false →
  update now s = (tt, expired now s, flat_map (expiry_bytes now) (voices s)).
Proof. intros Hwf Hrun. by rewrite update_run, Hrun. Qed.

Lemma update_event_at now s t i :
  wf s → sequencerRunning s = true →
  event_at (state_of (update now s)) t i =
    if decide ((t, i) ∈ stored_places s)
    then flag_step (posInPattern now s) (event_at s t i)
    else event_at s t i.
Proof.
  intros Hwf Hrun. rewrite update_running by done. mrun.
  unfold event_at at 1. cbn [tracks set_tracks].
  rewrite (ds_tracks _ _ (fire_all_device_step now _ (expired now s))).
  change (tracks (expired now s)) with (tracks s).
  destruct (decide ((t, i) ∈ stored_places s)) as [Hin|Hin].
  - apply upd_all_lookup_in;
      [by apply wf_stored_places | apply NoDup_stored_places | done].
  - apply upd_all_lookup_notin; [by apply wf_stored_places | done].
Qed.

Lemma wf_update now s : wf s → wf (state_of (update now s)).
Proof.
  intros Hwf. rewrite update_run by done.
  destruct (sequencerRunning s); mrun; [|by apply wf_expired].
  rewrite update_tracks_run by by apply wf_expired. mrun.
  apply wf_set_tracks_upd_all.
  eapply wf_device_step; [apply fire_all_device_step | by apply wf_expired].
Qed.

(** *** The pattern length *)

Lemma longest_track_from (L : list Z) n :
  let m := foldl (λ pl t, if pl <? L !!! t then L !!! t else pl) 0 (seq 0 n) in
  0 ≤ m ∧ (∀ t, (t < n)%nat → L !!! t ≤ m) ∧
  (m = 0 ∨ ∃ t, (t < n)%nat ∧ L !!! t = m).
Proof.
  induction n as [|n IH]; cbn zeta.
  - cbn. split; [done|]. split; [intros; lia | by left].
  - rewrite seq_S, foldl_snoc. cbn zeta in IH. cbn [Nat.add].
    destruct IH as (Hpos & Hub & Hatt).
    destruct (Z.ltb_spec (foldl (λ pl t, if pl <? L !!! t then L !!! t else pl)
                            0 (seq 0 n)) (L !!! n)) as [Hlt|Hge].
    + split; [lia|]. split.
      * intros t Ht. destruct (decide (t = n)) as [->|Hne]; [lia|].
        specialize (Hub t ltac:(lia)). lia.
      * right. exists n. split; [lia | done].
    + split; [done|]. split.
      * intros t Ht. destruct (decide (t = n)) as [->|Hne]; [lia|].
        apply Hub. lia.
      * destruct Hatt as [?|(t & Ht & Heq)]; [by left|].
        right. exists t. split; [lia | done].
Qed.

(** ** Checking well-formedness by computation *)

Lemma forallb_lookup_total {A} `{!Inhabited A} (P : A → bool) (l : list A) i :
  forallb P l = true → (i < length l)%nat → P (l !!! i) = true.
Proof.
  intros HP Hi. rewrite forallb_forall in HP. apply HP.
  apply list_elem_of_In, list_elem_of_lookup. exists i.
  by apply list_lookup_lookup_total_lt.
Qed.

Lemma wfb_wf s : wfb s = true → wf s.
Proof.
  unfold wfb. rewrite !andb_true_iff, !Nat.eqb_eq.
  intros ((((((Ht & Hev) & Hc) & Hcb) & Hl) & Hv) & Hi).
  split; [split|]; try done.
  - intros t Hlt. apply Nat.eqb_eq.
    apply (forallb_lookup_total (λ trk, (length trk =? SEQ_MAX_EVENTS)%nat));
      [done | lia].
  - intros t Hlt. apply Nat.leb_le.
    apply (forallb_lookup_total (λ c, (c <=? SEQ_MAX_EVENTS)%nat));
      [done | lia].
Qed.

(** * Properties of [update()] *)

(** C3. In one call of [update()], every active reservation whose due
    time is at most [now] has its note-off sent and its slot released
    before any event is looked at: the bytes of the call are the
    note-offs of the due slots, in slot order, followed by what the
    event loop sends when it starts from the pool [expired now s], in
    which no slot is active and due.  The voice loop runs whether or not
    the sequencer is running; when it is stopped nothing else happens. *)
Theorem update_expiry_first now s :
  wf s →
  (∀ v, (v < SEQ_MAX_VOICES)%nat →
     voice_at (expired now s) v =
       (if active (voice_at s v) && (offTimeMs (voice_at s v) <=? now)
        then set_active false (voice_at s v) else voice_at s v) ∧
     active (voice_at (expired now s) v) &&
       (offTimeMs (voice_at (expired now s) v) <=? now) = false) ∧
  update now s =
    if sequencerRunning s
    then (tt,
          state_of (update_tracks now (posInPattern now s) (expired now s)),
          flat_map (expiry_bytes now) (voices s) ++
          sent (update_tracks now (posInPattern now s) (expired now s)))
    else (tt, expired now s, flat_map (expiry_bytes now) (voices s)).
Proof.
  intros Hwf. split; [|by apply update_run].
  intros v Hv.
  assert (Hlook : voice_at (expired now s) v = expire now (voice_at s v)).
  { unfold voice_at, expired. cbn [voices set_voices].
    apply list_lookup_total_correct. rewrite list_lookup_fmap.
    rewrite (list_lookup_lookup_total_lt (voices s) v); [done|].
    rewrite (shape_voices _ (wf_shape _ Hwf)). done. }
  rewrite Hlook. unfold expire, due.
  destruct (active (voice_at s v) && (offTimeMs (voice_at s v) <=? now))
    eqn:Hdue; [done|]. by rewrite Hdue.
Qed.

Lemma update_expiry_first_witness :
  wf song_at_250 ∧
  sent (update 1500 song_at_250) = [128; 60; 64; 128; 64; 64] ∧
  sent (update 1500 (state_of (stopSequencer song_at_250))) =
    [128; 60; 64; 128; 64; 64].
Proof.
  assert (Hwf : wf song_at_250) by (apply wfb_wf; vm_compute; reflexivity).
  assert (Hwf' : wf (state_of (stopSequencer song_at_250)))
    by (apply wfb_wf; vm_compute; reflexivity).
  split; [exact Hwf|]. split.
  - destruct (update_expiry_first 1500 song_at_250 Hwf) as [_ ->].
    vm_compute. reflexivity.
  - destruct (update_expiry_first 1500 _ Hwf') as [_ ->].
    vm_compute. reflexivity.
Defined.

(** C2. One call of [update()] while the sequencer runs visits the
    stored events in track order, then append order ([stored_places]).
    An event whose flag is clear and whose offset is at most the position
    is fired and its flag set; an event whose flag is set and whose
    offset is above the position has its flag cleared; any other event is
    left as it is.  The events that fire are played in the order of the
    scan, after the voice expiry, and nothing else in the object changes.
    Firing an event, in whatever state the scan has reached, sends the
    program change of its channel and instrument unless the cache holds
    that instrument already, then the note-on with its note and
    velocity; it records the instrument in the cache and reserves the
    first free voice slot for the note with due time
    (now + duration) mod 2^32, or no slot when all are busy; it changes
    nothing else. *)
Theorem update_event_rule now s :
  wf s → sequencerRunning s = true →
  let pos := posInPattern now s in
  let s' := state_of (update now s) in
  let fired := fired_places pos s (stored_places s) in
  (∀ t i, (t < SEQ_MAX_TRACKS)%nat → (i < count_at s t)%nat →
     let ev := event_at s t i in
     (played ev = false → timeOffsetMs ev ≤ pos →
        (t, i) ∈ fired ∧ event_at s' t i = set_played true ev) ∧
     (played ev = true → pos < timeOffsetMs ev →
        ((t, i) ∉ fired) ∧ event_at s' t i = set_played false ev) ∧
     (¬ (played ev = false ∧ timeOffsetMs ev ≤ pos) →
      ¬ (played ev = true ∧ pos < timeOffsetMs ev) →
        ((t, i) ∉ fired) ∧ event_at s' t i = ev)) ∧
  (∀ t i, ¬ ((t < SEQ_MAX_TRACKS)%nat ∧ (i < count_at s t)%nat) →
     ((t, i) ∉ fired) ∧ event_at s' t i = event_at s t i) ∧
  sent (update now s) =
    flat_map (expiry_bytes now) (voices s) ++
    sent (for_ (map (λ p, event_at s p.1 p.2) fired) (fireEvent now)
            (expired now s)) ∧
  s' = set_tracks (λ _, tracks s')
         (state_of (for_ (map (λ p, event_at s p.1 p.2) fired) (fireEvent now)
                      (expired now s))) ∧
  fired =
    List.filter (λ p, fires pos (event_at s p.1 p.2))
      (flat_map (λ t, map (pair t) (seq 0 (count_at s t)))
         (seq 0 SEQ_MAX_TRACKS)) ∧
  (∀ ev s0,
     let ch := Z.land (channel ev) 0x0F in
     let cached := lastChannelInstrument s0 !!! Z.to_nat ch in
     let s1 := state_of (fireEvent now ev s0) in
     sent (fireEvent now ev s0) =
       (if cached =? inst ev then [] else [Z.lor 0xC0 ch; inst ev]) ++
       [Z.lor 0x90 ch; note ev; velocity ev] ∧
     lastChannelInstrument s1 =
       (if cached =? inst ev then lastChannelInstrument s0
        else <[Z.to_nat ch := inst ev]> (lastChannelInstrument s0)) ∧
     (∀ v, (v < SEQ_MAX_VOICES)%nat →
        active (voice_at s0 v) = false →
        (∀ u, (u < v)%nat → active (voice_at s0 u) = true) →
        voices s1 =
          <[v := mkActiveVoice true (channel ev) (note ev)
                   (u32 (now + durationMs ev))]> (voices s0)) ∧
     ((∀ v, (v < SEQ_MAX_VOICES)%nat → active (voice_at s0 v) = true) →
        voices s1 = voices s0) ∧
     s1 = set_voices (λ _, voices s1)
            (set_lastChannelInstrument (λ _, lastChannelInstrument s1) s0)).
Proof.
  intros Hwf Hrun pos s' fired.
  assert (Hfire : ∀ ev s0,
     let ch := Z.land (channel ev) 0x0F in
     let cached := lastChannelInstrument s0 !!! Z.to_nat ch in
     let s1 := state_of (fireEvent now ev s0) in
     sent (fireEvent now ev s0) =
       (if cached =? inst ev then [] else [Z.lor 0xC0 ch; inst ev]) ++
       [Z.lor 0x90 ch; note ev; velocity ev] ∧
     lastChannelInstrument s1 =
       (if cached =? inst ev then lastChannelInstrument s0
        else <[Z.to_nat ch := inst ev]> (lastChannelInstrument s0)) ∧
     (∀ v, (v < SEQ_MAX_VOICES)%nat →
        active (voice_at s0 v) = false →
        (∀ u, (u < v)%nat → active (voice_at s0 u) = true) →
        voices s1 =
          <[v := mkActiveVoice true (channel ev) (note ev)
                   (u32 (now + durationMs ev))]> (voices s0)) ∧
     ((∀ v, (v < SEQ_MAX_VOICES)%nat → active (voice_at s0 v) = true) →
        voices s1 = voices s0) ∧
     s1 = set_voices (λ _, voices s1)
            (set_lastChannelInstrument (λ _, lastChannelInstrument s1) s0)).
  { intros ev s0. cbv zeta. rewrite fireEvent_run, state_of_run, sent_run.
    rewrite setInstrument_run.
    unfold programChange_bytes, noteOn_bytes, voice_at.
    destruct (lastChannelInstrument s0 !!! Z.to_nat (Z.land (channel ev) 0x0F)
              =? inst ev);
      rewrite state_of_run, sent_run;
      (split_and!;
       [ reflexivity
       | reflexivity
       | intros v Hv Hfree Hbusy; cbn [voices set_voices
                                         set_lastChannelInstrument];
         apply (reserve_loop_first 0 SEQ_MAX_VOICES v);
           [lia | exact Hfree | intros u Hu; apply Hbusy; lia]
       | intros Hbusy; cbn [voices set_voices set_lastChannelInstrument];
         apply (reserve_loop_full 0 SEQ_MAX_VOICES);
           intros u Hu; apply Hbusy; lia
       | by destruct s0 ]). }
  assert (Hfired : ∀ t i, (t, i) ∈ fired ↔
            ((t < SEQ_MAX_TRACKS)%nat ∧ (i < count_at s t)%nat) ∧
            fires pos (event_at s t i) = true).
  { intros t i. subst fired. rewrite fired_places_sub.
    by rewrite elem_of_stored_places. }
  assert (Hat : ∀ t i, event_at s' t i =
            if decide ((t, i) ∈ stored_places s)
            then flag_step pos (event_at s t i) else event_at s t i).
  { intros t i. by apply update_event_at. }
  split; [|split; [|split; [|split; [|split; [done|exact Hfire]]]]].
  - intros t i Ht Hi ev.
    assert (Hin : (t, i) ∈ stored_places s) by by apply elem_of_stored_places.
    specialize (Hat t i). rewrite decide_True in Hat by done.
    fold ev in Hat. rewrite Hat, Hfired. fold ev.
    unfold flag_step, fires, rearms.
    destruct (played ev) eqn:Hpl; cbn [negb andb];
      destruct (Z.leb_spec (timeOffsetMs ev) pos);
      destruct (Z.ltb_spec pos (timeOffsetMs ev)); try lia;
      repeat split; try done; try lia; try tauto;
      try (intros [_ ?]; done); by destruct ev.
  - intros t i Hout.
    assert (Hnin : (t, i) ∉ stored_places s) by by rewrite elem_of_stored_places.
    specialize (Hat t i). rewrite decide_False in Hat by done.
    split; [|done]. rewrite Hfired. tauto.
  - unfold s'. rewrite update_running by done. by mrun.
  - unfold s'. rewrite update_running by done. by mrun.
Qed.

Lemma update_event_rule_witness :
  wf song_at_0 ∧ sequencerRunning song_at_0 = true ∧
  event_at (state_of (update 1250 song_at_0)) 0 0 = event_at song_at_0 0 0 ∧
  event_at (state_of (update 1250 song_at_0)) 0 1 =
    set_played true (event_at song_at_0 0 1) ∧
  sent (update 1250 song_at_0) = [144; 64; 100] ∧
  sent (fireEvent 1000 (mkSeqEvent 0 0 0 60 100 500 false) song_started) =
    [192; 0; 144; 60; 100] ∧
  voices (state_of (fireEvent 1000 (mkSeqEvent 0 0 0 60 100 500 false)
                      song_started)) =
    <[0%nat := mkActiveVoice true 0 60 1500]> (voices song_started) ∧
  sent (fireEvent 1250 (mkSeqEvent 250 0 0 64 100 250 false) song_at_0) =
    [144; 64; 100] ∧
  voices (state_of (fireEvent 1250 (mkSeqEvent 250 0 0 64 100 250 false)
                      song_at_0)) =
    <[1%nat := mkActiveVoice true 0 64 1500]> (voices song_at_0).
Proof.
  assert (Hwf : wf song_at_0) by (apply wfb_wf; vm_compute; reflexivity).
  assert (Hrun : sequencerRunning song_at_0 = true) by (vm_compute; reflexivity).
  split; [exact Hwf|]. split; [exact Hrun|].
  destruct (update_event_rule 1250 song_at_0 Hwf Hrun)
    as (Hev & _ & Hsent & _ & _ & Hfire).
  destruct (update_event_rule 1000 song_at_0 Hwf Hrun)
    as (_ & _ & _ & _ & _ & Hfire0).
  destruct (Hfire0 (mkSeqEvent 0 0 0 60 100 500 false) song_started)
    as (Hb0 & _ & Hv0 & _).
  destruct (Hfire (mkSeqEvent 250 0 0 64 100 250 false) song_at_0)
    as (Hb1 & _ & Hv1 & _).
  split_and!.
  - destruct (Hev 0%nat 0%nat) as (_ & _ & H3);
      [vm_compute; lia | vm_compute; lia |].
    apply H3; vm_compute; intros [? ?]; done.
  - destruct (Hev 0%nat 1%nat) as (H1 & _ & _);
      [vm_compute; lia | vm_compute; lia |].
    apply H1; [vm_compute; reflexivity | vm_compute; congruence].
  - rewrite Hsent. vm_compute. reflexivity.
  - rewrite Hb0. vm_compute. reflexivity.
  - rewrite (Hv0 0%nat); [vm_compute; reflexivity | vm_compute; lia
                         | vm_compute; reflexivity | intros; lia].
  - rewrite Hb1. vm_compute. reflexivity.
  - rewrite (Hv1 1%nat); [vm_compute; reflexivity | vm_compute; lia
                         | vm_compute; reflexivity |].
    intros u Hu. assert (u = 0%nat) as -> by lia. vm_compute. reflexivity.
Defined.

(** C9. The length [update()] divides by is never zero: it is
    [globalLoopMs] when that is positive, otherwise the longest of the
    track lengths, replaced by 1 when that is 0; the position computed
    from it lies in [0, patternLength). *)
Theorem patternLength_guarded now s :
  (∀ t, (t < SEQ_MAX_TRACKS)%nat → 0 ≤ trackLoopLengthMs s !!! t) →
  ∃ m,
    (∀ t, (t < SEQ_MAX_TRACKS)%nat → trackLoopLengthMs s !!! t ≤ m) ∧
    (∃ t, (t < SEQ_MAX_TRACKS)%nat ∧ trackLoopLengthMs s !!! t = m) ∧
    patternLength s =
      (if 0 <? globalLoopMs s then globalLoopMs s
       else if m =? 0 then 1 else m) ∧
    patternLength s ≠ 0 ∧
    0 ≤ posInPattern now s < patternLength s.
Proof.
  intros Hnn. exists (longest_track s).
  destruct (longest_track_from (trackLoopLengthMs s) SEQ_MAX_TRACKS)
    as (Hpos & Hub & Hatt).
  fold (longest_track s) in Hpos, Hub, Hatt.
  assert (Hlen : 0 < patternLength s).
  { unfold patternLength. destruct (Z.ltb_spec 0 (globalLoopMs s)); [done|].
    cbn zeta. destruct (Z.eqb_spec (longest_track s) 0); lia. }
  split; [done|]. split; [|split; [done|split; [lia|]]].
  - destruct Hatt as [H0|?]; [|done].
    exists 0%nat. split; [unfold SEQ_MAX_TRACKS; lia|].
    specialize (Hub 0%nat ltac:(unfold SEQ_MAX_TRACKS; lia)).
    specialize (Hnn 0%nat ltac:(unfold SEQ_MAX_TRACKS; lia)). lia.
  - unfold posInPattern. by apply Z.mod_pos_bound.
Qed.

Lemma patternLength_guarded_witness :
  (∀ t, (t < SEQ_MAX_TRACKS)%nat → 0 ≤ trackLoopLengthMs song_started !!! t) ∧
  patternLength song_started ≠ 0 ∧
  0 ≤ posInPattern 1750 song_started < patternLength song_started.
Proof.
  assert (Hnn : ∀ t, (t < SEQ_MAX_TRACKS)%nat →
            0 ≤ trackLoopLengthMs song_started !!! t).
  { intros t Ht. apply Z.leb_le.
    apply (forallb_lookup_total (λ l, 0 <=? l));
      [vm_compute; reflexivity | vm_compute; exact Ht]. }
  split; [exact Hnn|].
  destruct (patternLength_guarded 1750 song_started Hnn)
    as (m & _ & _ & _ & Hnz & Hpos).
  exact (conj Hnz Hpos).
Defined.

(** C10. While the sequencer runs, an event whose offset is at least the
    pattern length is not fired by [update()], at whatever time it is
    called: the guard of the loop fails for it because the position is
    below the pattern length, its place is not among those played, and
    its flag is clear after the call. *)
Theorem late_event_never_fires now s t i :
  wf s → sequencerRunning s = true →
  (t < SEQ_MAX_TRACKS)%nat → (i < count_at s t)%nat →
  patternLength s ≤ timeOffsetMs (event_at s t i) →
  posInPattern now s < patternLength s ∧
  fires (posInPattern now s) (event_at s t i) = false ∧
  ((t, i) ∉ fired_places (posInPattern now s) s (stored_places s)) ∧
  sent (update now s) =
    flat_map (expiry_bytes now) (voices s) ++
    sent (for_ (map (λ p, event_at s p.1 p.2)
                  (fired_places (posInPattern now s) s (stored_places s)))
            (fireEvent now) (expired now s)) ∧
  played (event_at (state_of (update now s)) t i) = false.
Proof.
  intros Hwf Hrun Ht Hi Hlate.
  assert (Hlen : 0 < patternLength s).
  { unfold patternLength. destruct (Z.ltb_spec 0 (globalLoopMs s)); [done|].
    cbn zeta. destruct (Z.eqb_spec (longest_track s) 0); [lia|].
    destruct (longest_track_from (trackLoopLengthMs s) SEQ_MAX_TRACKS)
      as (Hpos & _). fold (longest_track s) in Hpos. lia. }
  assert (Hpos : 0 ≤ posInPattern now s < patternLength s).
  { unfold posInPattern. by apply Z.mod_pos_bound. }
  assert (Hf : fires (posInPattern now s) (event_at s t i) = false).
  { unfold fires. destruct (Z.leb_spec (timeOffsetMs (event_at s t i))
                              (posInPattern now s)); [lia|].
    apply andb_false_r. }
  split; [lia|]. split; [done|]. split; [|split].
  - rewrite fired_places_sub. cbn [fst snd]. rewrite Hf. by intros [_ ?].
  - rewrite update_running by done. by mrun.
  - rewrite update_event_at by done.
    rewrite decide_True by by apply elem_of_stored_places.
    unfold flag_step. rewrite Hf. unfold rearms.
    destruct (played (event_at s t i)) eqn:Hpl; cbn [andb]; [|done].
    destruct (Z.ltb_spec (posInPattern now s)
                (timeOffsetMs (event_at s t i))); [done | lia].
Qed.

Lemma late_event_never_fires_witness :
  wf song_short_loop ∧
  patternLength song_short_loop ≤ timeOffsetMs (event_at song_short_loop 0 1) ∧
  played (event_at (state_of (update 1250 song_short_loop)) 0 1) = false.
Proof.
  assert (Hwf : wf song_short_loop) by (apply wfb_wf; vm_compute; reflexivity).
  assert (Hlate : patternLength song_short_loop ≤
                  timeOffsetMs (event_at song_short_loop 0 1))
    by (vm_compute; congruence).
  split; [exact Hwf|]. split; [exact Hlate|].
  apply (late_event_never_fires 1250 song_short_loop 0 1 Hwf);
    [vm_compute; reflexivity | vm_compute; lia | vm_compute; lia | exact Hlate].
Defined.

(** * The one-event scenario *)

(** An event at offset 0 whose flag is set keeps it: no position is
    below its offset, so the loop never clears the flag and the event is
    not fired again. *)
Lemma offset_zero_stays_played now s t i :
  wf s → sequencerRunning s = true →
  (t < SEQ_MAX_TRACKS)%nat → (i < count_at s t)%nat →
  timeOffsetMs (event_at s t i) = 0 → played (event_at s t i) = true →
  ((t, i) ∉ fired_places (posInPattern now s) s (stored_places s)) ∧
  event_at (state_of (update now s)) t i = event_at s t i.
Proof.
  intros Hwf Hrun Ht Hi Hoff Hpl.
  assert (Hf : fires (posInPattern now s) (event_at s t i) = false).
  { unfold fires. by rewrite Hpl. }
  split.
  - rewrite fired_places_sub. cbn [fst snd]. rewrite Hf. by intros [_ ?].
  - rewrite update_event_at by done.
    rewrite decide_True by by apply elem_of_stored_places.
    unfold flag_step. rewrite Hf. unfold rearms. rewrite Hpl, Hoff. cbn [andb].
    assert (0 ≤ posInPattern now s); [|by destruct (Z.ltb_spec
                                          (posInPattern now s) 0); [lia|]].
    unfold posInPattern. apply Z.mod_pos_bound.
    unfold patternLength. destruct (Z.ltb_spec 0 (globalLoopMs s)); [done|].
    cbn zeta. destruct (Z.eqb_spec (longest_track s) 0); [lia|].
    destruct (longest_track_from (trackLoopLengthMs s) SEQ_MAX_TRACKS)
      as (Hpos & _). fold (longest_track s) in Hpos. lia.
Qed.

(** C1, as the code runs it.  The call at elapsed time 0 sends the
    program change and the note-on, the call at 50 sends nothing, and the
    call at 200, position 0 of the next cycle, sends the pending note-off
    only: the event is not fired again and its flag is still set. *)
Theorem single_event_second_cycle :
  sent (update 1000 single_started) =
    programChange_bytes 0 0 ++ noteOn_bytes 0 60 100 ∧
  sent (update 1050 (state_of (update 1000 single_started))) = [] ∧
  posInPattern 1200
    (state_of (update 1050 (state_of (update 1000 single_started)))) = 0 ∧
  sent (update 1200
          (state_of (update 1050 (state_of (update 1000 single_started))))) =
    noteOff_bytes 0 60 ∧
  played (event_at
            (state_of (update 1200
               (state_of (update 1050 (state_of (update 1000 single_started))))))
            0 0) = true.
Proof. vm_compute. repeat split; reflexivity. Qed.

(** * The voice pool *)

(** C4, amended. [scheduleVoiceOff] takes the first free slot of the
    32: when slot [v] is free and every slot before it is busy, slot [v]
    becomes an active reservation with the given channel, note and due
    time and nothing else changes.  When all 32 slots are busy the
    object is left exactly as it was, nothing is sent, and the
    reservations already held are released by [update()] as before.
    The reservation is made by [playNoteAsync], in both its forms, and
    by the sequencer for an event it fires, with due time
    (now + duration) mod 2^32; the bare [noteOn] makes none: it leaves
    the object as it was. *)
Theorem scheduleVoiceOff_first_fit ch nt off s :
  length (voices s) = SEQ_MAX_VOICES →
  (∀ v, (v < SEQ_MAX_VOICES)%nat →
     active (voice_at s v) = false →
     (∀ u, (u < v)%nat → active (voice_at s u) = true) →
     scheduleVoiceOff ch nt off s =
       (tt, set_voices <[v := mkActiveVoice true ch nt off]> s, []) ∧
     voice_at (state_of (scheduleVoiceOff ch nt off s)) v =
       mkActiveVoice true ch nt off ∧
     ∀ u, u ≠ v →
       voice_at (state_of (scheduleVoiceOff ch nt off s)) u = voice_at s u) ∧
  ((∀ v, (v < SEQ_MAX_VOICES)%nat → active (voice_at s v) = true) →
     scheduleVoiceOff ch nt off s = (tt, s, []) ∧
     ∀ now,
       update_voices now (state_of (scheduleVoiceOff ch nt off s)) =
         (tt, set_voices (map (expire now)) s,
          flat_map (expiry_bytes now) (voices s))) ∧
  (∀ now instr dur vel,
     voices (state_of (playNoteAsync now ch instr nt dur vel s)) =
       voices (state_of (scheduleVoiceOff ch nt (u32 (now + dur)) s)) ∧
     voices (state_of (playNoteAsync_note now ch nt dur vel s)) =
       voices (state_of (scheduleVoiceOff ch nt (u32 (now + dur)) s))) ∧
  (∀ now ev,
     voices (state_of (fireEvent now ev s)) =
       voices (state_of (scheduleVoiceOff (channel ev) (note ev)
                           (u32 (now + durationMs ev)) s))) ∧
  (∀ vel, state_of (noteOn ch nt vel s) = s).
Proof.
  intros Hlen.
  assert (Hfire : ∀ now ev,
     voices (state_of (fireEvent now ev s)) =
       voices (state_of (scheduleVoiceOff (channel ev) (note ev)
                           (u32 (now + durationMs ev)) s))).
  { intros now ev.
    rewrite fireEvent_run, scheduleVoiceOff_run, !state_of_run.
    rewrite setInstrument_run.
    by destruct (lastChannelInstrument s !!! _ =? inst ev). }
  split; [|split; [|split; [|split]]]; [| |
    intros now instr dur vel; split;
      [exact (Hfire now (mkSeqEvent 0 ch instr nt vel dur false))
      | unfold playNoteAsync_note; mrun; rewrite noteOn_run; mrun;
        rewrite !scheduleVoiceOff_run; by mrun]
    | exact Hfire
    | intros vel; by rewrite noteOn_run ].
  - intros v Hv Hfree Hbusy.
    assert (Hrun : scheduleVoiceOff ch nt off s =
              (tt, set_voices <[v := mkActiveVoice true ch nt off]> s, [])).
    { rewrite scheduleVoiceOff_run. apply f_equal2; [|done]. f_equal.
      apply set_voices_ext. apply reserve_loop_first; [lia|done|].
      intros u Hu. apply Hbusy. lia. }
    split; [done|]. rewrite Hrun. mrun. unfold voice_at. cbn [voices set_voices].
    split.
    + apply list_lookup_total_insert_eq. lia.
    + intros u Hu. by apply list_lookup_total_insert_ne.
  - intros Hbusy.
    assert (Hrun : scheduleVoiceOff ch nt off s = (tt, s, [])).
    { rewrite scheduleVoiceOff_run. apply f_equal2; [|done]. f_equal.
      apply set_voices_same. apply reserve_loop_full.
      intros u Hu. apply Hbusy. lia. }
    split; [done|]. intros now. rewrite Hrun. mrun.
    by apply update_voices_run.
Qed.

Lemma scheduleVoiceOff_first_fit_witness :
  scheduleVoiceOff 1 64 1500 fresh =
    (tt, set_voices <[0%nat := mkActiveVoice true 1 64 1500]> fresh, []) ∧
  scheduleVoiceOff 1 64 1500 full_pool = (tt, full_pool, []) ∧
  voices (state_of (playNoteAsync 1000 1 40 64 500 110 fresh)) =
    <[0%nat := mkActiveVoice true 1 64 1500]> (voices fresh) ∧
  state_of (noteOn 1 64 100 fresh) = fresh.
Proof.
  assert (Hlen1 : length (voices fresh) = SEQ_MAX_VOICES)
    by (vm_compute; reflexivity).
  assert (Hlen2 : length (voices full_pool) = SEQ_MAX_VOICES)
    by (vm_compute; reflexivity).
  split_and!.
  - destruct (scheduleVoiceOff_first_fit 1 64 1500 fresh Hlen1) as [Hfree _].
    destruct (Hfree 0%nat) as [Hrun _];
      [vm_compute; lia | vm_compute; reflexivity | intros; lia |].
    exact Hrun.
  - destruct (scheduleVoiceOff_first_fit 1 64 1500 full_pool Hlen2)
      as (_ & Hfull & _).
    destruct Hfull as [Hrun _]; [|exact Hrun]. intros v Hv.
    apply (forallb_lookup_total active (voices full_pool));
      [vm_compute; reflexivity | rewrite Hlen2; exact Hv].
  - destruct (scheduleVoiceOff_first_fit 1 64 1500 fresh Hlen1)
      as (_ & _ & Hplay & _).
    destruct (Hplay 1000 40 500 110) as [Hp _].
    rewrite Hp. vm_compute. reflexivity.
  - destruct (scheduleVoiceOff_first_fit 1 64 1500 fresh Hlen1)
      as (_ & _ & _ & _ & Hon).
    exact (Hon 100).
Defined.

(** C4, as the claim states it, fails for an immediate note-on:
    [noteOn] sends its three bytes and reserves no voice, where
    [scheduleVoiceOff] would have taken slot 0; every slot is still
    free afterwards, so no later [update()] sends a note-off for the
    note. *)
Lemma noteOn_reserves_no_voice :
  noteOn 0 60 100 fresh = (tt, fresh, [144; 60; 100]) ∧
  forallb (λ v, negb (active v))
    (voices (state_of (noteOn 0 60 100 fresh))) = true ∧
  active (voice_at (state_of (scheduleVoiceOff 0 60 1500 fresh)) 0) = true ∧
  voices (state_of (noteOn 0 60 100 fresh)) ≠
    voices (state_of (scheduleVoiceOff 0 60 1500 fresh)) ∧
  sent (update 1500 (state_of (noteOn 0 60 100 fresh))) = [] ∧
  sent (update 4294967295 (state_of (noteOn 0 60 100 fresh))) = [].
Proof. vm_compute. repeat split; congruence. Qed.

(** * The instrument cache *)

(** C5. For a channel in 0..15 and an instrument in 0..127,
    [setInstrument] sends the program change exactly when the cached
    instrument of the channel differs from the requested one or is still
    the unset value 255, and then records the requested instrument; when
    it does not send, nothing changes.  The entries of the other channels
    are neither written nor read. *)
Theorem setInstrument_cache chan instr s :
  length (lastChannelInstrument s) = 16%nat →
  0 ≤ chan ≤ 15 → 0 ≤ instr ≤ 127 →
  let cached := lastChannelInstrument s !!! Z.to_nat chan in
  (cached ≠ instr ∨ cached = 255 →
     setInstrument chan instr s =
       (tt, set_lastChannelInstrument <[Z.to_nat chan := instr]> s,
        [Z.lor 0xC0 chan; instr])) ∧
  (¬ (cached ≠ instr ∨ cached = 255) →
     setInstrument chan instr s = (tt, s, [])) ∧
  lastChannelInstrument (state_of (setInstrument chan instr s))
    !!! Z.to_nat chan = instr ∧
  (∀ c, c ≠ Z.to_nat chan →
     lastChannelInstrument (state_of (setInstrument chan instr s)) !!! c =
     lastChannelInstrument s !!! c) ∧
  (∀ s2, lastChannelInstrument s2 !!! Z.to_nat chan = cached →
     sent (setInstrument chan instr s2) = sent (setInstrument chan instr s)).
Proof.
  intros Hlen Hchan Hinstr cached.
  assert (Hrun : ∀ s0, setInstrument chan instr s0 =
            if lastChannelInstrument s0 !!! Z.to_nat chan =? instr
            then (tt, s0, [])
            else (tt, set_lastChannelInstrument <[Z.to_nat chan := instr]> s0,
                  [Z.lor 0xC0 chan; instr])).
  { intros s0. rewrite setInstrument_run. unfold programChange_bytes.
    by rewrite low_nibble_id by lia. }
  split; [|split; [|split; [|split]]].
  - intros Hneq. rewrite Hrun. fold cached.
    destruct (Z.eqb_spec cached instr); [lia | done].
  - intros Heq. rewrite Hrun. fold cached.
    destruct (Z.eqb_spec cached instr); [done | tauto].
  - rewrite Hrun. fold cached.
    destruct (Z.eqb_spec cached instr); mrun; [done|].
    cbn [lastChannelInstrument set_lastChannelInstrument].
    apply list_lookup_total_insert_eq. lia.
  - intros c Hc. rewrite Hrun. fold cached.
    destruct (Z.eqb_spec cached instr); mrun; [done|].
    cbn [lastChannelInstrument set_lastChannelInstrument].
    by apply list_lookup_total_insert_ne.
  - intros s2 Hs2. rewrite !Hrun, Hs2. fold cached.
    by destruct (cached =? instr).
Qed.

Lemma setInstrument_cache_witness :
  sent (setInstrument 3 40 fresh) = [195; 40] ∧
  sent (setInstrument 3 40 (state_of (setInstrument 3 40 fresh))) = [] ∧
  sent (setInstrument 4 40 (state_of (setInstrument 3 40 fresh))) = [196; 40].
Proof.
  split; [|split].
  - destruct (setInstrument_cache 3 40 fresh) as (Hsend & _);
      [vm_compute; reflexivity | lia | lia |].
    rewrite Hsend; [vm_compute; reflexivity | vm_compute; right; reflexivity].
  - destruct (setInstrument_cache 3 40 (state_of (setInstrument 3 40 fresh)))
      as (_ & Hskip & _); [vm_compute; reflexivity | lia | lia |].
    rewrite Hskip; [vm_compute; reflexivity
                   | vm_compute; intros [?|?]; congruence].
  - destruct (setInstrument_cache 4 40 (state_of (setInstrument 3 40 fresh)))
      as (Hsend & _); [vm_compute; reflexivity | lia | lia |].
    rewrite Hsend; [vm_compute; reflexivity | vm_compute; right; reflexivity].
Defined.

(** * The pattern store *)

Lemma set_loop_same f s :
  f (trackLoopLengthMs s) = trackLoopLengthMs s → set_trackLoopLengthMs f s = s.
Proof. destruct s. unfold set_trackLoopLengthMs. cbn. by intros ->. Qed.

(** [addEvent] in closed form. *)
Lemma addEvent_run track offset chan instr nt vel dur s :
  (track < length (trackLoopLengthMs s))%nat →
  addEvent track offset chan instr nt vel dur s =
    if (SEQ_MAX_TRACKS <=? track)%nat then (false, s, [])
    else if (SEQ_MAX_EVENTS <=? count_at s track)%nat then (false, s, [])
    else (true,
          set_trackLoopLengthMs
            <[track := Z.max (trackLoopLengthMs s !!! track)
                             (u32 (offset + dur))]>
            (set_tracks
               (upd_event track (count_at s track)
                  (λ _, mkSeqEvent offset chan instr nt vel dur false))
               (set_trackEventCount <[track := S (count_at s track)]> s)),
          []).
Proof.
  intros Hlen. unfold addEvent.
  destruct (SEQ_MAX_TRACKS <=? track)%nat; [done|]. mrun.
  destruct (SEQ_MAX_EVENTS <=? count_at s track)%nat; [done|]. mrun.
  cbn [trackLoopLengthMs set_tracks set_trackEventCount].
  destruct (Z.ltb_spec (trackLoopLengthMs s !!! track) (u32 (offset + dur))).
  - mrun. by rewrite Z.max_r by lia.
  - mrun. rewrite Z.max_l by lia. rewrite set_loop_same; [done|].
    apply list_insert_id. by apply list_lookup_lookup_total_lt.
Qed.

Lemma addEvent_fail track offset chan instr nt vel dur s :
  (SEQ_MAX_TRACKS ≤ track ∨ SEQ_MAX_EVENTS ≤ count_at s track)%nat →
  addEvent track offset chan instr nt vel dur s = (false, s, []).
Proof.
  intros Hfail. unfold addEvent.
  destruct (Nat.leb_spec SEQ_MAX_TRACKS track); [done|]. mrun.
  destruct (Nat.leb_spec SEQ_MAX_EVENTS (count_at s track)); [done | lia].
Qed.

Lemma addEvent_ok track offset chan instr nt vel dur s :
  wf s →
  (track < SEQ_MAX_TRACKS)%nat → (count_at s track < SEQ_MAX_EVENTS)%nat →
  let r := addEvent track offset chan instr nt vel dur s in
  let s' := state_of r in
  result r = true ∧ sent r = [] ∧
  count_at s' track = S (count_at s track) ∧
  event_at s' track (count_at s track) =
    mkSeqEvent offset chan instr nt vel dur false ∧
  (∀ i, i ≠ count_at s track → event_at s' track i = event_at s track i) ∧
  (∀ t, t ≠ track →
     tracks s' !!! t = tracks s !!! t ∧ count_at s' t = count_at s t ∧
     trackLoopLengthMs s' !!! t = trackLoopLengthMs s !!! t) ∧
  voices s' = voices s ∧
  lastChannelInstrument s' = lastChannelInstrument s ∧
  sequencerRunning s' = sequencerRunning s ∧
  sequencerStartMs s' = sequencerStartMs s ∧
  globalLoopMs s' = globalLoopMs s ∧
  debug s' = debug s.
Proof.
  intros Hwf Ht Hc r s'. pose proof (wf_shape _ Hwf) as Hsh. subst s' r.
  rewrite addEvent_run by (rewrite (shape_loop _ Hsh); lia).
  destruct (Nat.leb_spec SEQ_MAX_TRACKS track); [lia|].
  destruct (Nat.leb_spec SEQ_MAX_EVENTS (count_at s track)); [lia|]. mrun.
  assert (Hin : in_store (tracks s) (track, count_at s track)).
  { split; cbn [fst snd]; [rewrite (shape_tracks _ Hsh); lia|].
    rewrite (shape_events _ Hsh) by done. lia. }
  unfold count_at, event_at.
  cbn [tracks trackEventCount trackLoopLengthMs voices lastChannelInstrument
       sequencerRunning sequencerStartMs globalLoopMs debug
       set_tracks set_trackEventCount set_trackLoopLengthMs].
  repeat split; try done.
  - apply list_lookup_total_insert_eq. rewrite (shape_count _ Hsh). lia.
  - rewrite upd_event_lookup by done. by rewrite decide_True.
  - intros i Hi. rewrite upd_event_lookup by done.
    rewrite decide_False; [done | congruence].
  - unfold upd_event. by rewrite list_lookup_total_insert_ne.
  - by rewrite list_lookup_total_insert_ne.
  - by rewrite list_lookup_total_insert_ne.
Qed.

(** C7. [addEvent] returns [false] and leaves the whole object as it was
    when the track index is 8 or more or the track already holds 128
    events.  Otherwise it returns [true], stores the event with a clear
    flag at the first unused place of the track and counts it; the other
    places of the track, the other tracks with their counts and lengths,
    the voice pool, the instrument cache and the run state are as they
    were, and nothing is sent. *)
Theorem addEvent_outcome track offset chan instr nt vel dur s :
  wf s →
  ((SEQ_MAX_TRACKS ≤ track ∨ SEQ_MAX_EVENTS ≤ count_at s track)%nat →
     addEvent track offset chan instr nt vel dur s = (false, s, [])) ∧
  ((track < SEQ_MAX_TRACKS)%nat → (count_at s track < SEQ_MAX_EVENTS)%nat →
     let r := addEvent track offset chan instr nt vel dur s in
     let s' := state_of r in
     result r = true ∧ sent r = [] ∧
     count_at s' track = S (count_at s track) ∧
     event_at s' track (count_at s track) =
       mkSeqEvent offset chan instr nt vel dur false ∧
     (∀ i, i ≠ count_at s track → event_at s' track i = event_at s track i) ∧
     (∀ t, t ≠ track →
        tracks s' !!! t = tracks s !!! t ∧ count_at s' t = count_at s t ∧
        trackLoopLengthMs s' !!! t = trackLoopLengthMs s !!! t) ∧
     voices s' = voices s ∧
     lastChannelInstrument s' = lastChannelInstrument s ∧
     sequencerRunning s' = sequencerRunning s ∧
     sequencerStartMs s' = sequencerStartMs s ∧
     globalLoopMs s' = globalLoopMs s ∧
     debug s' = debug s).
Proof.
  intros Hwf. split.
  - apply addEvent_fail.
  - intros Ht Hc. by apply addEvent_ok.
Qed.

Lemma addEvent_outcome_witness :
  wf fresh ∧
  addEvent 8 0 0 0 60 100 100 fresh = (false, fresh, []) ∧
  event_at (state_of (addEvent 0 0 0 0 60 100 500 fresh)) 0 0 =
    mkSeqEvent 0 0 0 60 100 500 false.
Proof.
  assert (Hwf : wf fresh) by (apply wfb_wf; vm_compute; reflexivity).
  destruct (addEvent_outcome 0 0 0 0 60 100 500 fresh Hwf) as [_ Hok].
  destruct (addEvent_outcome 8 0 0 0 60 100 100 fresh Hwf) as [Hfail _].
  split; [exact Hwf|]. split.
  - apply Hfail. left. vm_compute. lia.
  - destruct Hok as (_ & _ & _ & Hev & _);
      [vm_compute; lia | vm_compute; lia |].
    exact Hev.
Defined.

(** The flag loop of [startSequencer]. *)
Lemma modify_places_run f (l : list (nat * nat)) s :
  for_ l (λ p, modify (set_tracks (upd_event p.1 p.2 f))) s =
    (tt, set_tracks (upd_all f l) s, []).
Proof.
  revert s. induction l as [|p l IH]; intros s.
  - rewrite for__nil. by rewrite set_tracks_same.
  - rewrite for__cons, modify_run. mrun. by rewrite IH.
Qed.

Lemma startSequencer_run now loopMs s :
  startSequencer now loopMs s =
    (tt,
     set_tracks (upd_all (set_played false) (stored_places s))
       (set_globalLoopMs loopMs
          (set_sequencerRunning true (set_sequencerStartMs now s))),
     []).
Proof.
  unfold startSequencer. mrun.
  rewrite (nested_for_places
             (λ t i, modify (set_tracks (upd_event t i (set_played false)))))
    by done.
  by rewrite modify_places_run.
Qed.

(** C8. Whatever the state [startSequencer] is called in, afterwards the
    flag of every stored event is clear, the start time is the current
    time, the loop length is the one given and the sequencer runs.  The
    events are otherwise as they were, and so are the counts, the track
    lengths, the voice pool and the instrument cache. *)
Theorem startSequencer_resets now loopMs s :
  wf s →
  let s' := state_of (startSequencer now loopMs s) in
  (∀ t i, (t < SEQ_MAX_TRACKS)%nat → (i < count_at s t)%nat →
     played (event_at s' t i) = false ∧
     event_at s' t i = set_played false (event_at s t i)) ∧
  sequencerStartMs s' = now ∧
  globalLoopMs s' = loopMs ∧
  sequencerRunning s' = true ∧
  sent (startSequencer now loopMs s) = [] ∧
  trackEventCount s' = trackEventCount s ∧
  trackLoopLengthMs s' = trackLoopLengthMs s ∧
  voices s' = voices s ∧
  lastChannelInstrument s' = lastChannelInstrument s.
Proof.
  intros Hwf s'. subst s'. rewrite startSequencer_run. mrun.
  split; [|done].
  intros t i Ht Hi.
  assert (Heq : event_at
            (set_tracks (upd_all (set_played false) (stored_places s))
               (set_globalLoopMs loopMs
                  (set_sequencerRunning true (set_sequencerStartMs now s))))
            t i = set_played false (event_at s t i)).
  { unfold event_at. cbn [tracks set_tracks set_globalLoopMs
                          set_sequencerRunning set_sequencerStartMs].
    apply upd_all_lookup_in;
      [by apply wf_stored_places | apply NoDup_stored_places
       | by apply elem_of_stored_places]. }
  by rewrite Heq.
Qed.

Lemma startSequencer_resets_witness :
  wf song_at_250 ∧
  played (event_at song_at_250 0 0) = true ∧
  played (event_at (state_of (startSequencer 3000 200 song_at_250)) 0 0) = false.
Proof.
  assert (Hwf : wf song_at_250) by (apply wfb_wf; vm_compute; reflexivity).
  split; [exact Hwf|]. split; [vm_compute; reflexivity|].
  destruct (startSequencer_resets 3000 200 song_at_250 Hwf) as [Hev _].
  destruct (Hev 0%nat 0%nat) as [Hpl _]; [vm_compute; lia | vm_compute; lia |].
  exact Hpl.
Defined.

(** * Histories of calls *)

Lemma max_of_cons {A} (f : A → Z) x (l : list A) :
  max_of f (x :: l) = Z.max (f x) (max_of f l).
Proof. reflexivity. Qed.

Lemma max_of_ext {A} (f g : A → Z) (l : list A) :
  (∀ x, x ∈ l → f x = g x) → max_of f l = max_of g l.
Proof.
  induction l as [|x l IH]; intros H; [done|].
  rewrite !max_of_cons, H by (apply elem_of_cons; by left).
  rewrite IH; [done|]. intros y Hy. apply H. apply elem_of_cons. by right.
Qed.

Lemma max_of_snoc {A} (f : A → Z) (l : list A) x :
  max_of f (l ++ [x]) = Z.max (max_of f l) (f x).
Proof.
  induction l as [|y l IH].
  - cbn. lia.
  - rewrite <- app_comm_cons, !max_of_cons, IH. lia.
Qed.

Lemma max_of_nonneg {A} (f : A → Z) (l : list A) : 0 ≤ max_of f l.
Proof. induction l as [|y l IH]; [done|]. rewrite max_of_cons. lia. Qed.

Lemma max_of_map {A B} (f : B → Z) (g : A → B) (l : list A) :
  max_of f (map g l) = max_of (λ x, f (g x)) l.
Proof.
  induction l as [|y l IH]; [done|].
  cbn [map]. by rewrite !max_of_cons, IH.
Qed.

Lemma flags_step_derived s s' :
  flags_step s s' → loop_lengths_derived s → loop_lengths_derived s'.
Proof.
  intros [Hc Hl He] Hinv t Ht. unfold track_events, count_at.
  rewrite Hl, Hc, max_of_map.
  rewrite (max_of_ext _ (λ i, end_time (event_at s t i))) by (intros; apply He).
  rewrite <- max_of_map. by apply Hinv.
Qed.

Lemma flags_step_device s s' : device_step s s' → flags_step s s'.
Proof. intros []. split; [done..|]. intros t i. unfold event_at. congruence. Qed.

Lemma end_time_flag_step pos ev : end_time (flag_step pos ev) = end_time ev.
Proof.
  unfold flag_step. by destruct (fires pos ev), (rearms pos ev).
Qed.

Lemma flags_step_upd_all f l s :
  (∀ ev, end_time (f ev) = end_time ev) →
  Forall (in_store (tracks s)) l → NoDup l →
  flags_step s (set_tracks (upd_all f l) s).
Proof.
  intros Hf Hin Hnd. split; [done..|]. intros t i.
  unfold event_at. cbn [tracks set_tracks].
  destruct (decide ((t, i) ∈ l)).
  - rewrite upd_all_lookup_in by done. apply Hf.
  - by rewrite upd_all_lookup_notin.
Qed.

Lemma flags_step_trans s1 s2 s3 :
  flags_step s1 s2 → flags_step s2 s3 → flags_step s1 s3.
Proof.
  intros [] []. split; [congruence..|]. intros t i. congruence.
Qed.

Lemma store_kept_refl s : store_kept s s.
Proof. by split. Qed.

Lemma store_kept_device s s' : device_step s s' → store_kept s s'.
Proof. intros []. by split. Qed.

Lemma wf_store_kept s s' : store_kept s s' → wf s → wf s'.
Proof.
  intros [] [[] Hc]. split; [split|]; try congruence.
  - intros t Ht. rewrite sk_tracks0. auto.
  - intros t Ht. unfold count_at. rewrite sk_count0. by apply Hc.
Qed.

Lemma flags_step_store_kept s s' : store_kept s s' → flags_step s s'.
Proof. intros []. split; [done..|]. intros t i. unfold event_at. congruence. Qed.

Lemma sendMIDI_run data s : sendMIDI data s = (tt, s, [data]).
Proof. reflexivity. Qed.

Lemma talkMIDI_state cmd d1 d2 s : state_of (talkMIDI cmd d1 d2 s) = s.
Proof.
  unfold talkMIDI. rewrite !bind_run, !sendMIDI_run. mrun.
  by destruct (negb _).
Qed.

Lemma setInstrument_store_kept chan instr s :
  store_kept s (state_of (setInstrument chan instr s)).
Proof.
  rewrite setInstrument_run.
  destruct (lastChannelInstrument s !!! _ =? instr); mrun.
  - apply store_kept_refl.
  - split; try done. cbn. apply length_insert.
Qed.

Lemma playNoteAsync_store_kept now chan instr nt dur vel s :
  store_kept s (state_of (playNoteAsync now chan instr nt dur vel s)).
Proof.
  change (playNoteAsync now chan instr nt dur vel)
    with (fireEvent now (mkSeqEvent 0 chan instr nt vel dur false)).
  apply store_kept_device, fireEvent_device_step.
Qed.

Lemma playNoteAsync_note_store_kept now chan nt dur vel s :
  store_kept s (state_of (playNoteAsync_note now chan nt dur vel s)).
Proof.
  unfold playNoteAsync_note. rewrite bind_run, noteOn_run. mrun.
  rewrite scheduleVoiceOff_run. mrun.
  split; try done. cbn. apply length_reserve_loop.
Qed.

Lemma store_inv_kept s s' : store_kept s s' → store_inv s → store_inv s'.
Proof.
  intros Hk [Hwf Hinv]. split; [by eapply wf_store_kept|].
  eapply flags_step_derived; [by apply flags_step_store_kept | done].
Qed.

Lemma track_events_nil s t : count_at s t = 0%nat → track_events s t = [].
Proof. unfold track_events. by intros ->. Qed.

Lemma track_events_ext s s' t :
  count_at s' t = count_at s t →
  (∀ i, (i < count_at s t)%nat → event_at s' t i = event_at s t i) →
  track_events s' t = track_events s t.
Proof.
  intros Hc He. unfold track_events. rewrite Hc. apply map_ext_in.
  intros i Hi%in_seq. apply He. lia.
Qed.

Lemma clearTrack_inv track s : store_inv s → store_inv (state_of (clearTrack track s)).
Proof.
  intros [Hwf Hinv]. unfold clearTrack.
  destruct (Nat.leb_spec SEQ_MAX_TRACKS track); [done|]. mrun.
  pose proof (wf_shape _ Hwf) as Hsh. split.
  - destruct Hsh. split; [split|]; cbn; try done; rewrite ?length_insert; try done.
    intros t Ht. unfold count_at. cbn.
    destruct (decide (track = t)) as [->|Hne].
    + rewrite list_lookup_total_insert_eq by lia. lia.
    + rewrite list_lookup_total_insert_ne by done. by apply Hwf.
  - intros t Ht. cbn [trackLoopLengthMs set_trackLoopLengthMs set_trackEventCount].
    destruct (decide (track = t)) as [->|Hne].
    + rewrite list_lookup_total_insert_eq by (rewrite (shape_loop _ Hsh); lia).
      rewrite track_events_nil; [done|]. unfold count_at. cbn.
      apply list_lookup_total_insert_eq. rewrite (shape_count _ Hsh); lia.
    + rewrite list_lookup_total_insert_ne by done. rewrite (Hinv t Ht).
      f_equal. symmetry. apply track_events_ext; [|done].
      unfold count_at. cbn. by rewrite list_lookup_total_insert_ne.
Qed.

Lemma track_events_snoc s s' t :
  count_at s' t = S (count_at s t) →
  (∀ i, (i < count_at s t)%nat → event_at s' t i = event_at s t i) →
  track_events s' t = track_events s t ++ [event_at s' t (count_at s t)].
Proof.
  intros Hc He. unfold track_events. rewrite Hc, seq_S, map_app. cbn.
  f_equal. apply map_ext_in. intros i Hi%in_seq. apply He. lia.
Qed.

Lemma addEvent_inv track offset chan instr nt vel dur s :
  store_inv s →
  store_inv (state_of (addEvent track offset chan instr nt vel dur s)).
Proof.
  intros [Hwf Hinv]. pose proof (wf_shape _ Hwf) as Hsh.
  destruct (Nat.leb_spec SEQ_MAX_TRACKS track) as [Hbig|Ht].
  { rewrite addEvent_fail by lia. by split. }
  destruct (Nat.leb_spec SEQ_MAX_EVENTS (count_at s track)) as [Hfull|Hc].
  { rewrite addEvent_fail by lia. by split. }
  destruct (addEvent_ok track offset chan instr nt vel dur s Hwf Ht Hc)
    as (_ & _ & Hcnt & Hev & Hsame & Hother & _).
  revert Hcnt Hev Hsame Hother.
  rewrite addEvent_run by (rewrite (shape_loop _ Hsh); lia).
  destruct (Nat.leb_spec SEQ_MAX_TRACKS track); [lia|].
  destruct (Nat.leb_spec SEQ_MAX_EVENTS (count_at s track)); [lia|]. mrun.
  set (s' := set_trackLoopLengthMs _ _).
  intros Hcnt Hev Hsame Hother. split.
  - destruct Hsh.
    destruct (upd_event_lengths track (count_at s track)
                (λ _, mkSeqEvent offset chan instr nt vel dur false) (tracks s))
      as [Hl1 Hl2].
    split; [split|]; subst s'; cbn; rewrite ?length_insert; try done.
    + congruence.
    + intros t Ht'. rewrite Hl2. auto.
    + intros t Ht'. unfold count_at. cbn.
      destruct (decide (track = t)) as [->|Hne].
      * rewrite list_lookup_total_insert_eq by lia. fold (count_at s t). lia.
      * rewrite list_lookup_total_insert_ne by done. by apply Hwf.
  - intros t Ht'. destruct (decide (t = track)) as [->|Hne].
    + rewrite (track_events_snoc s s' track Hcnt)
        by (intros i Hi; apply Hsame; lia).
      rewrite max_of_snoc, Hev, <- (Hinv track Ht).
      subst s'. cbn [trackLoopLengthMs set_trackLoopLengthMs set_tracks
                     set_trackEventCount].
      rewrite list_lookup_total_insert_eq by (rewrite shape_loop; [lia|done]).
      done.
    + destruct (Hother t Hne) as (Htr & Hct & Hlp).
      rewrite Hlp, (Hinv t Ht'). f_equal. symmetry.
      apply track_events_ext; [done|]. intros i _. unfold event_at. by rewrite Htr.
Qed.

Lemma startSequencer_inv now loopMs s :
  store_inv s → store_inv (state_of (startSequencer now loopMs s)).
Proof.
  intros [Hwf Hinv]. rewrite startSequencer_run. mrun.
  set (s0 := set_globalLoopMs loopMs
               (set_sequencerRunning true (set_sequencerStartMs now s))).
  assert (Hk : store_kept s s0) by by split.
  split.
  - apply wf_set_tracks_upd_all. by eapply wf_store_kept.
  - eapply flags_step_derived; [|exact Hinv].
    eapply flags_step_trans; [by apply flags_step_store_kept|].
    apply flags_step_upd_all;
      [done | exact (wf_stored_places s Hwf) | apply NoDup_stored_places].
Qed.

Lemma update_flags_step now s : wf s → flags_step s (state_of (update now s)).
Proof.
  intros Hwf. rewrite update_run by done.
  assert (Hexp : flags_step s (expired now s)).
  { apply flags_step_store_kept. split; try done. cbn. apply length_map. }
  destruct (sequencerRunning s); mrun; [|done].
  rewrite update_tracks_run by by apply wf_expired. mrun.
  rewrite stored_places_expired, firing_expired.
  set (F := for_ _ (fireEvent now) (expired now s)).
  assert (Hdev : device_step (expired now s) (state_of F))
    by apply fire_all_device_step.
  eapply flags_step_trans; [exact Hexp|].
  eapply flags_step_trans; [by apply flags_step_device|].
  apply flags_step_upd_all.
  - apply end_time_flag_step.
  - rewrite (ds_tracks _ _ Hdev). exact (wf_stored_places s Hwf).
  - apply NoDup_stored_places.
Qed.

Lemma call_inv c s : store_inv s → store_inv (state_of (call c s)).
Proof.
  intros Hinv. destruct c; cbn [call].
  - eapply store_inv_kept; [|exact Hinv]. by split.
  - eapply store_inv_kept; [apply setInstrument_store_kept | exact Hinv].
  - unfold noteOn. by rewrite talkMIDI_state.
  - unfold noteOff. by rewrite talkMIDI_state.
  - eapply store_inv_kept; [apply playNoteAsync_store_kept | exact Hinv].
  - eapply store_inv_kept; [apply playNoteAsync_note_store_kept | exact Hinv].
  - by apply clearTrack_inv.
  - rewrite bind_run. mrun. by apply addEvent_inv.
  - unfold setPan. by rewrite talkMIDI_state.
  - unfold setReverb. by rewrite talkMIDI_state.
  - unfold setMasterVolume. by rewrite talkMIDI_state.
  - unfold setChannelVolume. by rewrite talkMIDI_state.
  - by apply startSequencer_inv.
  - eapply store_inv_kept; [|exact Hinv]. by split.
  - destruct Hinv as [Hwf Hinv]. split; [by apply wf_update|].
    eapply flags_step_derived; [by apply update_flags_step | done].
Qed.

Lemma calls_inv cs s : store_inv s → store_inv (state_of (for_ cs call s)).
Proof.
  revert s. induction cs as [|c cs IH]; intros s Hinv; [done|].
  rewrite for__cons. mrun. by apply IH, call_inv.
Qed.

(** The constructor clears the counts and the track lengths. *)
Ltac explode l H :=
  unfold SEQ_MAX_TRACKS, SEQ_MAX_VOICES in H;
  repeat (destruct l as [|? l]; [discriminate H|];
          cbn [length] in H; apply Nat.succ_inj in H);
  destruct l; [clear H | discriminate H].

Lemma ctor_run mem :
  shape mem →
  state_of (VS1053_MIDI_ctor mem) =
    mkVS1053_MIDI false (tracks mem)
      (replicate SEQ_MAX_TRACKS 0%nat) (replicate SEQ_MAX_TRACKS 0)
      false (sequencerStartMs mem) 0
      (map (set_active false) (voices mem)) (replicate 16 255).
Proof.
  intros [_ _ Hc Hl Hv Hi].
  destruct mem as [d T cnt len run st gl vs ci]. cbn in Hc, Hl, Hv, Hi.
  explode cnt Hc. explode len Hl. explode vs Hv. explode ci Hi.
  reflexivity.
Qed.

Lemma ctor_inv mem : shape mem → store_inv (state_of (VS1053_MIDI_ctor mem)).
Proof.
  intros Hsh. rewrite ctor_run by done. destruct Hsh. split.
  - split; [split|]; cbn; rewrite ?length_replicate, ?length_map; try done.
    intros t Ht. unfold count_at. cbn.
    rewrite lookup_total_replicate_2 by done. lia.
  - intros t Ht. cbn [trackLoopLengthMs].
    rewrite lookup_total_replicate_2 by done.
    rewrite track_events_nil; [done|]. unfold count_at. cbn.
    by rewrite lookup_total_replicate_2.
Qed.

(** Every object reached from the constructor is well formed. *)
Lemma after_wf mem cs : shape mem → wf (after mem cs).
Proof. intros Hsh. by apply calls_inv, ctor_inv. Qed.

(** * The derived loop length *)

(** C6, as the code has it.  After the constructor and any history of
    calls, the loop length of every track is the greatest end time of
    the events it holds, the end time being the 32-bit sum
    (offset + duration) mod 2^32 that [addEvent] computes, and 0 for an
    empty track.  It is the greatest offset + duration whenever no such
    sum of the track reaches 2^32. *)
Theorem loop_length_is_wrapped_max mem cs t :
  shape mem → (t < SEQ_MAX_TRACKS)%nat →
  let s := after mem cs in
  trackLoopLengthMs s !!! t = max_of end_time (track_events s t) ∧
  ((∀ ev, ev ∈ track_events s t →
      0 ≤ timeOffsetMs ev + durationMs ev < 2 ^ 32) →
   trackLoopLengthMs s !!! t =
     max_of (λ ev, timeOffsetMs ev + durationMs ev) (track_events s t)).
Proof.
  intros Hsh Ht s.
  assert (Hinv : store_inv s) by by apply calls_inv, ctor_inv.
  destruct Hinv as [_ Hinv]. split; [by apply Hinv|].
  intros Hsmall. rewrite (Hinv t Ht). apply max_of_ext.
  intros ev Hev. unfold end_time, u32. apply Z.mod_small. by apply Hsmall.
Qed.

Lemma loop_length_is_wrapped_max_witness :
  shape zero_mem ∧
  trackLoopLengthMs (after zero_mem song_calls) !!! 0%nat =
    max_of end_time (track_events (after zero_mem song_calls) 0) ∧
  max_of end_time (track_events (after zero_mem song_calls) 0) = 500.
Proof.
  assert (Hsh : shape zero_mem)
    by (apply wf_shape, wfb_wf; vm_compute; reflexivity).
  split; [exact Hsh|].
  destruct (loop_length_is_wrapped_max zero_mem song_calls 0 Hsh) as [Heq _];
    [vm_compute; lia|].
  split; [exact Heq | vm_compute; reflexivity].
Defined.

(** C6, as the claim states it, fails when a sum wraps: an event at
    offset 2^32 - 1 lasting 1 ms is accepted, yet the loop length of its
    track stays 0 while offset + duration is 2^32. *)
Lemma loop_length_overflow :
  result (addEvent 0 4294967295 0 0 60 100 1 fresh) = true ∧
  track_events (after zero_mem [CallAddEvent 0 4294967295 0 0 60 100 1]) 0 =
    [mkSeqEvent 4294967295 0 0 60 100 1 false] ∧
  trackLoopLengthMs
    (after zero_mem [CallAddEvent 0 4294967295 0 0 60 100 1]) !!! 0%nat = 0 ∧
  max_of (λ ev, timeOffsetMs ev + durationMs ev)
    (track_events (after zero_mem [CallAddEvent 0 4294967295 0 0 60 100 1]) 0)
    = 4294967296 ∧
  trackLoopLengthMs
    (after zero_mem [CallAddEvent 0 4294967295 0 0 60 100 1]) !!! 0%nat ≠
  max_of (λ ev, timeOffsetMs ev + durationMs ev)
    (track_events (after zero_mem [CallAddEvent 0 4294967295 0 0 60 100 1]) 0).
Proof. vm_compute. repeat split; congruence. Qed.

(** * Further properties of the engine *)

(** ** The constructor *)

Lemma ctor_sent mem : shape mem → sent (VS1053_MIDI_ctor mem) = [].
Proof.
  intros [_ _ Hc Hl Hv Hi].
  destruct mem as [d T cnt len run st gl vs ci]. cbn in Hc, Hl, Hv, Hi.
  explode cnt Hc. explode len Hl. explode vs Hv. explode ci Hi.
  reflexivity.
Qed.

Lemma expiry_bytes_idle now (vs : list ActiveVoice) :
  (∀ v, (v < length vs)%nat → active (vs !!! v) = false) →
  flat_map (expiry_bytes now) vs = [].
Proof.
  induction vs as [|x vs IH]; intros H; [done|].
  cbn [flat_map]. unfold expiry_bytes at 1, due.
  pose proof (H 0%nat ltac:(cbn; lia)) as H0. cbn in H0. rewrite H0.
  cbn [andb app].
  apply IH. intros v Hv. apply (H (S v)). cbn. lia.
Qed.

(** X1. Whatever the memory held, the constructed object is well
    formed: every track is empty with loop length 0, every voice slot is
    free, every cache entry is the unset value 255, the sequencer is
    stopped with automatic loop length and debugging is off.  The
    constructor sends nothing, and neither does a first [update()]. *)
Theorem ctor_initial_state mem :
  shape mem →
  let s := state_of (VS1053_MIDI_ctor mem) in
  wf s ∧
  (∀ t, (t < SEQ_MAX_TRACKS)%nat →
     count_at s t = 0%nat ∧ trackLoopLengthMs s !!! t = 0) ∧
  (∀ v, (v < SEQ_MAX_VOICES)%nat → active (voice_at s v) = false) ∧
  (∀ c, (c < 16)%nat → lastChannelInstrument s !!! c = 255) ∧
  sequencerRunning s = false ∧ globalLoopMs s = 0 ∧ debug s = false ∧
  stored_places s = [] ∧
  sent (VS1053_MIDI_ctor mem) = [] ∧
  ∀ now, sent (update now s) = [].
Proof.
  intros Hsh. cbv zeta.
  pose proof (ctor_inv mem Hsh) as [Hwf _].
  rewrite (ctor_sent mem Hsh).
  revert Hwf. rewrite (ctor_run mem Hsh).
  set (s := mkVS1053_MIDI _ _ _ _ _ _ _ _ _). intros Hwf.
  assert (Hidle : ∀ v, (v < SEQ_MAX_VOICES)%nat → active (voice_at s v) = false).
  { intros v Hv. unfold voice_at, s. cbn [voices].
    assert (Hlook : map (set_active false) (voices mem) !!! v =
                    set_active false (voices mem !!! v)).
    { apply list_lookup_total_correct. rewrite list_lookup_fmap.
      rewrite (list_lookup_lookup_total_lt (voices mem) v); [done|].
      by rewrite (shape_voices _ Hsh). }
    by rewrite Hlook. }
  split; [done|]. split; [|split; [done|split; [|repeat split]]].
  - intros t Ht. unfold count_at, s. cbn [trackEventCount trackLoopLengthMs].
    by rewrite !lookup_total_replicate_2.
  - intros c Hc. unfold s. cbn [lastChannelInstrument].
    by rewrite lookup_total_replicate_2.
  - intros now. rewrite update_stopped by done. mrun.
    apply expiry_bytes_idle. intros v Hv. apply Hidle.
    by rewrite <- (shape_voices _ (wf_shape _ Hwf)).
Qed.

Lemma ctor_initial_state_witness :
  shape zero_mem ∧ wf (state_of (VS1053_MIDI_ctor zero_mem)) ∧
  sent (update 5000 (state_of (VS1053_MIDI_ctor zero_mem))) = [].
Proof.
  assert (Hsh : shape zero_mem)
    by (apply wf_shape, wfb_wf; vm_compute; reflexivity).
  destruct (ctor_initial_state zero_mem Hsh) as (Hwf & _ & _ & _ & _ & _ & _
                                                 & _ & _ & Hquiet).
  exact (conj Hsh (conj Hwf (Hquiet 5000))).
Defined.

(** X2. No history of public calls breaks the bounds of the arrays: in
    every object reached from the constructor each track holds at most
    128 events and the member arrays keep their declared sizes. *)
Theorem reachable_well_formed mem cs :
  shape mem →
  shape (after mem cs) ∧
  ∀ t, (t < SEQ_MAX_TRACKS)%nat →
    (count_at (after mem cs) t ≤ SEQ_MAX_EVENTS)%nat.
Proof.
  intros Hsh.
  assert (Hinv : store_inv (after mem cs)) by by apply calls_inv, ctor_inv.
  destruct Hinv as [[Hs Hc] _]. by split.
Qed.

Lemma reachable_well_formed_witness :
  shape zero_mem ∧
  (count_at (after zero_mem song_calls) 0 ≤ SEQ_MAX_EVENTS)%nat.
Proof.
  assert (Hsh : shape zero_mem)
    by (apply wf_shape, wfb_wf; vm_compute; reflexivity).
  destruct (reachable_well_formed zero_mem song_calls Hsh) as [_ Hc].
  split; [exact Hsh|]. apply Hc. vm_compute. lia.
Defined.

(** ** Playing a note and releasing it *)

Lemma reserve_loop_keeps_active idx ch nt off (vs : list ActiveVoice) v :
  active (vs !!! v) = true →
  reserve_loop idx ch nt off vs !!! v = vs !!! v.
Proof.
  intros Hact. induction idx as [|u idx IH]; [done|].
  cbn [reserve_loop]. destruct (active (vs !!! u)) eqn:Hu; cbn [negb]; [done|].
  apply list_lookup_total_insert_ne. intros ->. congruence.
Qed.

Lemma fireEvent_keeps_active now ev s v :
  active (voice_at s v) = true →
  voice_at (state_of (fireEvent now ev s)) v = voice_at s v.
Proof.
  intros Hact. rewrite fireEvent_run. mrun. unfold voice_at.
  cbn [voices set_voices].
  assert (Hv : voices (state_of (setInstrument (channel ev) (inst ev) s)) =
               voices s).
  { rewrite setInstrument_run.
    by destruct (lastChannelInstrument s !!! _ =? inst ev). }
  rewrite Hv. by apply reserve_loop_keeps_active.
Qed.

Lemma fire_all_keeps_active now (l : list SeqEvent) s v :
  active (voice_at s v) = true →
  voice_at (state_of (for_ l (fireEvent now) s)) v = voice_at s v.
Proof.
  revert s. induction l as [|ev l IH]; intros s Hact; [done|].
  rewrite for__cons. mrun.
  rewrite IH by (by rewrite fireEvent_keeps_active).
  by apply fireEvent_keeps_active.
Qed.

Lemma voice_at_expired now s v :
  (v < length (voices s))%nat →
  voice_at (expired now s) v = expire now (voice_at s v).
Proof.
  intros Hv. unfold voice_at, expired. cbn [voices set_voices].
  apply list_lookup_total_correct. rewrite list_lookup_fmap.
  by rewrite (list_lookup_lookup_total_lt (voices s) v).
Qed.

(** A reservation that is not yet due survives [update()]. *)
Lemma update_keeps_pending now s v :
  wf s → (v < SEQ_MAX_VOICES)%nat →
  active (voice_at s v) = true → now < offTimeMs (voice_at s v) →
  voice_at (state_of (update now s)) v = voice_at s v.
Proof.
  intros Hwf Hv Hact Hpending.
  assert (Hexp : voice_at (expired now s) v = voice_at s v).
  { rewrite voice_at_expired by (by rewrite (shape_voices _ (wf_shape _ Hwf))).
    unfold expire, due. rewrite Hact.
    by destruct (Z.leb_spec (offTimeMs (voice_at s v)) now); [lia|]. }
  rewrite update_run by done. destruct (sequencerRunning s); mrun; [|done].
  rewrite update_tracks_run by by apply wf_expired. mrun.
  change (voice_at (set_tracks ?f ?x) v) with (voice_at x v).
  rewrite fire_all_keeps_active by (by rewrite Hexp). done.
Qed.

(** The note-off of a due reservation is among the bytes of [update()]. *)
Lemma update_sends_due now s v :
  wf s → (v < SEQ_MAX_VOICES)%nat →
  active (voice_at s v) = true → offTimeMs (voice_at s v) ≤ now →
  ∃ pre post,
    sent (update now s) =
      pre ++ noteOff_bytes (v_channel (voice_at s v)) (v_note (voice_at s v))
          ++ post.
Proof.
  intros Hwf Hv Hact Hdue.
  assert (Hlook : voices s !! v = Some (voice_at s v)).
  { apply list_lookup_lookup_total_lt.
    by rewrite (shape_voices _ (wf_shape _ Hwf)). }
  assert (Hvoices : ∃ pre post,
    flat_map (expiry_bytes now) (voices s) =
      pre ++ noteOff_bytes (v_channel (voice_at s v)) (v_note (voice_at s v))
          ++ post).
  { rewrite <- (take_drop_middle _ _ _ Hlook), flat_map_app. cbn [flat_map].
    exists (flat_map (expiry_bytes now) (take v (voices s))),
           (flat_map (expiry_bytes now) (drop (S v) (voices s))).
    unfold expiry_bytes at 2, due. rewrite Hact.
    by destruct (Z.leb_spec (offTimeMs (voice_at s v)) now); [|lia]. }
  destruct Hvoices as (pre & post & Heq).
  rewrite update_run by done. destruct (sequencerRunning s); mrun.
  - exists pre. eexists. rewrite Heq, <- !app_assoc. reflexivity.
  - by exists pre, post.
Qed.

Lemma wf_playNoteAsync now chan instr nt dur vel s :
  wf s → wf (state_of (playNoteAsync now chan instr nt dur vel s)).
Proof. apply wf_store_kept, playNoteAsync_store_kept. Qed.

Lemma playNoteAsync_run now chan instr nt dur vel s :
  playNoteAsync now chan instr nt dur vel s =
    (tt,
     set_voices (reserve_loop (seq 0 SEQ_MAX_VOICES) chan nt (u32 (now + dur)))
       (state_of (setInstrument chan instr s)),
     sent (setInstrument chan instr s) ++ noteOn_bytes chan nt vel).
Proof.
  change (playNoteAsync now chan instr nt dur vel)
    with (fireEvent now (mkSeqEvent 0 chan instr nt vel dur false)).
  by rewrite fireEvent_run.
Qed.

Lemma voices_setInstrument chan instr s :
  voices (state_of (setInstrument chan instr s)) = voices s.
Proof.
  rewrite setInstrument_run.
  by destruct (lastChannelInstrument s !!! _ =? instr).
Qed.

Lemma playNoteAsync_slot now chan instr nt dur vel s v :
  (v < SEQ_MAX_VOICES)%nat → length (voices s) = SEQ_MAX_VOICES →
  active (voice_at s v) = false →
  (∀ u, (u < v)%nat → active (voice_at s u) = true) →
  voice_at (state_of (playNoteAsync now chan instr nt dur vel s)) v =
    mkActiveVoice true chan nt (u32 (now + dur)).
Proof.
  intros Hv Hlen Hfree Hbusy. rewrite playNoteAsync_run. mrun.
  unfold voice_at. cbn [voices set_voices]. rewrite voices_setInstrument.
  rewrite (reserve_loop_first 0 SEQ_MAX_VOICES v) by
    (try done; try lia; intros u Hu; apply Hbusy; lia).
  apply list_lookup_total_insert_eq. lia.
Qed.

(** X3. A note played with [playNoteAsync] while a voice slot is free
    is released by [update()]: the reservation sits in the first free
    slot with due time (now + duration) mod 2^32, it is kept by every
    [update()] called before the due time, and the first [update()] at or
    after the due time sends the note-off of that channel and note. *)
Theorem playNoteAsync_then_update now chan instr nt dur vel s v :
  wf s → (v < SEQ_MAX_VOICES)%nat →
  active (voice_at s v) = false →
  (∀ u, (u < v)%nat → active (voice_at s u) = true) →
  let s1 := state_of (playNoteAsync now chan instr nt dur vel s) in
  let due_time := u32 (now + dur) in
  voice_at s1 v = mkActiveVoice true chan nt due_time ∧
  (∀ now', now' < due_time →
     voice_at (state_of (update now' s1)) v =
       mkActiveVoice true chan nt due_time) ∧
  (∀ now', due_time ≤ now' →
     ∃ pre post, sent (update now' s1) = pre ++ noteOff_bytes chan nt ++ post).
Proof.
  intros Hwf Hv Hfree Hbusy s1 due_time.
  assert (Hslot : voice_at s1 v = mkActiveVoice true chan nt due_time).
  { apply playNoteAsync_slot; try done. apply Hwf. }
  assert (Hwf1 : wf s1) by by apply wf_playNoteAsync.
  split; [done|]. split.
  - intros now' Hearly. rewrite <- Hslot.
    apply update_keeps_pending; try done; by rewrite Hslot.
  - intros now' Hlate.
    destruct (update_sends_due now' s1 v Hwf1 Hv) as (pre & post & Heq);
      [by rewrite Hslot | by rewrite Hslot|].
    rewrite Hslot in Heq. by exists pre, post.
Qed.

Lemma playNoteAsync_then_update_witness :
  wf fresh ∧
  voice_at (state_of (playNoteAsync 1000 2 40 64 300 110 fresh)) 0 =
    mkActiveVoice true 2 64 1300 ∧
  ∃ pre post,
    sent (update 1300 (state_of (playNoteAsync 1000 2 40 64 300 110 fresh))) =
      pre ++ noteOff_bytes 2 64 ++ post.
Proof.
  assert (Hwf : wf fresh) by (apply wfb_wf; vm_compute; reflexivity).
  destruct (playNoteAsync_then_update 1000 2 40 64 300 110 fresh 0 Hwf)
    as (Hslot & _ & Hoff);
    [vm_compute; lia | vm_compute; reflexivity | intros; lia |].
  split; [exact Hwf|]. split; [exact Hslot|].
  apply Hoff. vm_compute. congruence.
Defined.

(** X4. Near the roll-over of [millis()] the due time wraps: when
    now + duration reaches 2^32, the due time is below [now], so an
    [update()] at the very time of the call already sends the note-off. *)
Theorem playNoteAsync_wrapped_due now chan instr nt dur vel s v :
  wf s → (v < SEQ_MAX_VOICES)%nat →
  active (voice_at s v) = false →
  (∀ u, (u < v)%nat → active (voice_at s u) = true) →
  0 ≤ now < 2 ^ 32 → 0 ≤ dur < 2 ^ 32 → 2 ^ 32 ≤ now + dur →
  let s1 := state_of (playNoteAsync now chan instr nt dur vel s) in
  offTimeMs (voice_at s1 v) = now + dur - 2 ^ 32 ∧
  offTimeMs (voice_at s1 v) < now ∧
  ∃ pre post, sent (update now s1) = pre ++ noteOff_bytes chan nt ++ post.
Proof.
  intros Hwf Hv Hfree Hbusy Hnow Hdur Hwrap s1.
  assert (Hslot : voice_at s1 v = mkActiveVoice true chan nt (u32 (now + dur))).
  { apply playNoteAsync_slot; try done. apply Hwf. }
  assert (Hdue : u32 (now + dur) = now + dur - 2 ^ 32).
  { unfold u32. symmetry. apply (Z.mod_unique _ _ 1); lia. }
  assert (Hwf1 : wf s1) by by apply wf_playNoteAsync.
  rewrite Hslot. cbn [offTimeMs]. split; [done|]. split; [lia|].
  destruct (update_sends_due now s1 v Hwf1 Hv) as (pre & post & Heq);
    [by rewrite Hslot | rewrite Hslot; cbn [offTimeMs]; lia|].
  rewrite Hslot in Heq. by exists pre, post.
Qed.

Lemma playNoteAsync_wrapped_due_witness :
  wf fresh ∧
  ∃ pre post,
    sent (update 4294967000
            (state_of (playNoteAsync 4294967000 2 40 64 500 110 fresh))) =
      pre ++ noteOff_bytes 2 64 ++ post.
Proof.
  assert (Hwf : wf fresh) by (apply wfb_wf; vm_compute; reflexivity).
  split; [exact Hwf|].
  apply (playNoteAsync_wrapped_due 4294967000 2 40 64 500 110 fresh 0 Hwf);
    [vm_compute; lia | vm_compute; reflexivity | intros; lia
    | lia | lia | lia].
Defined.

(** X5. With all 32 voice slots busy [playNoteAsync] still sends the
    program change, if one is needed, and the note-on, but the voice pool
    is left as it was: no note-off is scheduled for the note. *)
Theorem playNoteAsync_pool_full now chan instr nt dur vel s :
  (∀ v, (v < SEQ_MAX_VOICES)%nat → active (voice_at s v) = true) →
  playNoteAsync now chan instr nt dur vel s =
    (tt, state_of (setInstrument chan instr s),
     sent (setInstrument chan instr s) ++ noteOn_bytes chan nt vel) ∧
  voices (state_of (playNoteAsync now chan instr nt dur vel s)) = voices s.
Proof.
  intros Hbusy. rewrite playNoteAsync_run. mrun.
  assert (Hfull : reserve_loop (seq 0 SEQ_MAX_VOICES) chan nt (u32 (now + dur))
                    (voices (state_of (setInstrument chan instr s))) =
                  voices (state_of (setInstrument chan instr s))).
  { apply reserve_loop_full. rewrite voices_setInstrument.
    intros u Hu. apply Hbusy. lia. }
  split.
  - by rewrite set_voices_same.
  - cbn [voices set_voices]. by rewrite Hfull, voices_setInstrument.
Qed.

Lemma playNoteAsync_pool_full_witness :
  sent (playNoteAsync 1000 2 40 64 300 110 full_pool) = [194; 40; 146; 64; 110] ∧
  voices (state_of (playNoteAsync 1000 2 40 64 300 110 full_pool)) =
    voices full_pool.
Proof.
  assert (Hbusy : ∀ v, (v < SEQ_MAX_VOICES)%nat →
            active (voice_at full_pool v) = true).
  { intros v Hv. apply (forallb_lookup_total active (voices full_pool));
      [vm_compute; reflexivity | vm_compute; exact Hv]. }
  destruct (playNoteAsync_pool_full 1000 2 40 64 300 110 full_pool Hbusy)
    as [Hrun Hvoices].
  split; [|exact Hvoices]. rewrite Hrun. vm_compute. reflexivity.
Defined.

(** ** Clearing a track *)

(** X6. [clearTrack] with an index of 8 or more does nothing.  With a
    valid index it empties the track: its count and loop length become
    0 and none of its places is visited by the sequencer any more, while
    the event array itself, the other tracks, the voice pool, the cache
    and the run state are as they were, and nothing is sent. *)
Theorem clearTrack_effect track s :
  shape s →
  ((SEQ_MAX_TRACKS ≤ track)%nat → clearTrack track s = (tt, s, [])) ∧
  ((track < SEQ_MAX_TRACKS)%nat →
     let s' := state_of (clearTrack track s) in
     count_at s' track = 0%nat ∧ trackLoopLengthMs s' !!! track = 0 ∧
     (∀ i, (track, i) ∉ stored_places s') ∧
     (∀ t, t ≠ track →
        count_at s' t = count_at s t ∧
        trackLoopLengthMs s' !!! t = trackLoopLengthMs s !!! t) ∧
     tracks s' = tracks s ∧ voices s' = voices s ∧
     lastChannelInstrument s' = lastChannelInstrument s ∧
     sequencerRunning s' = sequencerRunning s ∧
     sequencerStartMs s' = sequencerStartMs s ∧
     globalLoopMs s' = globalLoopMs s ∧
     sent (clearTrack track s) = []).
Proof.
  intros Hsh. split.
  - intros Hbig. unfold clearTrack.
    by destruct (Nat.leb_spec SEQ_MAX_TRACKS track); [|lia].
  - intros Ht s'. subst s'. unfold clearTrack.
    destruct (Nat.leb_spec SEQ_MAX_TRACKS track); [lia|]. mrun.
    assert (Hcount : count_at
              (set_trackLoopLengthMs <[track:=0]>
                 (set_trackEventCount <[track:=0%nat]> s)) track = 0%nat).
    { unfold count_at. cbn [trackEventCount set_trackLoopLengthMs
                            set_trackEventCount].
      apply list_lookup_total_insert_eq. rewrite (shape_count _ Hsh). lia. }
    split; [done|]. split; [|split; [|split; [|done]]].
    + cbn [trackLoopLengthMs set_trackLoopLengthMs set_trackEventCount].
      apply list_lookup_total_insert_eq. rewrite (shape_loop _ Hsh). lia.
    + intros i [_ Hi]%elem_of_stored_places. rewrite Hcount in Hi. lia.
    + intros t Hne. unfold count_at.
      cbn [trackEventCount trackLoopLengthMs set_trackLoopLengthMs
           set_trackEventCount].
      by rewrite !list_lookup_total_insert_ne.
Qed.

Lemma clearTrack_effect_witness :
  shape song_at_250 ∧
  clearTrack 8 song_at_250 = (tt, song_at_250, []) ∧
  count_at (state_of (clearTrack 0 song_at_250)) 0 = 0%nat.
Proof.
  assert (Hsh : shape song_at_250)
    by (apply wf_shape, wfb_wf; vm_compute; reflexivity).
  destruct (clearTrack_effect 8 song_at_250 Hsh) as [Hnoop _].
  destruct (clearTrack_effect 0 song_at_250 Hsh) as [_ Hclear].
  split; [exact Hsh|]. split.
  - apply Hnoop. vm_compute. lia.
  - destruct Hclear as [Hc _]; [vm_compute; lia | exact Hc].
Defined.

(** ** Messages of the immediate helpers *)

Lemma status_sum hi c :
  hi ∈ [0x80; 0x90; 0xB0; 0xC0] → 0 ≤ c < 16 →
  Z.lor hi c = hi + c ∧ Z.land (Z.lor hi c) 0xF0 = hi.
Proof.
  intros Hhi Hc.
  assert (Hcs : c ∈ [0;1;2;3;4;5;6;7;8;9;10;11;12;13;14;15]).
  { rewrite !elem_of_cons. lia. }
  rewrite !elem_of_cons, elem_of_nil in Hhi.
  repeat (apply elem_of_cons in Hcs as [->|Hcs]);
    [destruct Hhi as [->|[->|[->|[->|[]]]]]; split; reflexivity ..|].
  by apply elem_of_nil in Hcs.
Qed.

Lemma talkMIDI_three cmd d1 d2 s :
  Z.land cmd 0xF0 ≠ 0xC0 → talkMIDI cmd d1 d2 s = (tt, s, [cmd; d1; d2]).
Proof.
  intros Hcmd. unfold talkMIDI. rewrite !bind_run, !sendMIDI_run. mrun.
  destruct (Z.eqb_spec (Z.land cmd 0xF0) 0xC0); [done|]. cbn [negb].
  by rewrite sendMIDI_run.
Qed.

Lemma low_nibble_mod c : Z.land c 0x0F = c mod 16.
Proof. change 0x0F with (Z.ones 4). by rewrite Z.land_ones by lia. Qed.

(** X7. [noteOn] and [noteOff] send three bytes and leave the object
    alone.  Only the low four bits of the channel are used: the status
    byte is 0x90, respectively 0x80, plus the channel modulo 16, so it
    always lies in 0x90..0x9F, respectively 0x80..0x8F. *)
Theorem note_messages chan nt vel s :
  noteOn chan nt vel s = (tt, s, [0x90 + chan mod 16; nt; vel]) ∧
  noteOff chan nt vel s = (tt, s, [0x80 + chan mod 16; nt; vel]) ∧
  0x90 ≤ 0x90 + chan mod 16 ≤ 0x9F ∧ 0x80 ≤ 0x80 + chan mod 16 ≤ 0x8F.
Proof.
  assert (Hc : 0 ≤ chan mod 16 < 16) by (apply Z.mod_pos_bound; lia).
  destruct (status_sum 0x90 (chan mod 16)) as [Hon1 Hon2];
    [rewrite !elem_of_cons; tauto | done |].
  destruct (status_sum 0x80 (chan mod 16)) as [Hoff1 Hoff2];
    [rewrite !elem_of_cons; tauto | done |].
  unfold noteOn, noteOff. rewrite !low_nibble_mod.
  rewrite !talkMIDI_three by (rewrite ?Hon2, ?Hoff2; done).
  rewrite Hon1, Hoff1. repeat split; lia.
Qed.

(** X8. The controller helpers send one three-byte control change and
    leave the object alone: controller 10 for [setPan], 91 for
    [setReverb], 7 for the two volumes; [setReverb] and
    [setMasterVolume] always address channel 0.  A value above 127 is
    sent as 127, so the data byte of a byte-sized argument is a valid
    MIDI data byte. *)
Theorem controller_messages chan value s :
  0 ≤ value →
  setPan chan value s = (tt, s, [0xB0 + chan mod 16; 10; Z.min value 127]) ∧
  setChannelVolume chan value s =
    (tt, s, [0xB0 + chan mod 16; 7; Z.min value 127]) ∧
  setReverb value s = (tt, s, [0xB0; 91; Z.min value 127]) ∧
  setMasterVolume value s = (tt, s, [0xB0; 7; Z.min value 127]) ∧
  0 ≤ Z.min value 127 ≤ 127.
Proof.
  intros Hvalue.
  assert (Hc : 0 ≤ chan mod 16 < 16) by (apply Z.mod_pos_bound; lia).
  destruct (status_sum 0xB0 (chan mod 16)) as [H1 H2];
    [rewrite !elem_of_cons; tauto | done |].
  assert (Hclamp : clamp127 value = Z.min value 127).
  { unfold clamp127. destruct (Z.ltb_spec 127 value); lia. }
  unfold setPan, setChannelVolume, setReverb, setMasterVolume.
  rewrite !low_nibble_mod, Hclamp.
  rewrite !talkMIDI_three by (rewrite ?H2; done).
  rewrite H1. repeat split; lia.
Qed.

Lemma controller_messages_witness :
  setPan 17 200 fresh = (tt, fresh, [177; 10; 127]) ∧
  setReverb 64 fresh = (tt, fresh, [176; 91; 64]).
Proof.
  destruct (controller_messages 17 200 fresh) as (Hpan & _); [lia|].
  destruct (controller_messages 0 64 fresh) as (_ & _ & Hrev & _); [lia|].
  split; [exact Hpan | exact Hrev].
Defined.

(** ** What [update()] leaves alone *)

Lemma set_played_flag_step pos ev :
  set_played false (flag_step pos ev) = set_played false ev.
Proof. unfold flag_step. by destruct (fires pos ev), (rearms pos ev). Qed.

Lemma update_frame now s :
  wf s →
  trackEventCount (state_of (update now s)) = trackEventCount s ∧
  trackLoopLengthMs (state_of (update now s)) = trackLoopLengthMs s ∧
  sequencerRunning (state_of (update now s)) = sequencerRunning s ∧
  sequencerStartMs (state_of (update now s)) = sequencerStartMs s ∧
  globalLoopMs (state_of (update now s)) = globalLoopMs s ∧
  debug (state_of (update now s)) = debug s ∧
  ∀ t i, set_played false (event_at (state_of (update now s)) t i) =
         set_played false (event_at s t i).
Proof.
  intros Hwf. destruct (sequencerRunning s) eqn:Hrun.
  - assert (Hev : ∀ t i,
      set_played false (event_at (state_of (update now s)) t i) =
      set_played false (event_at s t i)).
    { intros t i. rewrite update_event_at by done.
      destruct (decide _); [apply set_played_flag_step | done]. }
    rewrite update_running by done. rewrite update_running in Hev by done.
    revert Hev. mrun. intros Hev.
    set (F := for_ _ (fireEvent now) (expired now s)) in *.
    destruct (fire_all_device_step now
                (firing (posInPattern now s) s (stored_places s))
                (expired now s)) as [Hd Ht Hc Hl Hr Hst Hg _ _].
    fold F in Hd, Ht, Hc, Hl, Hr, Hst, Hg.
    cbn [trackEventCount trackLoopLengthMs sequencerRunning sequencerStartMs
         globalLoopMs debug set_tracks].
    rewrite Hc, Hl, Hr, Hst, Hg, Hd. done.
  - rewrite update_stopped by done. mrun. done.
Qed.

Lemma same_up_to_flag e1 e2 :
  set_played false e1 = set_played false e2 →
  timeOffsetMs e1 = timeOffsetMs e2 ∧ channel e1 = channel e2 ∧
  inst e1 = inst e2 ∧ note e1 = note e2 ∧ velocity e1 = velocity e2 ∧
  durationMs e1 = durationMs e2.
Proof. destruct e1, e2. unfold set_played. cbn. intros [= -> -> -> -> -> ->]. done. Qed.

(** X9. [update()] never edits the pattern: the event counts, the
    derived loop lengths and every field of every event other than its
    played flag are as before the call, and so are the run state of the
    sequencer (running flag, start time, loop length) and the debug flag. *)
Theorem update_keeps_pattern now s :
  wf s →
  let s' := state_of (update now s) in
  trackEventCount s' = trackEventCount s ∧
  trackLoopLengthMs s' = trackLoopLengthMs s ∧
  sequencerRunning s' = sequencerRunning s ∧
  sequencerStartMs s' = sequencerStartMs s ∧
  globalLoopMs s' = globalLoopMs s ∧
  debug s' = debug s ∧
  ∀ t i,
    timeOffsetMs (event_at s' t i) = timeOffsetMs (event_at s t i) ∧
    channel (event_at s' t i) = channel (event_at s t i) ∧
    inst (event_at s' t i) = inst (event_at s t i) ∧
    note (event_at s' t i) = note (event_at s t i) ∧
    velocity (event_at s' t i) = velocity (event_at s t i) ∧
    durationMs (event_at s' t i) = durationMs (event_at s t i).
Proof.
  intros Hwf s'. subst s'.
  destruct (update_frame now s Hwf) as (Hc & Hl & Hr & Hst & Hg & Hd & Hev).
  repeat (split; [done|]). intros t i. apply same_up_to_flag, Hev.
Qed.

Lemma update_keeps_pattern_witness :
  wf song_started ∧
  durationMs (event_at (state_of (update 1000 song_started)) 0 0) = 500 ∧
  globalLoopMs (state_of (update 1000 song_started)) = 0.
Proof.
  assert (Hwf : wf song_started) by (apply wfb_wf; vm_compute; reflexivity).
  destruct (update_keeps_pattern 1000 song_started Hwf)
    as (_ & _ & _ & _ & Hg & _ & Hev).
  destruct (Hev 0%nat 0%nat) as (_ & _ & _ & _ & _ & Hdur).
  split; [exact Hwf|]. split.
  - rewrite Hdur. vm_compute. reflexivity.
  - rewrite Hg. vm_compute. reflexivity.
Defined.

(** ** [Song::play(false)] *)

Lemma wf_startSequencer now loopMs s :
  wf s → wf (state_of (startSequencer now loopMs s)).
Proof.
  intros Hwf. rewrite startSequencer_run. mrun.
  apply wf_set_tracks_upd_all. eapply wf_store_kept; [|exact Hwf]. by split.
Qed.

(** X10. [Song::play(false)] does not play the song once: it starts the
    sequencer with loop length 1, so the position is 0 at every
    [update()], and a stored event whose offset is above 0 never fires,
    however often and whenever [update()] is called afterwards: its flag
    stays clear. *)
Theorem Song_play_once_is_silent now0 s t i nows :
  wf s → (t < SEQ_MAX_TRACKS)%nat → (i < count_at s t)%nat →
  0 < timeOffsetMs (event_at s t i) →
  let s1 := state_of (Song_play false now0 s) in
  (∀ now s', globalLoopMs s' = 1 → posInPattern now s' = 0) ∧
  globalLoopMs (state_of (for_ nows update s1)) = 1 ∧
  played (event_at (state_of (for_ nows update s1)) t i) = false.
Proof.
  intros Hwf Ht Hi Hoff s1.
  assert (Hpos : ∀ now s', globalLoopMs s' = 1 → posInPattern now s' = 0).
  { intros now s' Hg. unfold posInPattern, patternLength. rewrite Hg.
    cbn. apply Z.mod_1_r. }
  split; [done|].
  assert (Hinv : ∀ nows s',
    wf s' → sequencerRunning s' = true → globalLoopMs s' = 1 →
    trackEventCount s' = trackEventCount s →
    timeOffsetMs (event_at s' t i) = timeOffsetMs (event_at s t i) →
    played (event_at s' t i) = false →
    globalLoopMs (state_of (for_ nows update s')) = 1 ∧
    played (event_at (state_of (for_ nows update s')) t i) = false).
  { clear nows. intros nows. induction nows as [|now nows IH];
      intros s' Hwf' Hrun Hg Hc Hto Hpl; [done|].
    rewrite for__cons. mrun.
    destruct (update_frame now s' Hwf') as (Hc' & _ & Hr' & _ & Hg' & _ & Hev').
    apply IH.
    - by apply wf_update.
    - congruence.
    - congruence.
    - congruence.
    - destruct (same_up_to_flag _ _ (Hev' t i)) as [-> _]. done.
    - rewrite update_event_at by done.
      rewrite decide_True
        by (apply elem_of_stored_places; unfold count_at; rewrite Hc; done).
      unfold flag_step, fires, rearms. rewrite Hpl, (Hpos now s' Hg), Hto.
      cbn [negb andb]. by destruct (Z.leb_spec (timeOffsetMs (event_at s t i)) 0);
        [lia|]. }
  subst s1. unfold Song_play. apply Hinv.
  - by apply wf_startSequencer.
  - by rewrite startSequencer_run.
  - by rewrite startSequencer_run.
  - by rewrite startSequencer_run.
  - rewrite startSequencer_run. mrun. unfold event_at.
    cbn [tracks set_tracks set_globalLoopMs set_sequencerRunning
         set_sequencerStartMs].
    rewrite upd_all_lookup_in; [done | by apply wf_stored_places
      | apply NoDup_stored_places | by apply elem_of_stored_places].
  - rewrite startSequencer_run. mrun. unfold event_at.
    cbn [tracks set_tracks set_globalLoopMs set_sequencerRunning
         set_sequencerStartMs].
    rewrite upd_all_lookup_in; [done | by apply wf_stored_places
      | apply NoDup_stored_places | by apply elem_of_stored_places].
Qed.

Lemma Song_play_once_is_silent_witness :
  wf song ∧
  played (event_at
            (state_of (for_ [1000; 1250; 1251; 1500] update
                         (state_of (Song_play false 1000 song)))) 0 1) = false.
Proof.
  assert (Hwf : wf song) by (apply wfb_wf; vm_compute; reflexivity).
  split; [exact Hwf|].
  apply (Song_play_once_is_silent 1000 song 0 1 [1000; 1250; 1251; 1500] Hwf);
    [vm_compute; lia | vm_compute; lia | vm_compute; reflexivity].
Defined.

(** ** Program changes are not repeated *)

(** X11. Two notes played in a row with [playNoteAsync] on channels
    with the same low four bits and with the same instrument: the second
    call sends its note-on only, whatever the first found in the cache. *)
Theorem playNoteAsync_no_repeat now1 now2 chan1 chan2 instr nt1 nt2 d1 d2 v1 v2 s :
  length (lastChannelInstrument s) = 16%nat →
  chan1 mod 16 = chan2 mod 16 →
  sent (playNoteAsync now2 chan2 instr nt2 d2 v2
          (state_of (playNoteAsync now1 chan1 instr nt1 d1 v1 s))) =
    noteOn_bytes chan2 nt2 v2.
Proof.
  intros Hlen Hchan. rewrite (playNoteAsync_run now2), (playNoteAsync_run now1).
  mrun.
  assert (Hnib : Z.land chan2 0x0F = Z.land chan1 0x0F)
    by (by rewrite !low_nibble_mod).
  assert (Hidx : (Z.to_nat (Z.land chan1 0x0F) < 16)%nat).
  { pose proof (low_nibble chan1). lia. }
  rewrite (setInstrument_run chan2). rewrite Hnib.
  cbn [lastChannelInstrument set_voices].
  assert (Hcache : lastChannelInstrument
            (state_of (setInstrument chan1 instr s))
            !!! Z.to_nat (Z.land chan1 0x0F) = instr).
  { rewrite setInstrument_run.
    destruct (Z.eqb_spec (lastChannelInstrument s
                            !!! Z.to_nat (Z.land chan1 0x0F)) instr); mrun.
    - done.
    - cbn [lastChannelInstrument set_lastChannelInstrument].
      apply list_lookup_total_insert_eq. lia. }
  rewrite Hcache, Z.eqb_refl. by mrun.
Qed.

Lemma playNoteAsync_no_repeat_witness :
  sent (playNoteAsync 1100 18 40 67 300 110
          (state_of (playNoteAsync 1000 2 40 64 300 110 fresh))) =
    [146; 67; 110].
Proof.
  rewrite (playNoteAsync_no_repeat 1000 1100 2 18 40 64 67 300 300 110 110 fresh);
    [vm_compute; reflexivity | vm_compute; reflexivity | reflexivity].
Defined.

(** * Note names *)

Lemma imap_forallb_lookup {A} (f : nat → A → bool) (l : list A) p x :
  forallb (λ b, b) (imap f l) = true → l !! p = Some x → f p x = true.
Proof.
  intros Hall Hp. rewrite forallb_forall in Hall. apply Hall.
  apply list_elem_of_In, list_elem_of_lookup. exists p.
  by rewrite list_lookup_imap, Hp.
Qed.

(** X12. [parseNote] agrees with [enum class Note]: each of the 97
    enumerators C0..C8, written with [#] for the sharp, parses to the
    value of the enumerator, and so does the name with [B] for [H]. *)
Theorem parseNote_matches_enum p name :
  Note_names !! p = Some name →
  parseNote (string_map spell_char name) = Some (Note_value p) ∧
  parseNote (string_map spell_B (string_map spell_char name)) =
    Some (Note_value p).
Proof.
  intros Hp.
  pose (test := λ (f : string → string) (p : nat) (name : string),
          match parseNote (f name) with
          | Some v => v =? Note_value p
          | None => false
          end).
  assert (Hall : ∀ f, forallb (λ b, b) (imap (test f) Note_names) = true →
            parseNote (f name) = Some (Note_value p)).
  { intros f Hf. pose proof (imap_forallb_lookup _ _ _ _ Hf Hp) as Ht.
    unfold test in Ht. destruct (parseNote (f name)) as [v|]; [|done].
    apply Z.eqb_eq in Ht. by rewrite Ht. }
  split.
  - apply (Hall (string_map spell_char)). vm_compute. reflexivity.
  - apply (Hall (λ s, string_map spell_B (string_map spell_char s))).
    vm_compute. reflexivity.
Qed.

Lemma parseNote_matches_enum_witness :
  parseNote "C4" = Some 60 ∧ parseNote "F#3" = Some 54 ∧
  parseNote "B7" = Some 107.
Proof.
  destruct (parseNote_matches_enum 48 "C4") as [HC4 _]; [reflexivity|].
  destruct (parseNote_matches_enum 42 "Fs3") as [HFs3 _]; [reflexivity|].
  destruct (parseNote_matches_enum 95 "H7") as [_ HB7]; [reflexivity|].
  exact (conj HC4 (conj HFs3 HB7)).
Defined.

Lemma digit_value_facts d k :
  digit_value d = Some k →
  0 ≤ k ≤ 9 ∧ (d =? NUL)%char = false ∧ (d =? "#")%char = false ∧
  (d =? "b")%char = false ∧ isspace d = false ∧ (d =? "-")%char = false ∧
  (d =? "+")%char = false.
Proof.
  destruct d as [[] [] [] [] [] [] [] []]; vm_compute; intros [= <-];
    repeat split; congruence.
Qed.

Lemma in_int_true x : - 2 ^ 31 ≤ x < 2 ^ 31 → in_int x = true.
Proof.
  intros Hx. unfold in_int. apply andb_true_iff.
  split; [apply Z.leb_le | apply Z.ltb_lt]; lia.
Qed.

Lemma note_semitone_range l : 0 ≤ note_semitone l ≤ 11.
Proof. unfold note_semitone. repeat destruct (_ =? _)%char; lia. Qed.

Lemma atoi_digit d k :
  digit_value d = Some k → atoi (String d EmptyString) = Some k.
Proof.
  intros Hd. destruct (digit_value_facts d k Hd) as (Hk & _ & _ & _ & Hsp & Hm & Hp).
  unfold atoi. cbn [atoi_value atoi_digits]. rewrite Hsp, Hm, Hp, Hd.
  rewrite in_int_true by lia. f_equal; lia.
Qed.

Lemma parseNote_letter l :
  l ≠ NUL → parseNote (String l EmptyString) = Some (12 + note_semitone l).
Proof.
  intros Hl%Ascii.eqb_neq. pose proof (note_semitone_range l) as Hs.
  unfold parseNote, char_at. cbn [c_str]. rewrite Hl. cbn.
  change (atoi EmptyString) with (Some 0). cbn beta iota.
  rewrite !in_int_true by lia. cbn [andb]. f_equal. rewrite Z.mod_small; lia.
Qed.

Lemma parseNote_digit l d k :
  l ≠ NUL → digit_value d = Some k →
  parseNote (String l (String d EmptyString)) =
    Some (12 + 12 * k + note_semitone l) ∧
  parseNote (String l (String "#" (String d EmptyString))) =
    Some (12 + 12 * k + note_semitone l + 1) ∧
  parseNote (String l (String "b" (String d EmptyString))) =
    Some (12 + 12 * k + note_semitone l - 1).
Proof.
  intros Hl%Ascii.eqb_neq Hd. pose proof (note_semitone_range l) as Hs.
  destruct (digit_value_facts d k Hd) as (Hk & Hnul & Hsharp & Hflat & _).
  pose proof (atoi_digit d k Hd) as Hatoi.
  unfold parseNote, char_at. split; [|split];
    repeat (progress
      (cbn [c_str String.get String.length Nat.eqb string_drop orb andb];
       rewrite ?Hl, ?Hnul, ?Hsharp, ?Hflat;
       change ("#" =? NUL)%char with false;
       change ("b" =? NUL)%char with false;
       change ("#" =? "#")%char with true;
       change ("b" =? "b")%char with true;
       change ("#" =? "b")%char with false;
       change ("b" =? "#")%char with false;
       change (NUL =? NUL)%char with true;
       change (NUL =? "#")%char with false;
       change (NUL =? "b")%char with false));
    rewrite Hatoi, !in_int_true by lia; cbn [andb];
    f_equal; rewrite Z.mod_small; lia.
Qed.

(** X13. The value of a note name.  For a first character [l] that is
    not NUL and an octave digit of value [k], the names [l k], [l # k]
    and [l b k] parse to 12 + 12 k + semitone, plus 1 for the sharp and
    minus 1 for the flat; the semitone is that of the [switch]: 0, 2, 4,
    5, 7, 9, 11, 11 for C, D, E, F, G, A, B, H and 0 for any other
    character.  A name without an octave digit lies in octave 0. *)
Theorem parseNote_value l d k :
  l ≠ NUL → digit_value d = Some k →
  parseNote (String l (String d EmptyString)) =
    Some (12 + 12 * k + note_semitone l) ∧
  parseNote (String l (String "#" (String d EmptyString))) =
    Some (12 + 12 * k + note_semitone l + 1) ∧
  parseNote (String l (String "b" (String d EmptyString))) =
    Some (12 + 12 * k + note_semitone l - 1) ∧
  parseNote (String l EmptyString) = Some (12 + note_semitone l) ∧
  map note_semitone ["C"; "D"; "E"; "F"; "G"; "A"; "B"; "H"]%char =
    [0; 2; 4; 5; 7; 9; 11; 11] ∧
  (l ∉ ["C"; "D"; "E"; "F"; "G"; "A"; "B"; "H"]%char → note_semitone l = 0).
Proof.
  intros Hl Hd.
  destruct (parseNote_digit l d k Hl Hd) as (H1 & H2 & H3).
  repeat (split; [done|]). split; [by apply parseNote_letter|].
  split; [reflexivity|].
  intros Hother. rewrite !not_elem_of_cons in Hother.
  destruct Hother as (HC & HD & HE & HF & HG & HA & HB & HH & _).
  unfold note_semitone.
  rewrite (proj2 (Ascii.eqb_neq l "C")), (proj2 (Ascii.eqb_neq l "D")),
    (proj2 (Ascii.eqb_neq l "E")), (proj2 (Ascii.eqb_neq l "F")),
    (proj2 (Ascii.eqb_neq l "G")), (proj2 (Ascii.eqb_neq l "A")),
    (proj2 (Ascii.eqb_neq l "B")), (proj2 (Ascii.eqb_neq l "H")); done.
Qed.

Lemma parseNote_value_witness :
  parseNote "Eb5" = Some 75 ∧ parseNote "G" = Some 19.
Proof.
  destruct (parseNote_value "E" "5" 5) as (_ & _ & Hflat & _);
    [discriminate | reflexivity |].
  destruct (parseNote_value "G" "0" 0) as (_ & _ & _ & Hbare & _);
    [discriminate | reflexivity |].
  exact (conj Hflat Hbare).
Defined.

(** X14. Spellings that name the same note, for every octave digit: B
    and H; a sharp and the flat of the next letter; a lower-case letter,
    or any other character that is not a note letter, and C.  The empty
    string cannot be parsed: the character after its terminator is read. *)
Theorem parseNote_synonyms d k :
  digit_value d = Some k →
  let o := String d EmptyString in
  parseNote (String "B" o) = parseNote (String "H" o) ∧
  parseNote (String "C" (String "#" o)) = parseNote (String "D" (String "b" o)) ∧
  parseNote (String "D" (String "#" o)) = parseNote (String "E" (String "b" o)) ∧
  parseNote (String "F" (String "#" o)) = parseNote (String "G" (String "b" o)) ∧
  parseNote (String "G" (String "#" o)) = parseNote (String "A" (String "b" o)) ∧
  parseNote (String "A" (String "#" o)) = parseNote (String "B" (String "b" o)) ∧
  parseNote (String "E" (String "#" o)) = parseNote (String "F" o) ∧
  (∀ l, l ≠ NUL → l ∉ ["C"; "D"; "E"; "F"; "G"; "A"; "B"; "H"]%char →
     parseNote (String l o) = parseNote (String "C" o)) ∧
  parseNote EmptyString = None.
Proof.
  intros Hd o. subst o.
  assert (Hv : ∀ l, l ≠ NUL → _) by (intros l Hl; exact (parseNote_digit l d k Hl Hd)).
  destruct (Hv "B"%char ltac:(discriminate)) as (HB & HBs & HBb).
  destruct (Hv "H"%char ltac:(discriminate)) as (HH & HHs & HHb).
  destruct (Hv "C"%char ltac:(discriminate)) as (HC & HCs & HCb).
  destruct (Hv "D"%char ltac:(discriminate)) as (HD & HDs & HDb).
  destruct (Hv "E"%char ltac:(discriminate)) as (HE & HEs & HEb).
  destruct (Hv "F"%char ltac:(discriminate)) as (HF & HFs & HFb).
  destruct (Hv "G"%char ltac:(discriminate)) as (HG & HGs & HGb).
  destruct (Hv "A"%char ltac:(discriminate)) as (HA & HAs & HAb).
  rewrite HB, HH, HCs, HDb, HDs, HEb, HFs, HGb, HGs, HAb, HAs, HBb, HEs, HF, HC.
  repeat (split; [f_equal; vm_compute note_semitone; lia|]).
  split; [|reflexivity].
  intros l Hl Hother. destruct (Hv l Hl) as (Hlv & _). rewrite Hlv.
  f_equal. rewrite !not_elem_of_cons in Hother.
  destruct Hother as (HC' & HD' & HE' & HF' & HG' & HA' & HB' & HH' & _).
  unfold note_semitone at 1.
  rewrite (proj2 (Ascii.eqb_neq l "C")), (proj2 (Ascii.eqb_neq l "D")),
    (proj2 (Ascii.eqb_neq l "E")), (proj2 (Ascii.eqb_neq l "F")),
    (proj2 (Ascii.eqb_neq l "G")), (proj2 (Ascii.eqb_neq l "A")),
    (proj2 (Ascii.eqb_neq l "B")), (proj2 (Ascii.eqb_neq l "H")); done.
Qed.

Lemma parseNote_synonyms_witness :
  parseNote "A#4" = parseNote "Bb4" ∧ parseNote "d4" = parseNote "C4".
Proof.
  destruct (parseNote_synonyms "4" 4) as (_ & _ & _ & _ & _ & HAB & _ & Hlow & _);
    [reflexivity|].
  split; [exact HAB|].
  apply (Hlow "d"%char); [discriminate|].
  rewrite !not_elem_of_cons. repeat split; try discriminate.
  apply not_elem_of_nil.
Defined.

(** * The composer *)

Lemma addEvent_sent track offset chan instr nt vel dur s :
  sent (addEvent track offset chan instr nt vel dur s) = [].
Proof.
  unfold addEvent.
  destruct (SEQ_MAX_TRACKS <=? track)%nat; [done|]. mrun.
  destruct (SEQ_MAX_EVENTS <=? count_at s track)%nat; [done|]. mrun.
  by destruct (_ <? _); mrun.
Qed.

Lemma wf_addEvent track offset chan instr nt vel dur s :
  wf s → wf (state_of (addEvent track offset chan instr nt vel dur s)).
Proof.
  intros Hwf. pose proof (wf_shape _ Hwf) as Hsh.
  destruct (Nat.leb_spec SEQ_MAX_TRACKS track) as [Hbig|Ht].
  { by rewrite addEvent_fail by lia. }
  destruct (Nat.leb_spec SEQ_MAX_EVENTS (count_at s track)) as [Hfull|Hc].
  { by rewrite addEvent_fail by lia. }
  rewrite addEvent_run by (rewrite (shape_loop _ Hsh); lia).
  destruct (Nat.leb_spec SEQ_MAX_TRACKS track); [lia|].
  destruct (Nat.leb_spec SEQ_MAX_EVENTS (count_at s track)); [lia|]. mrun.
  destruct Hsh.
  destruct (upd_event_lengths track (count_at s track)
              (λ _, mkSeqEvent offset chan instr nt vel dur false) (tracks s))
    as [Hl1 Hl2].
  split; [split|]; cbn; rewrite ?length_insert; try done.
  - congruence.
  - intros t Ht'. rewrite Hl2. auto.
  - intros t Ht'. unfold count_at. cbn.
    destruct (decide (track = t)) as [->|Hne].
    + rewrite list_lookup_total_insert_eq by lia. fold (count_at s t). lia.
    + rewrite list_lookup_total_insert_ne by done. by apply Hwf.
Qed.

Lemma addEvent_loop_length track offset chan instr nt vel dur s t :
  wf s → (t < SEQ_MAX_TRACKS)%nat →
  trackLoopLengthMs (state_of (addEvent track offset chan instr nt vel dur s))
    !!! t ≤ Z.max (trackLoopLengthMs s !!! t) (u32 (offset + dur)).
Proof.
  intros Hwf Ht. pose proof (wf_shape _ Hwf) as Hsh.
  destruct (Nat.leb_spec SEQ_MAX_TRACKS track) as [Hbig|Htr].
  { rewrite addEvent_fail by lia. mrun. lia. }
  destruct (Nat.leb_spec SEQ_MAX_EVENTS (count_at s track)) as [Hfull|Hc].
  { rewrite addEvent_fail by lia. mrun. lia. }
  rewrite addEvent_run by (rewrite (shape_loop _ Hsh); lia).
  destruct (Nat.leb_spec SEQ_MAX_TRACKS track); [lia|].
  destruct (Nat.leb_spec SEQ_MAX_EVENTS (count_at s track)); [lia|]. mrun.
  cbn [trackLoopLengthMs set_trackLoopLengthMs set_tracks set_trackEventCount].
  destruct (decide (track = t)) as [->|Hne].
  - rewrite list_lookup_total_insert_eq by (rewrite (shape_loop _ Hsh); lia).
    lia.
  - rewrite list_lookup_total_insert_ne by done. lia.
Qed.

Lemma tc_addEvent_run tc n vel dur s :
  tc_addEvent tc n vel dur s =
    (tt,
     state_of (addEvent (tc_track tc) (tc_cursor tc) 0
                 (tc_defaultInstrument tc) n vel dur s),
     []).
Proof.
  unfold tc_addEvent. mrun. by rewrite addEvent_sent.
Qed.

Lemma MU_bind_parse {B} name n (k : Z → MU B) s :
  parseNote name = Some n →
  MU_bind (MU_parseNote name) k s = k n s.
Proof.
  intros Hn. unfold MU_bind, MU_parseNote. rewrite Hn. mrun.
  destruct (k n s) as [[[b s'] o]|]; [|done]. by mrun.
Qed.

Lemma MU_bind_add {B} tc n vel dur (k : unit → MU B) s :
  MU_bind (MU_lift (tc_addEvent tc n vel dur)) k s =
    k tt (state_of (addEvent (tc_track tc) (tc_cursor tc) 0
                      (tc_defaultInstrument tc) n vel dur s)).
Proof.
  unfold MU_bind, MU_lift. rewrite tc_addEvent_run. mrun.
  destruct (k tt _) as [[[b s'] o]|]; [|done]. by mrun.
Qed.

Lemma tc_note_run name n dur vel tc s :
  parseNote name = Some n →
  tc_note name dur vel tc s =
    Some (tc_advance dur tc,
          state_of (addEvent (tc_track tc) (tc_cursor tc) 0
                      (tc_defaultInstrument tc) n vel dur s),
          []).
Proof.
  intros Hn. unfold tc_note. by rewrite (MU_bind_parse _ n), MU_bind_add.
Qed.

(** X15. [note] appends one event at the cursor, on channel 0, with the
    default instrument and the parsed note, and moves the cursor on by
    the duration, modulo 2^32.  When the track index is out of range or
    the track is full, the event is dropped without notice: the
    sequencer is unchanged and the cursor moves on all the same. *)
Theorem tc_note_effect name n dur vel tc s :
  wf s → parseNote name = Some n →
  ((tc_track tc < SEQ_MAX_TRACKS)%nat →
   (count_at s (tc_track tc) < SEQ_MAX_EVENTS)%nat →
   ∃ s',
     tc_note name dur vel tc s = Some (tc_advance dur tc, s', []) ∧
     count_at s' (tc_track tc) = S (count_at s (tc_track tc)) ∧
     event_at s' (tc_track tc) (count_at s (tc_track tc)) =
       mkSeqEvent (tc_cursor tc) 0 (tc_defaultInstrument tc) n vel dur false) ∧
  ((SEQ_MAX_TRACKS ≤ tc_track tc ∨
    SEQ_MAX_EVENTS ≤ count_at s (tc_track tc))%nat →
   tc_note name dur vel tc s = Some (tc_advance dur tc, s, [])) ∧
  tc_cursor (tc_advance dur tc) = (tc_cursor tc + dur) mod 2 ^ 32.
Proof.
  intros Hwf Hn. split; [|split; [|done]].
  - intros Ht Hc. eexists. split; [by apply tc_note_run|].
    destruct (addEvent_ok (tc_track tc) (tc_cursor tc) 0
                (tc_defaultInstrument tc) n vel dur s Hwf Ht Hc)
      as (_ & _ & Hcnt & Hev & _).
    by split.
  - intros Hfail. rewrite (tc_note_run _ n) by done.
    by rewrite addEvent_fail.
Qed.

Lemma tc_note_effect_witness :
  wf full_track ∧
  tc_note "C4" 250 110 (mkTrackComposer 0 1280 0) full_track =
    Some (mkTrackComposer 0 1530 0, full_track, []).
Proof.
  assert (Hwf : wf full_track) by (apply wfb_wf; vm_compute; reflexivity).
  split; [exact Hwf|].
  destruct (tc_note_effect "C4" 60 250 110 (mkTrackComposer 0 1280 0)
              full_track Hwf) as (_ & Hdrop & _); [reflexivity|].
  apply Hdrop. right. vm_compute. lia.
Defined.

Lemma tc_chord_loop_events names ns dur vel tc s :
  wf s → (tc_track tc < SEQ_MAX_TRACKS)%nat →
  Forall2 (λ name n, parseNote name = Some n) names ns →
  (count_at s (tc_track tc) + length ns ≤ SEQ_MAX_EVENTS)%nat →
  ∃ s',
    tc_chord_loop names dur vel tc s = Some (tt, s', []) ∧ wf s' ∧
    count_at s' (tc_track tc) = (count_at s (tc_track tc) + length ns)%nat ∧
    (∀ j n, ns !! j = Some n →
       event_at s' (tc_track tc) (count_at s (tc_track tc) + j) =
         mkSeqEvent (tc_cursor tc) 0 (tc_defaultInstrument tc) n vel dur false) ∧
    (∀ i, (i < count_at s (tc_track tc))%nat →
       event_at s' (tc_track tc) i = event_at s (tc_track tc) i).
Proof.
  intros Hwf Ht Hparse. revert s Hwf.
  induction Hparse as [|name n names ns Hn Hrest IH]; intros s Hwf Hroom.
  - exists s. cbn. rewrite Nat.add_0_r.
    split; [done|]. split; [done|]. split; [done|]. split; [|done].
    intros j n Hj. by rewrite lookup_nil in Hj.
  - cbn [length] in Hroom. cbn [tc_chord_loop].
    rewrite (MU_bind_parse _ n) by done. rewrite MU_bind_add.
    set (s1 := state_of (addEvent _ _ _ _ _ _ _ s)).
    destruct (addEvent_ok (tc_track tc) (tc_cursor tc) 0
                (tc_defaultInstrument tc) n vel dur s Hwf Ht ltac:(lia))
      as (_ & _ & Hcnt & Hev & Hsame & _).
    fold s1 in Hcnt, Hev, Hsame.
    destruct (IH s1) as (s' & Hrun & Hwf' & Hcnt' & Hnew & Hold).
    { by apply wf_addEvent. }
    { rewrite Hcnt. lia. }
    exists s'. split; [done|]. split; [done|]. split; [|split].
    + rewrite Hcnt', Hcnt. cbn [length]. lia.
    + intros [|j] m Hj.
      * cbn in Hj. injection Hj as <-. rewrite Nat.add_0_r.
        rewrite Hold by lia. done.
      * cbn in Hj. specialize (Hnew j m Hj). rewrite Hcnt in Hnew.
        by replace (count_at s (tc_track tc) + S j)%nat
          with (S (count_at s (tc_track tc)) + j)%nat by lia.
    + intros i Hi. rewrite Hold by lia. apply Hsame. lia.
Qed.

(** X16. [chord] stores its notes as simultaneous events: when the
    names can be read and the track has room for them, the events are
    appended in the order of the list, all at the cursor, on channel 0,
    with the default instrument and the same duration and velocity, the
    events already in the track are kept, and the cursor moves on once,
    by the duration. *)
Theorem tc_chord_events names ns dur vel tc s :
  wf s → (tc_track tc < SEQ_MAX_TRACKS)%nat →
  Forall2 (λ name n, parseNote name = Some n) names ns →
  (count_at s (tc_track tc) + length ns ≤ SEQ_MAX_EVENTS)%nat →
  ∃ s',
    tc_chord names dur vel tc s = Some (tc_advance dur tc, s', []) ∧
    count_at s' (tc_track tc) = (count_at s (tc_track tc) + length ns)%nat ∧
    (∀ j n, ns !! j = Some n →
       event_at s' (tc_track tc) (count_at s (tc_track tc) + j) =
         mkSeqEvent (tc_cursor tc) 0 (tc_defaultInstrument tc) n vel dur false) ∧
    (∀ i, (i < count_at s (tc_track tc))%nat →
       event_at s' (tc_track tc) i = event_at s (tc_track tc) i).
Proof.
  intros Hwf Ht Hparse Hroom.
  destruct (tc_chord_loop_events names ns dur vel tc s Hwf Ht Hparse Hroom)
    as (s' & Hrun & _ & Hcnt & Hnew & Hold).
  exists s'. split; [|done].
  unfold tc_chord, MU_bind. rewrite Hrun. by mrun.
Qed.

Lemma tc_chord_events_witness :
  wf fresh ∧
  ∃ s',
    tc_chord ["C4"; "E4"; "G4"]%string 400 100 (mkTrackComposer 2 1000 0) fresh =
      Some (mkTrackComposer 2 1400 0, s', []) ∧
    event_at s' 2 2 = mkSeqEvent 1000 0 0 67 100 400 false.
Proof.
  assert (Hwf : wf fresh) by (apply wfb_wf; vm_compute; reflexivity).
  split; [exact Hwf|].
  destruct (tc_chord_events ["C4"; "E4"; "G4"]%string [60; 64; 67] 400 100
              (mkTrackComposer 2 1000 0) fresh Hwf)
    as (s' & Hrun & _ & Hnew & _).
  - vm_compute. lia.
  - repeat constructor.
  - vm_compute. lia.
  - exists s'. split; [exact Hrun|]. apply (Hnew 2%nat 67). reflexivity.
Defined.

Lemma u32_add_step c step j :
  u32 (u32 (c + step) + Z.of_nat j * step) = u32 (c + Z.of_nat (S j) * step).
Proof.
  unfold u32. rewrite Zplus_mod_idemp_l. f_equal. lia.
Qed.

(** X17. [arp] stores its notes one after the other: when the names
    can be read and the track has room, note number [j] of the list is
    appended at offset (cursor + j * step) mod 2^32 with duration [step],
    the events already in the track are kept, and the cursor ends at
    (cursor + length * step) mod 2^32. *)
Theorem tc_arp_events names ns step vel tc s :
  wf s → (tc_track tc < SEQ_MAX_TRACKS)%nat →
  Forall2 (λ name n, parseNote name = Some n) names ns →
  (count_at s (tc_track tc) + length ns ≤ SEQ_MAX_EVENTS)%nat →
  0 ≤ tc_cursor tc < 2 ^ 32 →
  ∃ s',
    tc_arp names step vel tc s =
      Some (mkTrackComposer (tc_track tc)
              (u32 (tc_cursor tc + Z.of_nat (length ns) * step))
              (tc_defaultInstrument tc), s', []) ∧
    wf s' ∧
    count_at s' (tc_track tc) = (count_at s (tc_track tc) + length ns)%nat ∧
    (∀ j n, ns !! j = Some n →
       event_at s' (tc_track tc) (count_at s (tc_track tc) + j) =
         mkSeqEvent (u32 (tc_cursor tc + Z.of_nat j * step)) 0
           (tc_defaultInstrument tc) n vel step false) ∧
    (∀ i, (i < count_at s (tc_track tc))%nat →
       event_at s' (tc_track tc) i = event_at s (tc_track tc) i).
Proof.
  intros Hwf Ht Hparse Hroom Hcur. revert tc s Hwf Ht Hroom Hcur.
  induction Hparse as [|name n names ns Hn Hrest IH];
    intros tc s Hwf Ht Hroom Hcur.
  - exists s. cbn [tc_arp length]. rewrite Nat.add_0_r.
    destruct tc as [t c i]. cbn [tc_track tc_cursor tc_defaultInstrument] in *.
    unfold MU_ret. rewrite Z.mul_0_l, Z.add_0_r.
    unfold u32. rewrite Z.mod_small by done.
    split; [done|]. split; [done|]. split; [done|]. split; [|done].
    intros j n Hj. by rewrite lookup_nil in Hj.
  - cbn [length] in Hroom. cbn [tc_arp].
    rewrite (MU_bind_parse _ n) by done. rewrite MU_bind_add.
    set (s1 := state_of (addEvent _ _ _ _ _ _ _ s)).
    destruct (addEvent_ok (tc_track tc) (tc_cursor tc) 0
                (tc_defaultInstrument tc) n vel step s Hwf Ht ltac:(lia))
      as (_ & _ & Hcnt & Hev & Hsame & _).
    fold s1 in Hcnt, Hev, Hsame.
    destruct (IH (tc_advance step tc) s1)
      as (s' & Hrun & Hwf' & Hcnt' & Hnew & Hold).
    { by apply wf_addEvent. }
    { done. }
    { cbn [tc_advance tc_track]. rewrite Hcnt. lia. }
    { cbn [tc_advance tc_cursor]. unfold u32. apply Z.mod_pos_bound. lia. }
    cbn [tc_advance tc_track tc_cursor tc_defaultInstrument] in Hrun, Hcnt',
      Hnew, Hold.
    exists s'. split; [|split; [done|split; [|split]]].
    + rewrite Hrun. by rewrite u32_add_step.
    + rewrite Hcnt', Hcnt. cbn [length]. lia.
    + intros [|j] m Hj.
      * cbn in Hj. injection Hj as <-. rewrite Nat.add_0_r.
        rewrite Hold by lia. rewrite Hev. f_equal.
        cbn. rewrite Z.add_0_r. unfold u32. by rewrite Z.mod_small.
      * cbn in Hj. specialize (Hnew j m Hj). rewrite Hcnt in Hnew.
        replace (count_at s (tc_track tc) + S j)%nat
          with (S (count_at s (tc_track tc)) + j)%nat by lia.
        by rewrite Hnew, u32_add_step.
    + intros i Hi. rewrite Hold by lia. apply Hsame. lia.
Qed.

Lemma tc_arp_events_witness :
  wf fresh ∧
  ∃ s',
    tc_arp ["C4"; "E4"; "G4"]%string 125 100 (mkTrackComposer 2 1000 0) fresh =
      Some (mkTrackComposer 2 1375 0, s', []) ∧
    event_at s' 2 2 = mkSeqEvent 1250 0 0 67 100 125 false.
Proof.
  assert (Hwf : wf fresh) by (apply wfb_wf; vm_compute; reflexivity).
  split; [exact Hwf|].
  destruct (tc_arp_events ["C4"; "E4"; "G4"]%string [60; 64; 67] 125 100
              (mkTrackComposer 2 1000 0) fresh Hwf)
    as (s' & Hrun & _ & _ & Hnew & _).
  - vm_compute. lia.
  - repeat constructor.
  - vm_compute. lia.
  - vm_compute. split; congruence.
  - exists s'. split; [exact Hrun|]. apply (Hnew 2%nat 67). reflexivity.
Defined.

(** ** The length of a composed track *)

Lemma u32_small x : 0 ≤ x < 2 ^ 32 → u32 x = x.
Proof. intros Hx. unfold u32. by apply Z.mod_small. Qed.

Lemma wf_clearTrack track s : wf s → wf (state_of (clearTrack track s)).
Proof.
  intros Hwf. unfold clearTrack.
  destruct (Nat.leb_spec SEQ_MAX_TRACKS track); [done|]. mrun.
  destruct (wf_shape _ Hwf).
  split; [split|]; cbn; try done; rewrite ?length_insert; try done.
  intros t Ht. unfold count_at. cbn.
  destruct (decide (track = t)) as [->|Hne].
  - rewrite list_lookup_total_insert_eq by lia. lia.
  - rewrite list_lookup_total_insert_ne by done. by apply Hwf.
Qed.

Lemma add_keeps_bound t tc n vel dur s B :
  wf s → (t < SEQ_MAX_TRACKS)%nat →
  0 ≤ tc_cursor tc → 0 ≤ dur → tc_cursor tc + dur ≤ B → B < 2 ^ 32 →
  trackLoopLengthMs s !!! t ≤ B →
  wf (state_of (addEvent (tc_track tc) (tc_cursor tc) 0
                  (tc_defaultInstrument tc) n vel dur s)) ∧
  trackLoopLengthMs
    (state_of (addEvent (tc_track tc) (tc_cursor tc) 0
                 (tc_defaultInstrument tc) n vel dur s)) !!! t ≤ B.
Proof.
  intros Hwf Ht Hcur Hdur HB Hfit Hloop. split; [by apply wf_addEvent|].
  pose proof (addEvent_loop_length (tc_track tc) (tc_cursor tc) 0
                (tc_defaultInstrument tc) n vel dur s t Hwf Ht) as Hle.
  rewrite u32_small in Hle by lia. lia.
Qed.

Lemma tc_chord_loop_bound t names dur vel tc s B :
  (t < SEQ_MAX_TRACKS)%nat → names_parse names →
  0 ≤ tc_cursor tc → 0 ≤ dur → tc_cursor tc + dur ≤ B → B < 2 ^ 32 →
  wf s → trackLoopLengthMs s !!! t ≤ B →
  ∃ s', tc_chord_loop names dur vel tc s = Some (tt, s', []) ∧ wf s' ∧
        trackLoopLengthMs s' !!! t ≤ B.
Proof.
  intros Ht Hparse Hcur Hdur HB Hfit. revert s.
  induction Hparse as [|name names [n Hn] Hrest IH]; intros s Hwf Hloop.
  - by exists s.
  - cbn [tc_chord_loop]. rewrite (MU_bind_parse _ n) by done.
    rewrite MU_bind_add.
    destruct (add_keeps_bound t tc n vel dur s B) as [Hwf1 Hl1]; try done.
    by apply IH.
Qed.

Lemma tc_arp_bound t names step vel tc s :
  (t < SEQ_MAX_TRACKS)%nat → names_parse names →
  0 ≤ tc_cursor tc → 0 ≤ step →
  tc_cursor tc + Z.of_nat (length names) * step < 2 ^ 32 →
  wf s →
  trackLoopLengthMs s !!! t ≤ tc_cursor tc + Z.of_nat (length names) * step →
  ∃ tc' s',
    tc_arp names step vel tc s = Some (tc', s', []) ∧ wf s' ∧
    tc_track tc' = tc_track tc ∧
    tc_cursor tc' = tc_cursor tc + Z.of_nat (length names) * step ∧
    trackLoopLengthMs s' !!! t ≤ tc_cursor tc'.
Proof.
  intros Ht Hparse. revert tc s.
  induction Hparse as [|name names [n Hn] Hrest IH];
    intros tc s Hcur Hstep Hfit Hwf Hloop.
  - exists tc, s. cbn [length] in *. split_and!; try done; lia.
  - cbn [length] in Hfit, Hloop. cbn [tc_arp].
    rewrite (MU_bind_parse _ n) by done. rewrite MU_bind_add.
    destruct (add_keeps_bound t tc n vel step s
                (tc_cursor tc + Z.of_nat (S (length names)) * step))
      as [Hwf1 Hl1]; try done; try nia.
    destruct (IH (tc_advance step tc)
                (state_of (addEvent (tc_track tc) (tc_cursor tc) 0
                             (tc_defaultInstrument tc) n vel step s)))
      as (tc' & s' & Hrun & Hwf' & Htr' & Hcur' & Hl'); try done.
    + cbn [tc_advance tc_cursor]. rewrite u32_small; nia.
    + cbn [tc_advance tc_cursor]. rewrite u32_small; nia.
    + cbn [tc_advance tc_cursor]. rewrite u32_small by nia. nia.
    + cbn [tc_advance tc_cursor tc_track] in Hcur', Htr'.
      rewrite u32_small in Hcur' by nia.
      exists tc', s'. cbn [length]. split_and!; try done; nia.
Qed.

Lemma compose_bound t cs tc s :
  (t < SEQ_MAX_TRACKS)%nat → Forall call_ok cs →
  tc_track tc = t → 0 ≤ tc_cursor tc →
  tc_cursor tc + total_time cs < 2 ^ 32 →
  wf s → trackLoopLengthMs s !!! t ≤ tc_cursor tc →
  ∃ tc' s',
    compose cs tc s = Some (tc', s', []) ∧ wf s' ∧
    tc_cursor tc' = tc_cursor tc + total_time cs ∧
    trackLoopLengthMs s' !!! t ≤ tc_cursor tc'.
Proof.
  intros Ht Hok. revert tc s.
  assert (Htime : ∀ c, call_ok c → 0 ≤ call_time c).
  { intros [] Hc; cbn in *; try lia; destruct Hc; nia. }
  assert (Htotal : ∀ cs, Forall call_ok cs → 0 ≤ total_time cs).
  { intros cs' H. induction H as [|c cs' Hc _ IH]; [done|].
    change (total_time (c :: cs')) with (call_time c + total_time cs').
    specialize (Htime c Hc). lia. }
  induction Hok as [|c cs Hc Hrest IH]; intros tc s Htr Hcur Hfit Hwf Hloop.
  - exists tc, s. change (total_time []) with 0. split_and!; try done; lia.
  - change (total_time (c :: cs)) with (call_time c + total_time cs) in *.
    pose proof (Htime c Hc) as Hc0. pose proof (Htotal cs Hrest) as Hcs0.
    assert (Hstep : ∃ tc1 s1,
      compose_call c tc s = Some (tc1, s1, []) ∧ wf s1 ∧ tc_track tc1 = t ∧
      tc_cursor tc1 = tc_cursor tc + call_time c ∧
      trackLoopLengthMs s1 !!! t ≤ tc_cursor tc1).
    { destruct c as [i|ms|name dur vel|names dur vel|names step vel];
        cbn [compose_call call_time call_ok] in *.
      - exists (tc_instrument i tc), s.
        cbn [tc_instrument tc_track tc_cursor]. split_and!; try done; lia.
      - exists (tc_rest ms tc), s.
        cbn [tc_rest tc_advance tc_track tc_cursor]. rewrite u32_small by lia.
        split_and!; try done; lia.
      - destruct Hc as [[n Hn] Hdur].
        destruct (add_keeps_bound t tc n vel dur s (tc_cursor tc + dur))
          as [Hwf1 Hl1]; try done; try lia.
        eexists _, _. split; [by apply tc_note_run|].
        cbn [tc_advance tc_cursor tc_track]. rewrite u32_small by lia.
        by split_and!.
      - destruct Hc as [Hparse Hdur].
        destruct (tc_chord_loop_bound t names dur vel tc s
                    (tc_cursor tc + dur))
          as (s' & Hrun & Hwf' & Hl'); try done; try lia.
        exists (tc_advance dur tc), s'. unfold tc_chord, MU_bind.
        rewrite Hrun. mrun. cbn [tc_advance tc_cursor tc_track].
        rewrite u32_small by lia. by split_and!.
      - destruct Hc as [Hparse Hstep].
        destruct (tc_arp_bound t names step vel tc s)
          as (tc' & s' & Hrun & Hwf' & Htr' & Hcur' & Hl'); try done; try lia.
        exists tc', s'. split_and!; try done; congruence. }
    destruct Hstep as (tc1 & s1 & Hrun1 & Hwf1 & Htr1 & Hcur1 & Hl1).
    destruct (IH tc1 s1) as (tc' & s' & Hrun & Hwf' & Hcur' & Hl');
      try done; try lia.
    exists tc', s'. cbn [compose]. unfold MU_bind. rewrite Hrun1. mrun.
    rewrite Hrun. mrun. split_and!; try done; lia.
Qed.

(** X18. A track composed from [Song::track]: when every note name can
    be read, no time is negative and the times add up to less than 2^32,
    the chain of calls is defined and sends nothing, the composer's
    [length()] is the sum of the times, and the loop length the
    sequencer derives for the track is at most that length.  (Rests at
    the end, and notes dropped from a full track, make it shorter.) *)
Theorem composed_length_bounds_loop t cs s :
  wf s → (t < SEQ_MAX_TRACKS)%nat →
  Forall call_ok cs → total_time cs < 2 ^ 32 →
  ∃ tc s',
    MU_bind (MU_lift (Song_track t)) (compose cs) s = Some (tc, s', []) ∧
    wf s' ∧ tc_length tc = total_time cs ∧
    trackLoopLengthMs s' !!! t ≤ tc_length tc.
Proof.
  intros Hwf Ht Hok Hfit.
  assert (Hctor : Song_track t s =
            (mkTrackComposer t 0 0, state_of (clearTrack t s), [])).
  { unfold Song_track, TrackComposer_ctor. mrun.
    unfold clearTrack. destruct (SEQ_MAX_TRACKS <=? t)%nat; by mrun. }
  assert (Hloop0 : trackLoopLengthMs (state_of (clearTrack t s)) !!! t = 0).
  { unfold clearTrack. destruct (Nat.leb_spec SEQ_MAX_TRACKS t); [lia|]. mrun.
    cbn [trackLoopLengthMs set_trackLoopLengthMs set_trackEventCount].
    apply list_lookup_total_insert_eq.
    rewrite (shape_loop _ (wf_shape _ Hwf)). lia. }
  destruct (compose_bound t cs (mkTrackComposer t 0 0)
              (state_of (clearTrack t s)))
    as (tc & s' & Hrun & Hwf' & Hcur & Hl); try done.
  { by apply wf_clearTrack. }
  { cbn [tc_cursor]. lia. }
  cbn [tc_cursor] in Hcur.
  exists tc, s'. unfold MU_bind, MU_lift. rewrite Hctor. mrun.
  rewrite Hrun. mrun. unfold tc_length. split_and!; try done; lia.
Qed.

Lemma composed_length_bounds_loop_witness :
  wf song_at_250 ∧
  ∃ tc s',
    MU_bind (MU_lift (Song_track 0))
      (compose [TcNote "C4" 300 110; TcChord ["E4"; "G4"]%string 200 110;
                TcArp ["C5"; "D5"]%string 100 110; TcRest 400])
      song_at_250 = Some (tc, s', []) ∧
    tc_length tc = 1100 ∧ trackLoopLengthMs s' !!! 0%nat ≤ 1100.
Proof.
  assert (Hwf : wf song_at_250) by (apply wfb_wf; vm_compute; reflexivity).
  split; [exact Hwf|].
  destruct (composed_length_bounds_loop 0
              [TcNote "C4" 300 110; TcChord ["E4"; "G4"]%string 200 110;
               TcArp ["C5"; "D5"]%string 100 110; TcRest 400]
              song_at_250 Hwf)
    as (tc & s' & Hrun & _ & Hlen & Hloop).
  - vm_compute. lia.
  - repeat constructor; try (vm_compute; congruence); by eexists.
  - vm_compute. reflexivity.
  - exists tc, s'. split; [exact Hrun|]. rewrite Hlen in Hloop.
    split; [exact Hlen | exact Hloop].
Defined.

(** ** The control registers *)

Lemma u16_small (x : Z) : 0 ≤ x < 2 ^ 16 → u16 x = x.
Proof. intros H. unfold u16. by rewrite Z.mod_small. Qed.

Lemma pgm_read_word_middle (pre post : list Z) (x : Z) :
  0 ≤ x < 2 ^ 16 →
  pgm_read_word (pre ++ x :: post) (length pre) = Some x.
Proof.
  intros Hx. unfold pgm_read_word.
  rewrite list_lookup_middle by done. simpl. by rewrite u16_small.
Qed.

Lemma writeRegister_word (addr v : Z) :
  0 ≤ v < 2 ^ 16 →
  writeRegister addr (Z.shiftr v 8) (Z.land v 0xFF) =
  mkSciWrite (addr mod 256) (v / 256) (v mod 256).
Proof.
  intros Hv. unfold writeRegister, u8.
  rewrite Z.shiftr_div_pow2 by lia.
  change 0xFF with (Z.ones 8). rewrite Z.land_ones by lia.
  change (2 ^ 8) with 256.
  f_equal.
  - rewrite Z.mod_small; [done|].
    split; [apply Z.div_pos; lia | apply Z.div_lt_upper_bound; lia].
  - by rewrite Z.mod_mod.
Qed.

Lemma plugin_block_run (addr : Z) (vals pre post : list Z) :
  Forall (λ v, 0 ≤ v < 2 ^ 16) vals →
  plugin_block (pre ++ vals ++ post) addr (length vals) (length pre) =
  Some (map (λ v, mkSciWrite (addr mod 256) (v / 256) (v mod 256)) vals,
        (length pre + length vals)%nat).
Proof.
  intros Hvals. revert pre.
  induction Hvals as [|v vals Hv Hvals IH]; intros pre.
  - simpl. by rewrite Nat.add_0_r.
  - cbn [length plugin_block app].
    rewrite pgm_read_word_middle by done.
    specialize (IH (pre ++ [v])).
    rewrite <- app_assoc in IH. cbn [app] in IH.
    rewrite length_app in IH. cbn [length] in IH.
    replace (length pre + 1)%nat with (S (length pre)) in IH by lia.
    rewrite IH. rewrite writeRegister_word by done.
    cbn [map]. do 2 f_equal. lia.
Qed.

Lemma loadPlugin_loop_run (recs : list (Z * list Z)) (pre : list Z)
    (fuel : nat) :
  Forall record_ok recs → (length recs ≤ fuel)%nat →
  loadPlugin_loop fuel (pre ++ plugin_encode recs)
    (length (pre ++ plugin_encode recs)) (length pre) =
  Done (plugin_writes recs).
Proof.
  intros Hrecs. revert pre fuel.
  induction Hrecs as [|[addr vals] recs Hr Hrecs IH]; intros pre fuel Hfuel.
  - destruct fuel; cbn [loadPlugin_loop plugin_encode flat_map];
      rewrite app_nil_r, Nat.leb_refl; done.
  - destruct fuel as [|fuel]; [cbn [length] in Hfuel; lia|].
    destruct Hr as (Haddr & Hn & Hvals). cbn [fst snd] in Haddr, Hn, Hvals.
    cbn [loadPlugin_loop].
    replace (length (pre ++ plugin_encode ((addr, vals) :: recs)) <=?
             length pre)%nat with false.
    2:{ symmetry. apply Nat.leb_gt. rewrite length_app.
        cbn [plugin_encode flat_map fst snd app length]. lia. }
    cbn [plugin_encode flat_map fst snd app].
    fold (plugin_encode recs).
    rewrite pgm_read_word_middle by done.
    replace (pgm_read_word
               (pre ++ addr :: Z.of_nat (length vals) ::
                vals ++ plugin_encode recs) (S (length pre)))
      with (Some (Z.of_nat (length vals))).
    2:{ symmetry.
        replace (pre ++ addr :: Z.of_nat (length vals) ::
                 vals ++ plugin_encode recs)
          with ((pre ++ [addr]) ++ Z.of_nat (length vals) ::
                vals ++ plugin_encode recs)
          by (by rewrite <- app_assoc).
        replace (S (length pre)) with (length (pre ++ [addr]))
          by (rewrite length_app; cbn [length]; lia).
        apply pgm_read_word_middle. lia. }
    rewrite Nat2Z.id.
    pose proof (plugin_block_run addr vals
                  (pre ++ [addr; Z.of_nat (length vals)])
                  (plugin_encode recs) Hvals) as Hblock.
    rewrite <- app_assoc in Hblock. cbn [app] in Hblock.
    rewrite length_app in Hblock. cbn [length] in Hblock.
    replace (length pre + 2)%nat with (S (S (length pre))) in Hblock by lia.
    rewrite Hblock.
    specialize (IH (pre ++ addr :: Z.of_nat (length vals) :: vals) fuel).
    rewrite <- app_assoc in IH. cbn [app] in IH.
    replace (length (pre ++ addr :: Z.of_nat (length vals) :: vals))
      with (S (S (length pre)) + length vals)%nat in IH
      by (rewrite length_app; cbn [length]; lia).
    rewrite IH by (cbn [length] in Hfuel; lia).
    done.
Qed.

Lemma plugin_encode_length (recs : list (Z * list Z)) :
  (length recs ≤ length (plugin_encode recs))%nat.
Proof.
  induction recs as [|r recs IH]; [done|].
  cbn [plugin_encode flat_map length app]. fold (plugin_encode recs).
  rewrite length_app. lia.
Qed.

(** X19.  [loadPlugin] reads a table of records -- an address, a count,
    that many values -- and writes each value to the register of its
    record, high byte first: run on the table of any list of records of
    16-bit words, with the length of the table, one that an [int]
    holds, as its bound, it ends,
    never reads past the end of the table, and makes exactly the writes
    of the records, in order. *)
Theorem loadPlugin_writes_records (recs : list (Z * list Z)) :
  Forall record_ok recs →
  Z.of_nat (length (plugin_encode recs)) < 2 ^ 31 →
  loadPlugin_on (plugin_encode recs) (length (plugin_encode recs)) =
  Done (plugin_writes recs).
Proof.
  intros Hrecs _. unfold loadPlugin_on.
  apply (loadPlugin_loop_run recs [] _ Hrecs), plugin_encode_length.
Qed.

Lemma loadPlugin_writes_records_witness :
  Forall record_ok plugin_records ∧
  vs1053_plugin = plugin_encode plugin_records ∧
  length vs1053_plugin = 28%nat ∧
  loadPlugin = Done (plugin_writes plugin_records) ∧
  length (plugin_writes plugin_records) = 22%nat.
Proof.
  assert (Hok : Forall record_ok plugin_records).
  { unfold plugin_records, record_ok.
    repeat first [ apply Forall_nil_2 | apply Forall_cons_2
                 | (cbn [fst snd length]; lia) | split ]. }
  split_and!; [exact Hok | reflexivity | reflexivity | | reflexivity].
  apply (loadPlugin_writes_records plugin_records Hok). vm_compute. done.
Defined.

Lemma land_low_nibble (x : Z) : 0 ≤ x ≤ 15 → Z.land x 0x0F = x.
Proof.
  intros Hx. change 0x0F with (Z.ones 4).
  rewrite Z.land_ones by lia. apply Z.mod_small.
  change (2 ^ 4) with 16. lia.
Qed.

(** X20.  [setBassBoost] writes register 2 once: the high byte is
    sixteen times the level, the level held at 15, and the low byte is
    zero; so the high byte never leaves 0..240 and its low four bits are
    clear. *)
Theorem setBassBoost_write (bass : Z) :
  0 ≤ bass < 256 →
  setBassBoost bass = mkSciWrite 2 (16 * Z.min bass 15) 0.
Proof.
  intros Hb. unfold setBassBoost, writeRegister, u8.
  assert (Hmin : (if 15 <? bass then 15 else bass) = Z.min bass 15).
  { destruct (Z.ltb_spec 15 bass); lia. }
  rewrite Hmin, land_low_nibble by lia.
  rewrite Z.shiftl_mul_pow2 by lia.
  change (2 ^ 8) with 256. change (2 ^ 4) with 16.
  f_equal. rewrite Z.mod_small; lia.
Qed.

Lemma setBassBoost_write_witness :
  setBassBoost 9 = mkSciWrite 2 144 0 ∧
  setBassBoost 200 = mkSciWrite 2 240 0.
Proof.
  split.
  - apply (setBassBoost_write 9). lia.
  - apply (setBassBoost_write 200). lia.
Defined.

(** ** Stopping the sequencer *)



